(** * aircraft-web: the ECS core and its collision system

    A shallow embedding of [src/core/ecs/Component.ts], [Entity.ts],
    [System.ts], [World.ts], [components/TransformComponent.ts],
    [components/ColliderComponent.ts], [systems/CollisionSystem.ts],
    [components/TimerComponent.ts], [components/HealthComponent.ts] and
    [utils/ObjectPool.ts].

    Conventions of the embedding.
    - A JavaScript [number] that is a coordinate, an offset, a size, a
      radius, a rotation, a scale, a health or an invincibility time is a
      double: the primitive binary64 [float], whose [+], [-], [*], [<], [<=]
      and square root are the IEEE 754 operations, rounded to nearest, that
      the JavaScript engine applies.  What is proved about them goes through
      their specification on [spec_float] ([FloatAxioms]).
    - Priorities, collision layers and masks, pool capacities and counts are
      integers of [Z]; layers and masks go through ToInt32, as [&] applies
      it.  The times of a timer component are integers of [Z] as well: what
      is proved of them holds for whole numbers of milliseconds.
    - A JavaScript [Map<string, V>] is an association list in insertion
      order ([JsMap]); a [Set<string>] is a duplicate-free list in insertion
      order ([JsSet]).  Iteration order is the list order.
    - Components are mutable objects shared between an entity and whoever
      created them: they live in a heap and are named by references.  An
      entity is named by its id (a uuid fixed by the constructor), which is
      how a component's owner back-reference is stored.
    - Callbacks (entity listeners, collision listeners, timer callbacks) are
      opaque: a callback is an identity and calling it is recorded in a log.
    - A system is an object with a class, the classes that class extends, a
      state of its own and an [update]; what an [update] may ask of its world
      are the two buffered requests, [addEntity] and [removeEntity], and what
      it reads is the registry, through [this.world].
    - Calling a method on a missing collider (a TypeError) is [None]. *)

From Stdlib Require Import Floats.
From Stdlib Require Import ZArith List Bool String Ascii Lia Sorted.
Import ListNotations.

Local Open Scope string_scope.
Local Open Scope list_scope.
Local Open Scope Z_scope.

Set Implicit Arguments.

(** ** JavaScript helpers *)

Module Js.

(** ToInt32, applied by [&] to both operands. *)
Definition toInt32 (n : Z) : Z := (n + 2 ^ 31) mod 2 ^ 32 - 2 ^ 31.

(** [a & b] *)
Definition bitand (a b : Z) : Z := Z.land (toInt32 a) (toInt32 b).

(** [Math.min] on integers (counts). *)
Definition min (a b : Z) : Z := Z.min a b.

(** [a < b], [a > b] and [a <= b] on doubles: [false] when either is NaN. *)
Definition lt (a b : float) : bool := PrimFloat.ltb a b.
Definition gt (a b : float) : bool := PrimFloat.ltb b a.
Definition le (a b : float) : bool := PrimFloat.leb a b.

(** [Math.max], [Math.min] on doubles: NaN when either argument is NaN,
    and [-0] counts as smaller than [+0]. *)
Definition max64 (a b : float) : float :=
  if PrimFloat.is_nan a || PrimFloat.is_nan b then PrimFloat.nan
  else if PrimFloat.ltb a b then b
  else if PrimFloat.ltb b a then a
  else if PrimFloat.is_zero a && PrimFloat.get_sign a then b
  else a.

Definition min64 (a b : float) : float :=
  if PrimFloat.is_nan a || PrimFloat.is_nan b then PrimFloat.nan
  else if PrimFloat.ltb a b then a
  else if PrimFloat.ltb b a then b
  else if PrimFloat.is_zero a && negb (PrimFloat.get_sign a) then b
  else a.

(** [Math.sqrt]: the square root rounded to the nearest double. *)
Definition sqrt (n : float) : float := PrimFloat.sqrt n.

(** [s.split(sep)] for a one-character separator. *)
Fixpoint split (sep : ascii) (s : string) : list string :=
  match s with
  | EmptyString => [EmptyString]
  | String c rest =>
      if Ascii.eqb c sep then EmptyString :: split sep rest
      else match split sep rest with
           | [] => [String c EmptyString]
           | p :: ps => String c p :: ps
           end
  end.

(** [arr.findIndex(p)], [None] for [-1]. *)
Fixpoint findIndex {A : Type} (p : A -> bool) (l : list A) : option nat :=
  match l with
  | [] => None
  | a :: l' => if p a then Some O
               else match findIndex p l' with
                    | Some i => Some (S i)
                    | None => None
                    end
  end.

(** [arr.splice(index, 0, a)] *)
Definition splice_insert {A : Type} (index : nat) (a : A) (l : list A) : list A :=
  firstn index l ++ a :: skipn index l.

(** [arr.splice(index, 1)] *)
Definition splice_remove {A : Type} (index : nat) (l : list A) : list A :=
  firstn index l ++ skipn (S index) l.

End Js.

(** [Map<string, V>] in insertion order. *)
Module JsMap.

Section Ops.
Variable V : Type.

Definition t := list (string * V).

Fixpoint get (k : string) (m : t) : option V :=
  match m with
  | [] => None
  | (k', v) :: m' => if String.eqb k k' then Some v else get k m'
  end.

Definition has (k : string) (m : t) : bool :=
  match get k m with Some _ => true | None => false end.

(** [set] keeps the position of a key that is already present. *)
Fixpoint set (k : string) (v : V) (m : t) : t :=
  match m with
  | [] => [(k, v)]
  | (k', v') :: m' =>
      if String.eqb k k' then (k, v) :: m' else (k', v') :: set k v m'
  end.

Fixpoint delete (k : string) (m : t) : t :=
  match m with
  | [] => []
  | (k', v') :: m' =>
      if String.eqb k k' then m' else (k', v') :: delete k m'
  end.

Definition keys (m : t) : list string := map fst m.
Definition values (m : t) : list V := map snd m.
Definition size (m : t) : nat := List.length m.
End Ops.

End JsMap.

(** [Set<string>] in insertion order. *)
Module JsSet.

Definition t := list string.

Definition has (k : string) (s : t) : bool := existsb (String.eqb k) s.

Definition add (k : string) (s : t) : t := if has k s then s else s ++ [k].

Fixpoint delete (k : string) (s : t) : t :=
  match s with
  | [] => []
  | k' :: s' => if String.eqb k k' then s' else k' :: delete k s'
  end.

Definition size (s : t) : nat := List.length s.

End JsSet.

(** ** Components *)

Module TransformComponent.

Definition TYPE : string := "Transform".

Record t := mk {
  x : float;
  y : float;
  rotation : float;
  scaleX : float;
  scaleY : float
}.

Definition setPosition (nx ny : float) (tr : t) : t :=
  mk nx ny (rotation tr) (scaleX tr) (scaleY tr).

Definition setRotation (r : float) (tr : t) : t :=
  mk (x tr) (y tr) r (scaleX tr) (scaleY tr).

Definition setScale (sx sy : float) (tr : t) : t :=
  mk (x tr) (y tr) (rotation tr) sx sy.

End TransformComponent.

Inductive ColliderType := CIRCLE | RECTANGLE.

Definition ColliderType_eqb (a b : ColliderType) : bool :=
  match a, b with
  | CIRCLE, CIRCLE | RECTANGLE, RECTANGLE => true
  | _, _ => false
  end.

Record Bounds := mkBounds {
  bx : float;
  by_ : float;
  bwidth : float;
  bheight : float
}.

Module ColliderComponent.

Definition TYPE : string := "Collider".

Record t := mk {
  type : ColliderType;
  width : float;
  height : float;
  radius : float;
  offsetX : float;
  offsetY : float;
  isTrigger : bool;
  collisionLayer : Z;
  collisionMask : Z
}.

(** The constructor's defaults. *)
Definition default : t := mk RECTANGLE 32 32 16 0 0 false 1 4294967295.

Definition getColliderType (c : t) : ColliderType := type c.
Definition getRadius (c : t) : float := radius c.
Definition getOffsetX (c : t) : float := offsetX c.
Definition getOffsetY (c : t) : float := offsetY c.
Definition getCollisionLayer (c : t) : Z := collisionLayer c.
Definition getCollisionMask (c : t) : Z := collisionMask c.

Definition canCollideWith (c : t) (layer : Z) : bool :=
  negb (Js.bitand (collisionMask c) layer =? 0).

Definition getBounds (c : t) (transform : TransformComponent.t) : Bounds :=
  let x := (TransformComponent.x transform + offsetX c)%float in
  let y := (TransformComponent.y transform + offsetY c)%float in
  match type c with
  | CIRCLE => mkBounds (x - radius c) (y - radius c) (radius c * 2) (radius c * 2)
  | RECTANGLE => mkBounds x y (width c) (height c)
  end.

End ColliderComponent.

(** The other concrete component classes of the repository; their data
    plays no part in the ECS core. *)
Inductive OtherKind := Velocity | Render | Health | Input | Weapon | Timer.

Definition OtherKind_TYPE (k : OtherKind) : string :=
  match k with
  | Velocity => "Velocity"
  | Render => "Render"
  | Health => "Health"
  | Input => "Input"
  | Weapon => "Weapon"
  | Timer => "Timer"
  end.

Module Component.

(** The concrete class of a component and its own fields. *)
Inductive Payload :=
| PTransform (tr : TransformComponent.t)
| PCollider (c : ColliderComponent.t)
| POther (k : OtherKind).

(** A component object: the base class's [owner] field (the owning
    entity, by id; [None] is [null]) and the subclass part. *)
Record t := mk {
  owner : option string;
  payload : Payload
}.

Definition getType (c : t) : string :=
  match payload c with
  | PTransform _ => TransformComponent.TYPE
  | PCollider _ => ColliderComponent.TYPE
  | POther k => OtherKind_TYPE k
  end.

Definition setOwner (entity : option string) (c : t) : t :=
  mk entity (payload c).

Definition getOwner (c : t) : option string := owner c.

(** [init()] and [destroy()] of the base class: empty bodies. *)
Definition init (c : t) : t := c.
Definition destroy (c : t) : t := c.

End Component.

(** ** The component heap *)

Definition Ref := nat.

Module Heap.

Definition t := list Component.t.

Definition get (h : t) (r : Ref) : option Component.t := nth_error h r.

Fixpoint set (h : t) (r : Ref) (c : Component.t) : t :=
  match h, r with
  | [], _ => []
  | _ :: h', O => c :: h'
  | c' :: h', S r' => c' :: set h' r' c
  end.

(** [new C(...)]: the fresh object and its reference. *)
Definition alloc (h : t) (p : Component.Payload) : t * Ref :=
  (h ++ [Component.mk None p], List.length h).

End Heap.

(** Method calls received by component objects, in order. *)
Inductive ComponentCall :=
| CallGetType (r : Ref)
| CallSetOwner (r : Ref) (entity : option string)
| CallInit (r : Ref)
| CallDestroy (r : Ref).

(** ** Entity *)

Module Entity.

Record t := mk {
  id : string;
  components : JsMap.t Ref;
  tags : JsSet.t;
  active : bool
}.

(** [new Entity()], with the uuid the constructor drew. *)
Definition new (uuid : string) : t := mk uuid [] [] true.

Definition getId (e : t) : string := id e.

(** [addComponent(component)]: returns the heap, the entity and the calls
    made on component objects.  A reference to no object cannot be built
    in the source; nothing happens on one. *)
Definition addComponent (h : Heap.t) (e : t) (component : Ref)
  : Heap.t * t * list ComponentCall :=
  match Heap.get h component with
  | Some c =>
      let e' := mk (id e) (JsMap.set (Component.getType c) component (components e))
                   (tags e) (active e) in
      let h' := Heap.set h component (Component.setOwner (Some (id e)) c) in
      (h', e', [CallGetType component; CallSetOwner component (Some (id e))])
  | None => (h, e, [])
  end.

Definition removeComponent (h : Heap.t) (e : t) (componentType : string)
  : Heap.t * t * list ComponentCall :=
  if JsMap.has componentType (components e) then
    let '(h', calls) :=
      match JsMap.get componentType (components e) with
      | Some component =>
          match Heap.get h component with
          | Some c => (Heap.set h component (Component.setOwner None c),
                       [CallSetOwner component None])
          | None => (h, [])
          end
      | None => (h, [])
      end in
    (h', mk (id e) (JsMap.delete componentType (components e)) (tags e) (active e),
     calls)
  else (h, e, []).

Definition getComponent (e : t) (componentType : string) : option Ref :=
  JsMap.get componentType (components e).

Definition hasComponent (e : t) (componentType : string) : bool :=
  JsMap.has componentType (components e).

Definition getComponents (e : t) : list Ref := JsMap.values (components e).

Definition addTag (tag : string) (e : t) : t :=
  mk (id e) (components e) (JsSet.add tag (tags e)) (active e).

Definition removeTag (tag : string) (e : t) : t :=
  mk (id e) (components e) (JsSet.delete tag (tags e)) (active e).

Definition hasTag (e : t) (tag : string) : bool := JsSet.has tag (tags e).

Definition setActive (a : bool) (e : t) : t :=
  mk (id e) (components e) (tags e) a.

Definition isActive (e : t) : bool := active e.

(** [entity.getComponent(TransformComponent.TYPE) as TransformComponent] *)
Definition getTransform (h : Heap.t) (e : t) : option TransformComponent.t :=
  match getComponent e TransformComponent.TYPE with
  | Some r =>
      match Heap.get h r with
      | Some (Component.mk _ (Component.PTransform tr)) => Some tr
      | _ => None
      end
  | None => None
  end.

(** [entity.getComponent(ColliderComponent.TYPE) as ColliderComponent] *)
Definition getCollider (h : Heap.t) (e : t) : option ColliderComponent.t :=
  match getComponent e ColliderComponent.TYPE with
  | Some r =>
      match Heap.get h r with
      | Some (Component.mk _ (Component.PCollider c)) => Some c
      | _ => None
      end
  | None => None
  end.

End Entity.

(** ** System and World *)

(** An entity or collision listener: the identity of the callback. *)
Definition Listener := nat.

(** What a system's [update] may ask of its world: the two buffered
    population requests. *)
Inductive WorldCall :=
| CallAddEntity (entity : Entity.t)
| CallRemoveEntity (entityId : string).

Module System.

(** A system object.  [kind] is its concrete class and [supers] the
    classes that class extends, nearest first (its prototype chain, which is
    what [instanceof] walks); [world] tells whether the back-reference is
    set, [cur] is the state of the subclass and [step] its [update]: from
    the elapsed time, the registry it can read through [this.world] (when
    set) and the component heap, it yields the heap it leaves, the requests
    it made of the world, and its next state. *)
Record t := mk {
  kind : string;
  supers : list string;
  priority : Z;
  active : bool;
  world : bool;
  state : Type;
  cur : state;
  step : Z -> option (JsMap.t Entity.t) -> Heap.t -> state ->
         Heap.t * list WorldCall * state
}.

Definition setWorld (w : bool) (s : t) : t :=
  mk (kind s) (supers s) (priority s) (active s) w (cur s) (step s).

Definition setActive (a : bool) (s : t) : t :=
  mk (kind s) (supers s) (priority s) a (world s) (cur s) (step s).

(** [s instanceof systemType]: the class of [s] is [systemType] or extends
    it. *)
Definition instanceOf (s : t) (systemType : string) : bool :=
  String.eqb (kind s) systemType || existsb (String.eqb systemType) (supers s).

Definition isActive (s : t) : bool := active s.

Definition getPriority (s : t) : Z := priority s.

Definition withState (s : t) (st : state s) : t :=
  mk (kind s) (supers s) (priority s) (active s) (world s) st (step s).

End System.

(** What a world operation does to its collaborators, in order. *)
Inductive Effect :=
| EntityNotified (listener : Listener) (entity : Entity.t) (added : bool)
| SystemInit (kind : string) (priority : Z)
| SystemDestroy (kind : string) (priority : Z)
| SystemUpdate (kind : string) (priority : Z) (deltaTime : Z)
               (observed : option (JsMap.t Entity.t)).

Module World.

Record t := mk {
  entities : JsMap.t Entity.t;
  systems : list System.t;
  entitiesToAdd : list Entity.t;
  entitiesToRemove : JsSet.t;
  entityListeners : list Listener
}.

Definition new : t := mk [] [] [] [] [].

Definition addEntity (entity : Entity.t) (w : t) : t :=
  mk (entities w) (systems w) (entitiesToAdd w ++ [entity])
     (entitiesToRemove w) (entityListeners w).

Definition removeEntity (entityId : string) (w : t) : t :=
  mk (entities w) (systems w) (entitiesToAdd w)
     (JsSet.add entityId (entitiesToRemove w)) (entityListeners w).

Definition getEntity (w : t) (entityId : string) : option Entity.t :=
  JsMap.get entityId (entities w).

Definition getEntities (w : t) : list Entity.t := JsMap.values (entities w).

Definition getEntitiesByTag (w : t) (tag : string) : list Entity.t :=
  filter (fun entity => Entity.hasTag entity tag) (getEntities w).

Definition addSystem (system : System.t) (w : t) : t * list Effect :=
  let system := System.setWorld true system in
  let priority := System.getPriority system in
  let index :=
    match Js.findIndex (fun s => priority <? System.getPriority s) (systems w) with
    | Some i => i
    | None => List.length (systems w)
    end in
  (mk (entities w) (Js.splice_insert index system (systems w))
      (entitiesToAdd w) (entitiesToRemove w) (entityListeners w),
   [SystemInit (System.kind system) priority]).

Definition removeSystem (systemType : string) (w : t) : t * list Effect :=
  match Js.findIndex (fun s => System.instanceOf s systemType) (systems w) with
  | Some index =>
      match nth_error (systems w) index with
      | Some system =>
          (mk (entities w) (Js.splice_remove index (systems w))
              (entitiesToAdd w) (entitiesToRemove w) (entityListeners w),
           [SystemDestroy (System.kind system) (System.priority system)])
      | None => (w, [])
      end
  | None => (w, [])
  end.

Definition getSystem (w : t) (systemType : string) : option System.t :=
  find (fun s => System.instanceOf s systemType) (systems w).

Definition addEntityListener (listener : Listener) (w : t) : t :=
  mk (entities w) (systems w) (entitiesToAdd w) (entitiesToRemove w)
     (entityListeners w ++ [listener]).

Definition removeEntityListener (listener : Listener) (w : t) : t :=
  match Js.findIndex (Nat.eqb listener) (entityListeners w) with
  | Some index =>
      mk (entities w) (systems w) (entitiesToAdd w) (entitiesToRemove w)
         (Js.splice_remove index (entityListeners w))
  | None => w
  end.

(** One call per listener, in registration order. *)
Definition notify (listeners : list Listener) (entity : Entity.t) (added : bool)
  : list Effect :=
  map (fun listener => EntityNotified listener entity added) listeners.

(** The loop over [entitiesToAdd]. *)
Fixpoint flushAdditions (listeners : list Listener) (toAdd : list Entity.t)
         (ents : JsMap.t Entity.t) : JsMap.t Entity.t * list Effect :=
  match toAdd with
  | [] => (ents, [])
  | entity :: rest =>
      let entityId := Entity.getId entity in
      let ents1 := JsMap.set entityId entity ents in
      let '(ents2, effs) := flushAdditions listeners rest ents1 in
      (ents2, notify listeners entity true ++ effs)
  end.

(** The loop over [entitiesToRemove]. *)
Fixpoint flushRemovals (listeners : list Listener) (toRemove : JsSet.t)
         (ents : JsMap.t Entity.t) : JsMap.t Entity.t * list Effect :=
  match toRemove with
  | [] => (ents, [])
  | entityId :: rest =>
      match JsMap.get entityId ents with
      | Some entity =>
          let ents1 := JsMap.delete entityId ents in
          let '(ents2, effs) := flushRemovals listeners rest ents1 in
          (ents2, notify listeners entity false ++ effs)
      | None => flushRemovals listeners rest ents
      end
  end.

(** A request made by a running system reaches the world at once. *)
Definition applyCall (w : t) (c : WorldCall) : t :=
  match c with
  | CallAddEntity entity => addEntity entity w
  | CallRemoveEntity entityId => removeEntity entityId w
  end.

(** The loop over [systems].  The world [w] is the one the running
    system reads and calls; the list returned holds the systems with the
    state their [update] left. *)
Fixpoint runSystems (deltaTime : Z) (ss : list System.t) (h : Heap.t) (w : t)
  : list System.t * Heap.t * t * list Effect :=
  match ss with
  | [] => ([], h, w, [])
  | system :: rest =>
      if System.isActive system then
        let observed := if System.world system then Some (entities w) else None in
        let '(h1, calls, st) := System.step system deltaTime observed h
                                            (System.cur system) in
        let w1 := fold_left applyCall calls w in
        let '(rest', h2, w2, effs) := runSystems deltaTime rest h1 w1 in
        (System.withState system st :: rest', h2, w2,
         SystemUpdate (System.kind system) (System.priority system)
                      deltaTime observed :: effs)
      else
        let '(rest', h2, w2, effs) := runSystems deltaTime rest h w in
        (system :: rest', h2, w2, effs)
  end.

Definition update (deltaTime : Z) (h : Heap.t) (w : t) : t * Heap.t * list Effect :=
  let '(ents1, toAdd1, effs1) :=
    if (0 <? List.length (entitiesToAdd w))%nat then
      let '(ents, effs) := flushAdditions (entityListeners w) (entitiesToAdd w)
                                          (entities w) in
      (ents, [], effs)
    else (entities w, entitiesToAdd w, []) in
  let '(ents2, toRemove2, effs2) :=
    if (0 <? JsSet.size (entitiesToRemove w))%nat then
      let '(ents, effs) := flushRemovals (entityListeners w) (entitiesToRemove w)
                                         ents1 in
      (ents, [], effs)
    else (ents1, entitiesToRemove w, []) in
  let w2 := mk ents2 (systems w) toAdd1 toRemove2 (entityListeners w) in
  let '(ss, h3, w3, effs3) := runSystems deltaTime (systems w) h w2 in
  (mk (entities w3) ss (entitiesToAdd w3) (entitiesToRemove w3) (entityListeners w3),
   h3, effs1 ++ effs2 ++ effs3).

Definition clear (w : t) : t * list Effect :=
  (mk [] [] [] [] (entityListeners w),
   map (fun s => SystemDestroy (System.kind s) (System.priority s)) (systems w)).

End World.

(** ** CollisionSystem *)

Inductive CollisionEventType := ENTER | STAY | EXIT.

Record CollisionEvent := mkEvent {
  ev_type : CollisionEventType;
  entityA : Entity.t;
  entityB : Entity.t
}.

(** A call of one collision listener with one event. *)
Definition Delivery := (Listener * CollisionEvent)%type.

Module CollisionSystem.

(** [super(20)] *)
Definition PRIORITY : Z := 20.

(** The fields of the subclass; the [world] back-reference of the base
    class is passed to [update] explicitly. *)
Record t := mk {
  collisionPairs : JsMap.t bool;
  collisionListeners : list Listener;
  useQuadTree : bool;
  maxObjectsPerNode : Z;
  maxLevels : Z
}.

Definition new (useQuadTree : bool) (maxObjectsPerNode maxLevels : Z) : t :=
  mk [] [] useQuadTree maxObjectsPerNode maxLevels.

(** [new CollisionSystem()] *)
Definition default : t := new true 10 5.

Definition filter (entity : Entity.t) : bool :=
  Entity.hasComponent entity TransformComponent.TYPE &&
  Entity.hasComponent entity ColliderComponent.TYPE.

Definition addCollisionListener (listener : Listener) (cs : t) : t :=
  mk (collisionPairs cs) (collisionListeners cs ++ [listener])
     (useQuadTree cs) (maxObjectsPerNode cs) (maxLevels cs).

Definition removeCollisionListener (listener : Listener) (cs : t) : t :=
  match Js.findIndex (Nat.eqb listener) (collisionListeners cs) with
  | Some index =>
      mk (collisionPairs cs) (Js.splice_remove index (collisionListeners cs))
         (useQuadTree cs) (maxObjectsPerNode cs) (maxLevels cs)
  | None => cs
  end.

Definition checkCircleCircleCollision
           (transformA : TransformComponent.t) (colliderA : ColliderComponent.t)
           (transformB : TransformComponent.t) (colliderB : ColliderComponent.t)
  : bool :=
  let x1 := (TransformComponent.x transformA
             + ColliderComponent.getOffsetX colliderA)%float in
  let y1 := (TransformComponent.y transformA
             + ColliderComponent.getOffsetY colliderA)%float in
  let r1 := ColliderComponent.getRadius colliderA in
  let x2 := (TransformComponent.x transformB
             + ColliderComponent.getOffsetX colliderB)%float in
  let y2 := (TransformComponent.y transformB
             + ColliderComponent.getOffsetY colliderB)%float in
  let r2 := ColliderComponent.getRadius colliderB in
  let dx := (x2 - x1)%float in
  let dy := (y2 - y1)%float in
  let distance := Js.sqrt (dx * dx + dy * dy) in
  Js.lt distance (r1 + r2).

Definition checkRectRectCollision
           (transformA : TransformComponent.t) (colliderA : ColliderComponent.t)
           (transformB : TransformComponent.t) (colliderB : ColliderComponent.t)
  : bool :=
  let boundsA := ColliderComponent.getBounds colliderA transformA in
  let boundsB := ColliderComponent.getBounds colliderB transformB in
  Js.lt (bx boundsA) (bx boundsB + bwidth boundsB) &&
  Js.gt (bx boundsA + bwidth boundsA) (bx boundsB) &&
  Js.lt (by_ boundsA) (by_ boundsB + bheight boundsB) &&
  Js.gt (by_ boundsA + bheight boundsA) (by_ boundsB).

Definition checkCircleRectCollision
           (circleTransform : TransformComponent.t) (circleCollider : ColliderComponent.t)
           (rectTransform : TransformComponent.t) (rectCollider : ColliderComponent.t)
  : bool :=
  let circleX := (TransformComponent.x circleTransform
                  + ColliderComponent.getOffsetX circleCollider)%float in
  let circleY := (TransformComponent.y circleTransform
                  + ColliderComponent.getOffsetY circleCollider)%float in
  let radius := ColliderComponent.getRadius circleCollider in
  let rectBounds := ColliderComponent.getBounds rectCollider rectTransform in
  let closestX := Js.max64 (bx rectBounds)
                           (Js.min64 circleX (bx rectBounds + bwidth rectBounds)) in
  let closestY := Js.max64 (by_ rectBounds)
                           (Js.min64 circleY (by_ rectBounds + bheight rectBounds)) in
  let dx := (closestX - circleX)%float in
  let dy := (closestY - circleY)%float in
  let distance := Js.sqrt (dx * dx + dy * dy) in
  Js.lt distance radius.

Definition checkCollision (h : Heap.t) (entityA entityB : Entity.t) : bool :=
  match Entity.getTransform h entityA, Entity.getCollider h entityA,
        Entity.getTransform h entityB, Entity.getCollider h entityB with
  | Some transformA, Some colliderA, Some transformB, Some colliderB =>
      let typeA := ColliderComponent.getColliderType colliderA in
      let typeB := ColliderComponent.getColliderType colliderB in
      if ColliderType_eqb typeA CIRCLE && ColliderType_eqb typeB CIRCLE then
        checkCircleCircleCollision transformA colliderA transformB colliderB
      else if ColliderType_eqb typeA RECTANGLE && ColliderType_eqb typeB RECTANGLE then
        checkRectRectCollision transformA colliderA transformB colliderB
      else if ColliderType_eqb typeA CIRCLE then
        checkCircleRectCollision transformA colliderA transformB colliderB
      else
        checkCircleRectCollision transformB colliderB transformA colliderA
  | _, _, _, _ => false
  end.

Definition getCollisionPairId (entityA entityB : Entity.t) : string :=
  let idA := Entity.getId entityA in
  let idB := Entity.getId entityB in
  if String.ltb idA idB then String.append idA (String.append ":" idB)
  else String.append idB (String.append ":" idA).

Definition getEntitiesFromPairId (world : option World.t) (pairId : string)
  : option Entity.t * option Entity.t :=
  match world with
  | None => (None, None)
  | Some w =>
      let parts := Js.split ":"%char pairId in
      let entityA := match nth_error parts 0 with
                     | Some idA => World.getEntity w idA
                     | None => None
                     end in
      let entityB := match nth_error parts 1 with
                     | Some idB => World.getEntity w idB
                     | None => None
                     end in
      (entityA, entityB)
  end.

Definition dispatchCollisionEvent (listeners : list Listener) (event : CollisionEvent)
  : list Delivery :=
  map (fun listener => (listener, event)) listeners.

(** The body shared by the three branches of [processCollisionEvents]:
    look both entities up and dispatch when both are found. *)
Definition dispatchFor (world : option World.t) (listeners : list Listener)
           (type : CollisionEventType) (pairId : string) : list Delivery :=
  match getEntitiesFromPairId world pairId with
  | (Some entityA, Some entityB) =>
      dispatchCollisionEvent listeners (mkEvent type entityA entityB)
  | _ => []
  end.

Definition processCollisionEvents (world : option World.t) (listeners : list Listener)
           (previous currentCollisionPairs : JsMap.t bool) : list Delivery :=
  flat_map (fun entry : string * bool =>
              let pairId := fst entry in
              if negb (JsMap.has pairId previous)
              then dispatchFor world listeners ENTER pairId
              else dispatchFor world listeners STAY pairId)
           currentCollisionPairs
  ++
  flat_map (fun entry : string * bool =>
              let pairId := fst entry in
              if negb (JsMap.has pairId currentCollisionPairs)
              then dispatchFor world listeners EXIT pairId
              else [])
           previous.

(** The inner loop of [bruteForceCollisionDetection], over the entities
    after [entityA].  [None] is the TypeError of calling a method on a
    missing collider. *)
Fixpoint bruteForceInner (h : Heap.t) (entityA : Entity.t)
         (colliderA : option ColliderComponent.t) (rest : list Entity.t)
         (currentCollisionPairs : JsMap.t bool) : option (JsMap.t bool) :=
  match rest with
  | [] => Some currentCollisionPairs
  | entityB :: rest' =>
      match colliderA, Entity.getCollider h entityB with
      | Some cA, Some cB =>
          let pairs :=
            if negb (ColliderComponent.canCollideWith cA
                       (ColliderComponent.getCollisionLayer cB))
               || negb (ColliderComponent.canCollideWith cB
                          (ColliderComponent.getCollisionLayer cA))
            then currentCollisionPairs
            else if checkCollision h entityA entityB
                 then JsMap.set (getCollisionPairId entityA entityB) true
                                currentCollisionPairs
                 else currentCollisionPairs in
          bruteForceInner h entityA colliderA rest' pairs
      | _, _ => None
      end
  end.

Fixpoint bruteForceCollisionDetection (h : Heap.t) (entities : list Entity.t)
         (currentCollisionPairs : JsMap.t bool) : option (JsMap.t bool) :=
  match entities with
  | [] => Some currentCollisionPairs
  | entityA :: rest =>
      match bruteForceInner h entityA (Entity.getCollider h entityA) rest
                            currentCollisionPairs with
      | Some pairs => bruteForceCollisionDetection h rest pairs
      | None => None
      end
  end.

(** [update(deltaTime)]: the system it leaves and the listener calls it
    made; [None] when the detection raised. *)
Definition update (deltaTime : Z) (h : Heap.t) (world : option World.t) (cs : t)
  : option (t * list Delivery) :=
  match world with
  | None => Some (cs, [])
  | Some w =>
      let entities := World.getEntities w in
      let collidableEntities :=
        List.filter (fun entity => filter entity && Entity.isActive entity) entities in
      let currentCollisionPairs : JsMap.t bool := [] in
      let detected :=
        if useQuadTree cs
           && (maxObjectsPerNode cs <? Z.of_nat (List.length collidableEntities))
        then bruteForceCollisionDetection h collidableEntities currentCollisionPairs
        else bruteForceCollisionDetection h collidableEntities currentCollisionPairs in
      match detected with
      | Some current =>
          Some (mk current (collisionListeners cs) (useQuadTree cs)
                   (maxObjectsPerNode cs) (maxLevels cs),
                processCollisionEvents world (collisionListeners cs)
                                       (collisionPairs cs) current)
      | None => None
      end
  end.

End CollisionSystem.

(** ** The scenarios of [tests/CollisionSystem.test.ts] *)

Module Scenario.

Definition uuidA : string := "1b9d6bcd-bbfd-4b2d-9b5d-ab8dfbbd4bed".
Definition uuidB : string := "9c858901-8a57-4791-81fe-4c455b099bc9".

(** [e = new Entity(); e.addComponent(new TransformComponent(x, y));
    e.addComponent(new ColliderComponent(...))] *)
Definition makeEntity (h : Heap.t) (uuid : string) (x y : float)
           (collider : ColliderComponent.t) : Heap.t * Entity.t :=
  let e0 := Entity.new uuid in
  let '(h1, rT) := Heap.alloc h (Component.PTransform (TransformComponent.mk x y 0 1 1)) in
  let '(h2, e1, _) := Entity.addComponent h1 e0 rT in
  let '(h3, rC) := Heap.alloc h2 (Component.PCollider collider) in
  let '(h4, e2, _) := Entity.addComponent h3 e1 rC in
  (h4, e2).

(** [new ColliderComponent(ColliderType.RECTANGLE, w, h)] *)
Definition rect (w hgt : float) : ColliderComponent.t :=
  ColliderComponent.mk RECTANGLE w hgt 16 0 0 false 1 4294967295.

(** [new ColliderComponent(ColliderType.CIRCLE, 0, 0, r)] *)
Definition circle (r : float) : ColliderComponent.t :=
  ColliderComponent.mk CIRCLE 0 0 r 0 0 false 1 4294967295.

(** [new ColliderComponent(ColliderType.RECTANGLE, w, h, 0, 0, 0, false,
    layer, mask)] *)
Definition rectOn (w hgt : float) (layer mask : Z) : ColliderComponent.t :=
  ColliderComponent.mk RECTANGLE w hgt 0 0 0 false layer mask.

(** Two entities handed to a fresh world, and a collision system with
    one listener. *)
Definition setup (xA yA : float) (cA : ColliderComponent.t)
           (xB yB : float) (cB : ColliderComponent.t)
  : Heap.t * World.t * CollisionSystem.t :=
  let '(h1, eA) := makeEntity [] uuidA xA yA cA in
  let '(h2, eB) := makeEntity h1 uuidB xB yB cB in
  let w := World.addEntity eB (World.addEntity eA World.new) in
  (h2, w, CollisionSystem.addCollisionListener 0%nat CollisionSystem.default).

(** [transform.x = x; transform.y = y] on the transform of an entity. *)
Definition moveTo (h : Heap.t) (e : Entity.t) (x y : float) : Heap.t :=
  match Entity.getComponent e TransformComponent.TYPE with
  | Some r =>
      match Heap.get h r with
      | Some (Component.mk o (Component.PTransform tr)) =>
          Heap.set h r (Component.mk o (Component.PTransform
                                          (TransformComponent.setPosition x y tr)))
      | _ => h
      end
  | None => h
  end.

(** [world.update(dt)] for a world whose only system is the collision
    system: the flush, then the system's [update].  The result carries
    the types of the events the listener received during the tick. *)
Definition tick (deltaTime : Z) (st : Heap.t * World.t * CollisionSystem.t)
  : option (Heap.t * World.t * CollisionSystem.t * list CollisionEventType) :=
  let '(h, w, cs) := st in
  let '(w1, h1, _) := World.update deltaTime h w in
  match CollisionSystem.update deltaTime h1 (Some w1) cs with
  | Some (cs1, deliveries) =>
      Some (h1, w1, cs1, map (fun d : Delivery => ev_type (snd d)) deliveries)
  | None => None
  end.

(** The entity registered under [uuidB]. *)
Definition moveB (x y : float) (st : Heap.t * World.t * CollisionSystem.t)
  : Heap.t * World.t * CollisionSystem.t :=
  let '(h, w, cs) := st in
  match World.getEntity w uuidB with
  | Some e => (moveTo h e x y, w, cs)
  | None => st
  end.

(** The two 50 by 50 rectangles at (100,100) and (120,120), after the
    first flush. *)
Definition overlapping : Heap.t * World.t * CollisionSystem.t :=
  setup 100 100 (rect 50 50) 120 120 (rect 50 50).

Definition heapOf (st : Heap.t * World.t * CollisionSystem.t) : Heap.t :=
  fst (fst st).

Definition flushedWorld (st : Heap.t * World.t * CollisionSystem.t) : World.t :=
  fst (fst (World.update 16 (heapOf st) (snd (fst st)))).

(** Every transform of the heap turned and rescaled:
    [transform.setRotation(r); transform.setScale(sx, sy)]. *)
Definition turnAll (r sx sy : float) (h : Heap.t) : Heap.t :=
  map (fun c =>
         match Component.payload c with
         | Component.PTransform tr =>
             Component.mk (Component.owner c)
               (Component.PTransform
                  (TransformComponent.setScale sx sy
                     (TransformComponent.setRotation r tr)))
         | _ => c
         end) h.

(** A system of a class [kind] that extends [System] and, at every update,
    asks its world for a new entity and for the removal of the entity
    [uuidA]; its state counts its updates. *)
Definition spawner (kind : string) (priority : Z) : System.t :=
  System.mk kind ["System"] priority true false 0%nat
    (fun _ _ h n => (h, [CallAddEntity (Entity.new kind); CallRemoveEntity uuidA], S n)).

(** A system of a class [kind] that extends the class [super], itself an
    extension of [System]; its [update] does nothing. *)
Definition heir (kind super : string) (priority : Z) : System.t :=
  System.mk kind [super; "System"] priority true false tt
    (fun _ _ h st => (h, [], st)).

(** The overlapping pair in a world with two listeners, a pending removal
    of the first entity and of an unknown id, and two spawners. *)
Definition busyWorld : World.t :=
  let w0 := snd (fst overlapping) in
  let w1 := World.addEntityListener 8%nat (World.addEntityListener 7%nat w0) in
  let w2 := fst (World.addSystem (spawner "Late" 30) w1) in
  let w3 := fst (World.addSystem (spawner "Early" 10) w2) in
  World.removeEntity "no-such-id" (World.removeEntity uuidA w3).

(** [t1 = new TransformComponent(1, 2); t2 = new TransformComponent(3, 4);
    e = new Entity(); e.addComponent(t1)]: the heap, the entity and the two
    references, before [e.addComponent(t2)]. *)
Definition twoTransforms : Heap.t * Entity.t * Ref * Ref :=
  let '(h1, t1) := Heap.alloc [] (Component.PTransform (TransformComponent.mk 1 2 0 1 1)) in
  let '(h2, t2) := Heap.alloc h1 (Component.PTransform (TransformComponent.mk 3 4 0 1 1)) in
  let '(h3, e, _) := Entity.addComponent h2 (Entity.new uuidA) t1 in
  (h3, e, t1, t2).

(** Four ticks of the two rectangles: apart, [B] moved onto [A], left
    there, moved away again.  The event types the listener received in each
    tick. *)
Definition fourTicks : option (list (list CollisionEventType)) :=
  match tick 16 (setup 100 100 (rect 50 50) 200 200 (rect 50 50)) with
  | Some (st1, evs1) =>
      match tick 16 (moveB 120 120 st1) with
      | Some (st2, evs2) =>
          match tick 16 st2 with
          | Some (st3, evs3) =>
              match tick 16 (moveB 200 200 st3) with
              | Some (_, evs4) => Some [evs1; evs2; evs3; evs4]
              | None => None
              end
          | None => None
          end
      | None => None
      end
  | None => None
  end.

(** The overlapping pair, still waiting to be added, in a world with one
    listener where the removal of the second entity is already requested. *)
Definition doomedWorld : World.t :=
  World.removeEntity uuidB (World.addEntityListener 7%nat (snd (fst overlapping))).

(** The two entities of [overlapping]. *)
Definition entityA : Entity.t :=
  nth 0 (World.entitiesToAdd (snd (fst overlapping))) (Entity.new "").

Definition entityB : Entity.t :=
  nth 1 (World.entitiesToAdd (snd (fst overlapping))) (Entity.new "").

End Scenario.

(** ** TimerComponent *)

Module TimerComponent.

Definition TYPE : string := "Timer".

(** A timer callback: the identity of the function. *)
Definition Callback := nat.

Record t := mk {
  timers : JsMap.t Z;
  callbacks : JsMap.t Callback;
  repeating : JsMap.t bool;
  durations : JsMap.t Z
}.

Definition new : t := mk [] [] [] [].

Definition addTimer (id : string) (duration : Z) (callback : Callback) (repeat : bool)
           (c : t) : t :=
  mk (JsMap.set id duration (timers c)) (JsMap.set id callback (callbacks c))
     (JsMap.set id repeat (repeating c)) (JsMap.set id duration (durations c)).

Definition removeTimer (id : string) (c : t) : t :=
  mk (JsMap.delete id (timers c)) (JsMap.delete id (callbacks c))
     (JsMap.delete id (repeating c)) (JsMap.delete id (durations c)).

Definition setTime (id : string) (time : Z) (c : t) : t :=
  mk (JsMap.set id time (timers c)) (callbacks c) (repeating c) (durations c).

Definition resetTimer (id : string) (c : t) : t :=
  match JsMap.get id (durations c) with
  | Some duration => setTime id duration c
  | None => c
  end.

Definition pauseTimer (id : string) (c : t) : t :=
  match JsMap.get id (timers c) with
  | Some currentTime => if 0 <? currentTime then setTime id (- currentTime) c else c
  | None => c
  end.

Definition resumeTimer (id : string) (c : t) : t :=
  match JsMap.get id (timers c) with
  | Some currentTime => if currentTime <? 0 then setTime id (- currentTime) c else c
  | None => c
  end.

Definition hasTimer (c : t) (id : string) : bool := JsMap.has id (timers c).

Definition getTimeRemaining (c : t) (id : string) : Z :=
  match JsMap.get id (timers c) with
  | Some time => Z.abs time
  | None => 0
  end.

(** The body of the loop of [update] for the entry [(id, time)]: the
    component it leaves and the callbacks it called. *)
Definition updateEntry (deltaTime : Z) (id : string) (time : Z) (c : t)
  : t * list Callback :=
  if time <=? 0 then (c, [])
  else
    let newTime := time - deltaTime in
    if newTime <=? 0 then
      let called := match JsMap.get id (callbacks c) with
                    | Some callback => [callback]
                    | None => []
                    end in
      let c' := match JsMap.get id (repeating c) with
                | Some true =>
                    setTime id (match JsMap.get id (durations c) with
                                | Some duration => duration
                                | None => 0
                                end) c
                | _ => removeTimer id c
                end in
      (c', called)
    else (setTime id newTime c, []).

(** The loop of [update] over the entries of [timers].  Each step changes
    the entry it visits only, so the entries still to visit are those read at
    the start. *)
Fixpoint updateLoop (deltaTime : Z) (entries : list (string * Z)) (c : t)
  : t * list Callback :=
  match entries with
  | [] => (c, [])
  | (id, time) :: rest =>
      let '(c1, called) := updateEntry deltaTime id time c in
      let '(c2, calls) := updateLoop deltaTime rest c1 in
      (c2, called ++ calls)
  end.

Definition update (deltaTime : Z) (c : t) : t * list Callback :=
  updateLoop deltaTime (timers c) c.

Definition clone (c : t) : t :=
  mk (fold_left (fun m e => JsMap.set (fst e) (snd e) m) (timers c) [])
     (fold_left (fun m e => JsMap.set (fst e) (snd e) m) (callbacks c) [])
     (fold_left (fun m e => JsMap.set (fst e) (snd e) m) (repeating c) [])
     (fold_left (fun m e => JsMap.set (fst e) (snd e) m) (durations c) []).

End TimerComponent.

(** ** HealthComponent *)

Module HealthComponent.

Definition TYPE : string := "Health".

Record t := mk {
  maxHealth : float;
  currentHealth : float;
  invincible : bool;
  invincibilityTime : float;
  currentInvincibilityTime : float
}.

Definition new (maxHealth invincibilityTime : float) : t :=
  mk maxHealth maxHealth false invincibilityTime 0.

Definition setCurrentHealth (health : float) (c : t) : t :=
  mk (maxHealth c) (Js.max64 0 (Js.min64 health (maxHealth c))) (invincible c)
     (invincibilityTime c) (currentInvincibilityTime c).

(** [damage(amount)]: the component and the value returned. *)
Definition damage (amount : float) (c : t) : t * float :=
  if invincible c then (c, 0%float)
  else
    let oldHealth := currentHealth c in
    let newHealth := Js.max64 0 (currentHealth c - amount) in
    let c' :=
      if Js.gt (invincibilityTime c) 0 && Js.gt oldHealth newHealth
      then mk (maxHealth c) newHealth true (invincibilityTime c) (invincibilityTime c)
      else mk (maxHealth c) newHealth (invincible c) (invincibilityTime c)
              (currentInvincibilityTime c) in
    (c', (oldHealth - newHealth)%float).

Definition setInvincible (i : bool) (c : t) : t :=
  mk (maxHealth c) (currentHealth c) i (invincibilityTime c)
     (if negb i then 0%float else currentInvincibilityTime c).

Definition isInvincible (c : t) : bool := invincible c.

Definition updateInvincibility (deltaTime : float) (c : t) : t :=
  if invincible c && Js.gt (currentInvincibilityTime c) 0 then
    let remaining := (currentInvincibilityTime c - deltaTime)%float in
    mk (maxHealth c) (currentHealth c)
       (if Js.le remaining 0 then false else invincible c)
       (invincibilityTime c) remaining
  else c.

Definition clone (c : t) : t :=
  setInvincible (invincible c)
    (setCurrentHealth (currentHealth c) (new (maxHealth c) (invincibilityTime c))).

End HealthComponent.

(** ** ObjectPool *)

(** What a pool does to its collaborators: the three constructor
    callbacks. *)
Inductive PoolCall (T : Type) :=
| PoolFactory
| PoolReset (obj : T)
| PoolActivate (obj : T).

Arguments PoolFactory {T}.
Arguments PoolReset {T} obj.
Arguments PoolActivate {T} obj.

Module ObjectPool.

Section Pool.
Variable T : Type.

(** The object the factory returns at its n-th call. *)
Variable factory : nat -> T.

(** [created] counts the calls of the factory so far. *)
Record t := mk {
  pool : list T;
  maxSize : Z;
  created : nat
}.

Definition new (maxSize : Z) : t := mk [] maxSize 0.

(** [arr.pop()]: the last element and the array without it. *)
Fixpoint pop (l : list T) : option (T * list T) :=
  match l with
  | [] => None
  | x :: l' =>
      match pop l' with
      | Some (y, r) => Some (y, x :: r)
      | None => Some (x, [])
      end
  end.

Definition get (p : t) : t * T * list (PoolCall T) :=
  if (0 <? List.length (pool p))%nat then
    match pop (pool p) with
    | Some (obj, rest) => (mk rest (maxSize p) (created p), obj, [PoolActivate obj])
    | None =>
        let obj := factory (created p) in
        (mk (pool p) (maxSize p) (S (created p)), obj, [PoolFactory; PoolActivate obj])
    end
  else
    let obj := factory (created p) in
    (mk (pool p) (maxSize p) (S (created p)), obj, [PoolFactory; PoolActivate obj]).

Definition release (obj : T) (p : t) : t * list (PoolCall T) :=
  if maxSize p <=? Z.of_nat (List.length (pool p)) then (p, [])
  else (mk (pool p ++ [obj]) (maxSize p) (created p), [PoolReset obj]).

Definition clear (p : t) : t := mk [] (maxSize p) (created p).

(** The loop of [preFill], [n] rounds. *)
Fixpoint preFillLoop (n : nat) (p : t) : t * list (PoolCall T) :=
  match n with
  | O => (p, [])
  | S n' =>
      let obj := factory (created p) in
      let '(p', calls) := preFillLoop n' (mk (pool p ++ [obj]) (maxSize p)
                                             (S (created p))) in
      (p', PoolFactory :: PoolReset obj :: calls)
  end.

Definition preFill (count : Z) (p : t) : t * list (PoolCall T) :=
  let fillCount := Js.min count (maxSize p - Z.of_nat (List.length (pool p))) in
  preFillLoop (Z.to_nat fillCount) p.

Definition size (p : t) : Z := Z.of_nat (List.length (pool p)).

Definition getMaxSize (p : t) : Z := maxSize p.

(** The [while] loop of [setMaxSize], run for at most [fuel] rounds:
    [None] when it is still running after them. *)
Fixpoint trimLoop (fuel : nat) (l : list T) (maxSize : Z) : option (list T) :=
  if maxSize <? Z.of_nat (List.length l) then
    match fuel with
    | O => None
    | S fuel' =>
        trimLoop fuel' (match pop l with Some (_, r) => r | None => l end) maxSize
    end
  else Some l.

Definition setMaxSize (fuel : nat) (m : Z) (p : t) : option t :=
  match trimLoop fuel (pool p) m with
  | Some l => Some (mk l m (created p))
  | None => None
  end.

End Pool.

End ObjectPool.

Unset Implicit Arguments.

(** ** Notions used in the statements *)

(** The exact value of a double that is a number: minus or plus infinity,
    or a whole number of units of 2^-1074, the smallest positive double
    (every finite double is a whole number of them). *)
Inductive Exact := MinusInfinity | Units (n : Z) | PlusInfinity.

Definition SFexact (f : spec_float) : option Exact :=
  match f with
  | S754_nan => None
  | S754_zero _ => Some (Units 0)
  | S754_infinity s => Some (if s then MinusInfinity else PlusInfinity)
  | S754_finite s m e => Some (Units (cond_Zopp s (Zpos m * 2 ^ (e + 1074))))
  end.

(** [None] for NaN. *)
Definition exact (f : float) : option Exact := SFexact (Prim2SF f).

Definition Exact_compare (a b : Exact) : comparison :=
  match a, b with
  | MinusInfinity, MinusInfinity => Eq
  | MinusInfinity, _ => Lt
  | Units _, MinusInfinity => Gt
  | Units n, Units m => Z.compare n m
  | Units _, PlusInfinity => Lt
  | PlusInfinity, PlusInfinity => Eq
  | PlusInfinity, _ => Gt
  end.

(** Two doubles that are opposite, or both zero: they have the same
    square. *)
Definition square_same (x y : spec_float) : Prop :=
  y = SFopp x \/ (exists s s', x = S754_zero s /\ y = S754_zero s').

(** Both doubles are numbers, and the exact value of [a] is strictly below
    the exact value of [b]. *)
Definition strictly_below (a b : float) : Prop :=
  exists u v, exact a = Some u /\ exact b = Some v /\ Exact_compare u v = Lt.

(** The Euclidean distance formula as the code evaluates it: every
    operation rounded to the nearest double. *)
Definition distance64 (x1 y1 x2 y2 : float) : float :=
  Js.sqrt ((x2 - x1) * (x2 - x1) + (y2 - y1) * (y2 - y1)).

(** [v] clamped onto the interval from [lo] to [hi], on doubles. *)
Definition clamp64 (lo hi v : float) : float := Js.max64 lo (Js.min64 v hi).

(** The exact value of a finite double, in units of 2^-1074. *)
Definition units (f : float) : option Z :=
  match exact f with
  | Some (Units n) => Some n
  | _ => None
  end.

(** The circle test as the specification words it, on exact values: the
    Euclidean distance between the offset centers is strictly less than the
    sum of the radii.  With all lengths in the same unit, that is the
    comparison of the squares when the sum is positive.  [None] when a
    coordinate, an offset or a radius is not finite. *)
Definition circles_overlap_exactly
           (tA : TransformComponent.t) (cA : ColliderComponent.t)
           (tB : TransformComponent.t) (cB : ColliderComponent.t) : option bool :=
  match units (TransformComponent.x tA), units (TransformComponent.y tA),
        units (ColliderComponent.offsetX cA), units (ColliderComponent.offsetY cA),
        units (ColliderComponent.radius cA) with
  | Some xA, Some yA, Some oxA, Some oyA, Some rA =>
      match units (TransformComponent.x tB), units (TransformComponent.y tB),
            units (ColliderComponent.offsetX cB), units (ColliderComponent.offsetY cB),
            units (ColliderComponent.radius cB) with
      | Some xB, Some yB, Some oxB, Some oyB, Some rB =>
          let dx := (xB + oxB) - (xA + oxA) in
          let dy := (yB + oyB) - (yA + oyA) in
          let rsum := rA + rB in
          Some ((0 <? rsum) && (dx * dx + dy * dy <? rsum * rsum))
      | _, _, _, _, _ => None
      end
  | _, _, _, _, _ => None
  end.

(** Two component objects that differ at most in the rotation and scale
    of a transform. *)
Definition same_placement (c c' : Component.t) : Prop :=
  Component.owner c = Component.owner c' /\
  match Component.payload c, Component.payload c' with
  | Component.PTransform tr, Component.PTransform tr' =>
      TransformComponent.x tr = TransformComponent.x tr' /\
      TransformComponent.y tr = TransformComponent.y tr'
  | p, p' => p = p'
  end.

(** Two heaps that hold the same objects up to the rotation and scale of
    their transforms. *)
Definition differ_only_in_rotation_and_scale (h h' : Heap.t) : Prop :=
  Forall2 same_placement h h'.

(** The requests the active systems of [ss] make during one tick in which
    each of them reads [registry]. *)
Fixpoint requestsOf (deltaTime : Z) (ss : list System.t) (h : Heap.t)
         (registry : JsMap.t Entity.t) : list WorldCall :=
  match ss with
  | [] => []
  | system :: rest =>
      if System.isActive system then
        let observed := if System.world system then Some registry else None in
        let '(h1, calls, _) := System.step system deltaTime observed h
                                           (System.cur system) in
        calls ++ requestsOf deltaTime rest h1 registry
      else requestsOf deltaTime rest h registry
  end.

(** The [update] calls recorded in a log, by class and priority. *)
Fixpoint run_order (effs : list Effect) : list (string * Z) :=
  match effs with
  | [] => []
  | SystemUpdate kind priority _ _ :: rest => (kind, priority) :: run_order rest
  | _ :: rest => run_order rest
  end.

(** The priorities never decrease along the list. *)
Definition sorted_by_priority (ss : list System.t) : Prop :=
  StronglySorted Z.le (map System.priority ss).

(** The string holds no [:] (as every uuid). *)
Fixpoint colon_free (s : string) : bool :=
  match s with
  | EmptyString => true
  | String c rest => negb (Ascii.eqb c ":"%char) && colon_free rest
  end.

(** A canonical pair id: two colon-free ids, the smaller first, joined by
    a colon. *)
Definition canonical_pair (pairId : string) : Prop :=
  exists a b, colon_free a = true /\ colon_free b = true /\
              String.ltb a b = true /\
              pairId = String.append a (String.append ":" b).

(** A pair map as the collision system keeps it. *)
Definition pairs_wf (m : JsMap.t bool) : Prop :=
  NoDup (JsMap.keys m) /\ forall pairId, In pairId (JsMap.keys m) -> canonical_pair pairId.

(** A registry as [World.update] builds it: every entity under its own id,
    and ids without colon. *)
Definition registry_wf (ents : JsMap.t Entity.t) : Prop :=
  NoDup (JsMap.keys ents) /\
  forall k e, In (k, e) ents -> k = Entity.id e /\ colon_free k = true.

(** The component map of [e] as [addComponent] builds it: every key is the
    type-identifier of the object it refers to. *)
Definition components_typed (h : Heap.t) (e : Entity.t) : Prop :=
  forall k r, In (k, r) (Entity.components e) ->
              exists c, Heap.get h r = Some c /\ Component.getType c = k.

(** [a] comes before [b] in [l]. *)
Definition ordered_pair {A : Type} (a b : A) (l : list A) : Prop :=
  exists l1 l2 l3, l = l1 ++ a :: l2 ++ b :: l3.

(** The pair id an event is about. *)
Definition event_pair (ev : CollisionEvent) : string :=
  CollisionSystem.getCollisionPairId (entityA ev) (entityB ev).

(** The events of [evs] about the pair [pairId]. *)
Definition events_about (pairId : string) (evs : list CollisionEvent)
  : list CollisionEvent :=
  List.filter (fun ev => String.eqb (event_pair ev) pairId) evs.

(** The entities [CollisionSystem.update] selects. *)
Definition collidable (w : World.t) : list Entity.t :=
  List.filter (fun entity => CollisionSystem.filter entity && Entity.isActive entity)
              (World.getEntities w).

(** The pair of [a] and [b] passes the layer/mask test both ways and the
    shape test, and [pairId] is its id. *)
Definition pair_passes (h : Heap.t) (a b : Entity.t) (pairId : string) : Prop :=
  exists cA cB,
    Entity.getCollider h a = Some cA /\ Entity.getCollider h b = Some cB /\
    ColliderComponent.canCollideWith cA (ColliderComponent.collisionLayer cB) = true /\
    ColliderComponent.canCollideWith cB (ColliderComponent.collisionLayer cA) = true /\
    CollisionSystem.checkCollision h a b = true /\
    pairId = CollisionSystem.getCollisionPairId a b.

(** The event [processCollisionEvents] builds for a pair id, when both
    entities are found. *)
Definition eventsFor (w : World.t) (type : CollisionEventType) (pairId : string)
  : list CollisionEvent :=
  match CollisionSystem.getEntitiesFromPairId (Some w) pairId with
  | (Some a, Some b) => [mkEvent type a b]
  | _ => []
  end.

(** The calls of [dispatchCollisionEvent] made by [processCollisionEvents],
    in order. *)
Definition collisionEvents (w : World.t) (previous current : JsMap.t bool)
  : list CollisionEvent :=
  flat_map (fun pairId => if negb (JsMap.has pairId previous)
                          then eventsFor w ENTER pairId
                          else eventsFor w STAY pairId) (JsMap.keys current)
  ++ flat_map (fun pairId => if negb (JsMap.has pairId current)
                             then eventsFor w EXIT pairId
                             else []) (JsMap.keys previous).

(** [updateInvincibility] called once for each elapsed time of a list. *)
Definition health_updates (deltaTimes : list float) (c : HealthComponent.t)
  : HealthComponent.t :=
  fold_left (fun c' deltaTime => HealthComponent.updateInvincibility deltaTime c')
            deltaTimes c.

(** A pool that holds no more objects than its capacity allows. *)
Definition within_capacity {T : Type} (p : ObjectPool.t T) : Prop :=
  ObjectPool.size p <= Z.max 0 (ObjectPool.maxSize p).

(** [t = new TimerComponent(); t.addTimer("blink", 300, f, false);
    t.addTimer("spawn", 1000, g, true)], with [f] and [g] the callbacks 1
    and 2. *)
Definition twoTimers : TimerComponent.t :=
  TimerComponent.addTimer "spawn" 1000 2%nat true
    (TimerComponent.addTimer "blink" 300 1%nat false TimerComponent.new).

(** The maps of a timer component hold every key once. *)
Definition timers_wf (c : TimerComponent.t) : Prop :=
  NoDup (JsMap.keys (TimerComponent.timers c)) /\
  NoDup (JsMap.keys (TimerComponent.callbacks c)) /\
  NoDup (JsMap.keys (TimerComponent.repeating c)) /\
  NoDup (JsMap.keys (TimerComponent.durations c)).

(** Successive calls of [TimerComponent.update], one per elapsed time of
    the list. *)
Definition timer_updates (deltaTimes : list Z) (c : TimerComponent.t)
  : TimerComponent.t :=
  fold_left (fun c' deltaTime => fst (TimerComponent.update deltaTime c')) deltaTimes c.

(** ** Facts about the containers *)

Section JsMapFacts.
Context {V : Type}.
Implicit Types (m : JsMap.t V) (k : string) (v : V).

Lemma JsMap_has_get k m :
  JsMap.has k m = true <-> exists v, JsMap.get k m = Some v.
Proof.
  unfold JsMap.has. destruct (JsMap.get k m) as [v|].
  - split; [intros _; now exists v | reflexivity].
  - split; [discriminate | intros [v Hv]; discriminate].
Qed.

Lemma JsMap_has_false_get k m :
  JsMap.has k m = false <-> JsMap.get k m = None.
Proof.
  unfold JsMap.has. destruct (JsMap.get k m); split; congruence.
Qed.

Lemma JsMap_get_In k v m : JsMap.get k m = Some v -> In (k, v) m.
Proof.
  induction m as [|[k' v'] m IH]; simpl; [discriminate|].
  destruct (String.eqb_spec k k') as [->|Hne].
  - intros [= ->]. now left.
  - intros H. right. now apply IH.
Qed.

Lemma JsMap_has_keys k m : JsMap.has k m = true <-> In k (JsMap.keys m).
Proof.
  unfold JsMap.has, JsMap.keys.
  induction m as [|[k' v'] m IH]; simpl.
  - split; [discriminate | tauto].
  - destruct (String.eqb_spec k k') as [->|Hne].
    + split; [now left | reflexivity].
    + rewrite IH. split; [now right | intros [Heq|H]; [congruence | exact H]].
Qed.

Lemma JsMap_In_get_NoDup k v m :
  NoDup (JsMap.keys m) -> In (k, v) m -> JsMap.get k m = Some v.
Proof.
  unfold JsMap.keys.
  induction m as [|[k' v'] m IH]; simpl; [tauto|].
  intros Hnd [Heq|Hin].
  - injection Heq as -> ->. now rewrite String.eqb_refl.
  - inversion Hnd as [|? ? Hnotin Hnd']; subst.
    destruct (String.eqb_spec k k') as [->|Hne].
    + exfalso. apply Hnotin. now apply (in_map fst) in Hin.
    + now apply IH.
Qed.

Lemma JsMap_get_set_same k v m : JsMap.get k (JsMap.set k v m) = Some v.
Proof.
  induction m as [|[k' v'] m IH]; simpl.
  - now rewrite String.eqb_refl.
  - destruct (String.eqb_spec k k') as [->|Hne]; simpl.
    + now rewrite String.eqb_refl.
    + destruct (String.eqb_spec k k'); [congruence | exact IH].
Qed.

Lemma JsMap_get_set_other k k' v m :
  k <> k' -> JsMap.get k' (JsMap.set k v m) = JsMap.get k' m.
Proof.
  intros Hne. induction m as [|[k0 v0] m IH]; simpl.
  - destruct (String.eqb_spec k' k); [congruence | reflexivity].
  - destruct (String.eqb_spec k k0) as [->|Hne0]; simpl.
    + destruct (String.eqb_spec k' k0); [congruence | reflexivity].
    + destruct (String.eqb_spec k' k0); [reflexivity | exact IH].
Qed.

Lemma JsMap_has_set k k' v m :
  JsMap.has k' (JsMap.set k v m) = String.eqb k' k || JsMap.has k' m.
Proof.
  unfold JsMap.has. destruct (String.eqb_spec k' k) as [->|Hne]; simpl.
  - now rewrite JsMap_get_set_same.
  - rewrite JsMap_get_set_other by congruence. reflexivity.
Qed.

Lemma JsMap_keys_set k v m :
  JsMap.keys (JsMap.set k v m) =
  if JsMap.has k m then JsMap.keys m else JsMap.keys m ++ [k].
Proof.
  unfold JsMap.has, JsMap.keys.
  induction m as [|[k0 v0] m IH]; simpl; [reflexivity|].
  destruct (String.eqb_spec k k0) as [->|Hne]; simpl; [reflexivity|].
  rewrite IH. now destruct (JsMap.get k m).
Qed.

Lemma JsMap_NoDup_set k v m :
  NoDup (JsMap.keys m) -> NoDup (JsMap.keys (JsMap.set k v m)).
Proof.
  intros Hnd. rewrite JsMap_keys_set.
  destruct (JsMap.has k m) eqn:Hhas; [exact Hnd|].
  apply NoDup_app; [exact Hnd | constructor; [tauto | constructor] |].
  intros a Ha [<-|[]].
  apply JsMap_has_keys in Ha. congruence.
Qed.

Lemma JsMap_get_delete_other k k' m :
  k <> k' -> JsMap.get k' (JsMap.delete k m) = JsMap.get k' m.
Proof.
  intros Hne. induction m as [|[k0 v0] m IH]; simpl; [reflexivity|].
  destruct (String.eqb_spec k k0) as [->|Hne0]; simpl.
  - destruct (String.eqb_spec k' k0); [congruence | reflexivity].
  - destruct (String.eqb_spec k' k0); [reflexivity | exact IH].
Qed.

Lemma JsMap_delete_absent k m : JsMap.get k m = None -> JsMap.delete k m = m.
Proof.
  induction m as [|[k0 v0] m IH]; simpl; [reflexivity|].
  destruct (String.eqb_spec k k0); [discriminate|].
  intros H. now rewrite IH.
Qed.

Lemma JsMap_keys_delete_incl k m a :
  In a (JsMap.keys (JsMap.delete k m)) -> In a (JsMap.keys m).
Proof.
  unfold JsMap.keys.
  induction m as [|[k0 v0] m IH]; simpl; [tauto|].
  destruct (String.eqb_spec k k0); simpl; [tauto|].
  intros [H|H]; [now left | right; now apply IH].
Qed.

Lemma JsMap_NoDup_delete k m :
  NoDup (JsMap.keys m) -> NoDup (JsMap.keys (JsMap.delete k m)).
Proof.
  unfold JsMap.keys.
  induction m as [|[k0 v0] m IH]; simpl; [trivial|].
  intros Hnd. inversion Hnd as [|? ? Hnotin Hnd']; subst.
  destruct (String.eqb_spec k k0); simpl; [exact Hnd'|].
  constructor; [|now apply IH].
  intros Hin. apply Hnotin. exact (JsMap_keys_delete_incl _ _ _ Hin).
Qed.

Lemma JsMap_get_delete_same k m :
  NoDup (JsMap.keys m) -> JsMap.get k (JsMap.delete k m) = None.
Proof.
  unfold JsMap.keys.
  induction m as [|[k0 v0] m IH]; simpl; [reflexivity|].
  intros Hnd. inversion Hnd as [|? ? Hnotin Hnd']; subst.
  destruct (String.eqb_spec k k0) as [->|Hne]; simpl.
  - apply JsMap_has_false_get. destruct (JsMap.has k0 m) eqn:Hh; [|reflexivity].
    apply JsMap_has_keys in Hh. contradiction.
  - destruct (String.eqb_spec k k0); [congruence | now apply IH].
Qed.

End JsMapFacts.

Lemma JsSet_has_In k s : JsSet.has k s = true <-> In k s.
Proof.
  unfold JsSet.has. rewrite existsb_exists. split.
  - intros [x [Hin Heq]]. apply String.eqb_eq in Heq. now subst.
  - intros Hin. exists k. split; [exact Hin | apply String.eqb_refl].
Qed.

Lemma JsSet_NoDup_add k s : NoDup s -> NoDup (JsSet.add k s).
Proof.
  intros Hnd. unfold JsSet.add. destruct (JsSet.has k s) eqn:Hh; [exact Hnd|].
  apply NoDup_app; [exact Hnd | constructor; [tauto | constructor] |].
  intros a Ha [<-|[]]. apply JsSet_has_In in Ha. congruence.
Qed.

Lemma JsSet_add_idempotent k s : JsSet.add k (JsSet.add k s) = JsSet.add k s.
Proof.
  assert (Hin : JsSet.has k (s ++ [k]) = true).
  { apply JsSet_has_In, in_or_app. right. now left. }
  unfold JsSet.add. destruct (JsSet.has k s) eqn:Hh.
  - now rewrite Hh.
  - now rewrite Hin.
Qed.

(** ** Doubles *)

(** The comparison of two doubles is the comparison of their exact values,
    and [a - b] and [b - a] have the same square. *)

Lemma digits2_bounds m :
  2 ^ (Zpos (digits2_pos m) - 1) <= Zpos m < 2 ^ Zpos (digits2_pos m).
Proof.
  induction m as [m IH|m IH|]; cbn [digits2_pos].
  - rewrite Pos2Z.inj_succ.
    replace (Z.succ (Zpos (digits2_pos m)) - 1) with (Z.succ (Zpos (digits2_pos m) - 1)) by lia.
    rewrite !Z.pow_succ_r by lia. lia.
  - rewrite Pos2Z.inj_succ.
    replace (Z.succ (Zpos (digits2_pos m)) - 1) with (Z.succ (Zpos (digits2_pos m) - 1)) by lia.
    rewrite !Z.pow_succ_r by lia. lia.
  - simpl. lia.
Qed.

Lemma bounded_range m e :
  bounded prec emax m e = true ->
  -1074 <= e /\ Zpos m < 2 ^ 53 /\ (-1074 < e -> 2 ^ 52 <= Zpos m).
Proof.
  unfold bounded, canonical_mantissa, fexp, SpecFloat.emin, prec, emax.
  intros H. apply andb_prop in H. destruct H as [H _]. apply Z.eqb_eq in H.
  pose proof (digits2_bounds m) as [Hlo Hhi].
  assert (Hd : Zpos (digits2_pos m) <= 53) by lia.
  split; [lia|]. split.
  - apply Z.lt_le_trans with (1 := Hhi). apply Z.pow_le_mono_r; lia.
  - intros He. assert (Heq : Zpos (digits2_pos m) = 53) by lia.
    rewrite Heq in Hlo. exact Hlo.
Qed.

Lemma scaled_lt m1 e1 m2 e2 :
  bounded prec emax m1 e1 = true -> bounded prec emax m2 e2 = true ->
  e1 < e2 ->
  Zpos m1 * 2 ^ (e1 + 1074) < Zpos m2 * 2 ^ (e2 + 1074).
Proof.
  intros H1 H2 Hlt.
  destruct (bounded_range m1 e1 H1) as (He1 & Hm1 & _).
  destruct (bounded_range m2 e2 H2) as (He2 & _ & Hm2).
  specialize (Hm2 ltac:(lia)).
  replace (e2 + 1074) with ((e1 + 1074) + Z.succ (e2 - e1 - 1)) by lia.
  rewrite (Z.pow_add_r 2 (e1 + 1074) (Z.succ (e2 - e1 - 1))) by lia.
  rewrite (Z.pow_succ_r 2 (e2 - e1 - 1)) by lia.
  assert (HP : 0 < 2 ^ (e1 + 1074)) by (apply Z.pow_pos_nonneg; lia).
  assert (HQ : 0 < 2 ^ (e2 - e1 - 1)) by (apply Z.pow_pos_nonneg; lia).
  change (2 ^ 53) with (2 * 2 ^ 52) in Hm1.
  set (c := 2 ^ 52) in *. set (P := 2 ^ (e1 + 1074)) in *.
  set (Q := 2 ^ (e2 - e1 - 1)) in *.
  assert (Hc : 0 < c) by (subst c; lia).
  assert (Hm2P : 0 < Z.pos m2 * P) by nia.
  assert (Hstep1 : Z.pos m1 * P < 2 * (Z.pos m2 * P)) by nia.
  assert (Hstep2 : Z.pos m2 * P <= Z.pos m2 * P * Q) by nia.
  replace (Z.pos m2 * (P * (2 * Q))) with (2 * (Z.pos m2 * P * Q)) by ring.
  lia.
Qed.

Lemma finite_compare m1 e1 m2 e2 :
  bounded prec emax m1 e1 = true -> bounded prec emax m2 e2 = true ->
  match Z.compare e1 e2 with
  | Lt => Lt
  | Gt => Gt
  | Eq => Pos.compare_cont Eq m1 m2
  end = Z.compare (Zpos m1 * 2 ^ (e1 + 1074)) (Zpos m2 * 2 ^ (e2 + 1074)).
Proof.
  intros H1 H2. destruct (Z.compare_spec e1 e2) as [Heq|Hlt|Hgt].
  - subst e2. destruct (bounded_range m1 e1 H1) as (He1 & _).
    assert (HP : 0 < 2 ^ (e1 + 1074)) by (apply Z.pow_pos_nonneg; lia).
    symmetry. change (Pos.compare_cont Eq m1 m2) with (Z.compare (Zpos m1) (Zpos m2)).
    destruct (Z.compare_spec (Zpos m1) (Zpos m2)) as [E|L|G].
    + rewrite E. apply Z.compare_refl.
    + apply Z.compare_lt_iff. nia.
    + apply Z.compare_gt_iff. nia.
  - symmetry. apply Z.compare_lt_iff. now apply scaled_lt.
  - symmetry. apply Z.compare_gt_iff. now apply scaled_lt.
Qed.

Lemma SFcompare_exact x y :
  valid_binary x = true -> valid_binary y = true ->
  SFcompare x y =
  match SFexact x, SFexact y with
  | Some u, Some v => Some (Exact_compare u v)
  | _, _ => None
  end.
Proof.
  intros Hx Hy.
  destruct x as [sx|sx| |sx mx ex], y as [sy|sy| |sy my ey];
    try reflexivity; try (destruct sx; reflexivity); try (destruct sy; reflexivity);
    try (destruct sx, sy; reflexivity).
  - (* zero, finite *)
    simpl in Hy. destruct (bounded_range my ey Hy) as (He & _).
    assert (HP : 0 < 2 ^ (ey + 1074)) by (apply Z.pow_pos_nonneg; lia).
    cbn [SFcompare SFexact Exact_compare]. f_equal. symmetry.
    destruct sy; cbn [cond_Zopp]; [apply Z.compare_gt_iff | apply Z.compare_lt_iff]; nia.
  - (* finite, zero *)
    simpl in Hx. destruct (bounded_range mx ex Hx) as (He & _).
    assert (HP : 0 < 2 ^ (ex + 1074)) by (apply Z.pow_pos_nonneg; lia).
    cbn [SFcompare SFexact Exact_compare]. f_equal. symmetry.
    destruct sx; cbn [cond_Zopp]; [apply Z.compare_lt_iff | apply Z.compare_gt_iff]; nia.
  - (* finite, finite *)
    simpl in Hx, Hy.
    destruct (bounded_range mx ex Hx) as (Hex & _).
    destruct (bounded_range my ey Hy) as (Hey & _).
    assert (HPx : 0 < 2 ^ (ex + 1074)) by (apply Z.pow_pos_nonneg; lia).
    assert (HPy : 0 < 2 ^ (ey + 1074)) by (apply Z.pow_pos_nonneg; lia).
    pose proof (finite_compare mx ex my ey Hx Hy) as Hc.
    cbn [SFcompare SFexact]. f_equal.
    destruct sx, sy; cbn [cond_Zopp Exact_compare].
    + rewrite Z.compare_opp.
      rewrite <- (finite_compare my ey mx ex Hy Hx).
      rewrite (Z.compare_antisym ey ex).
      destruct (ey ?= ex); simpl; try reflexivity.
      change (Pos.compare_cont Eq mx my) with (Pos.compare mx my).
      change (Pos.compare_cont Eq my mx) with (Pos.compare my mx).
      now rewrite (Pos.compare_antisym my mx), CompOpp_involutive.
    + symmetry. apply Z.compare_lt_iff. nia.
    + symmetry. apply Z.compare_gt_iff. nia.
    + exact Hc.
Qed.

Lemma ltb_exact a b : PrimFloat.ltb a b = true <-> strictly_below a b.
Proof.
  rewrite ltb_spec. unfold SFltb, strictly_below, exact.
  rewrite (SFcompare_exact _ _ (Prim2SF_valid a) (Prim2SF_valid b)).
  destruct (SFexact (Prim2SF a)) as [u|], (SFexact (Prim2SF b)) as [v|]; split.
  - intros H. exists u, v. destruct (Exact_compare u v); try discriminate; auto.
  - intros (u' & v' & [= <-] & [= <-] & ->). reflexivity.
  - discriminate.
  - intros (u' & v' & _ & [=] & _).
  - discriminate.
  - intros (u' & v' & [=] & _).
  - discriminate.
  - intros (u' & v' & [=] & _).
Qed.

Lemma strictly_below_irrefl a b : exact a = exact b -> PrimFloat.ltb a b = false.
Proof.
  intros Heq. apply not_true_is_false. intros H. apply ltb_exact in H.
  destruct H as (u & v & Hu & Hv & Hlt). rewrite Heq, Hv in Hu. injection Hu as <-.
  destruct v; simpl in Hlt; try discriminate. rewrite Z.compare_refl in Hlt. discriminate.
Qed.

(* symmetry facts *)
Lemma binary_round_aux_opp s mx ex lx :
  binary_round_aux prec emax (negb s) mx ex lx = SFopp (binary_round_aux prec emax s mx ex lx).
Proof.
  unfold binary_round_aux.
  destruct (shr_fexp prec emax mx ex lx) as [mrs' e'].
  destruct (shr_fexp prec emax _ e' loc_Exact) as [mrs'' e''].
  destruct (shr_m mrs''); try reflexivity.
  destruct (e'' <=? emax - prec); reflexivity.
Qed.

Lemma binary_normalize_opp m e :
  binary_normalize prec emax (- m) e false =
  match m with
  | Z0 => S754_zero false
  | _ => SFopp (binary_normalize prec emax m e false)
  end.
Proof.
  destruct m as [|p|p]; simpl; [reflexivity| |]; unfold binary_round;
    destruct (shl_align _ _ _) as [mz ez].
  - apply (binary_round_aux_opp false).
  - rewrite (binary_round_aux_opp false). 
    destruct (binary_round_aux prec emax false (Z.pos mz) ez loc_Exact); simpl; try reflexivity;
    now rewrite ?negb_involutive.
Qed.

Lemma SFsub_swap x y : square_same (SF64sub x y) (SF64sub y x).
Proof.
  unfold SF64sub, square_same.
  destruct x as [sx|sx| |sx mx ex], y as [sy|sy| |sy my ey];
    try (cbn [SFsub SFopp];
         repeat match goal with s : bool |- _ => destruct s end;
         first [left; reflexivity | right; eexists _, _; split; reflexivity]).
  cbn [SFsub]. rewrite (Z.min_comm ey ex).
  set (a := cond_Zopp sx (Z.pos (fst (shl_align mx ex (Z.min ex ey))))).
  set (b := cond_Zopp sy (Z.pos (fst (shl_align my ey (Z.min ex ey))))).
  replace (b - a) with (- (a - b)) by lia.
  rewrite binary_normalize_opp.
  destruct (a - b) eqn:E; [right; eexists _, _; split; reflexivity | left; reflexivity
                           | left; reflexivity].
Qed.

Lemma SFmul_square_same x y : square_same x y -> SF64mul x x = SF64mul y y.
Proof.
  intros [-> | (s & s' & -> & ->)].
  - destruct x as [s|s| |s m e]; simpl; try reflexivity.
    + now destruct s.
    + now destruct s.
    + unfold SF64mul, SFmul. now destruct s.
  - simpl. now destruct s, s'.
Qed.

Lemma sub_square_sym (a b : float) : ((a - b) * (a - b) = (b - a) * (b - a))%float.
Proof.
  apply Prim2SF_inj. rewrite !mul_spec, !sub_spec.
  apply SFmul_square_same, SFsub_swap.
Qed.

Lemma add_comm64 (a b : float) : (a + b = b + a)%float.
Proof.
  apply Prim2SF_inj. rewrite !add_spec. unfold SF64add, SFadd.
  destruct (Prim2SF a) as [sx|sx| |sx mx ex], (Prim2SF b) as [sy|sy| |sy my ey];
    try reflexivity; try (destruct sx, sy; reflexivity).
  now rewrite Z.min_comm, Z.add_comm.
Qed.

(** ** Narrow phase *)

Lemma lt_exact a b : Js.lt a b = true <-> strictly_below a b.
Proof. apply ltb_exact. Qed.

Lemma lt_same_value a b : exact a = exact b -> Js.lt a b = false.
Proof. apply strictly_below_irrefl. Qed.

Lemma circle_circle_spec tA cA tB cB :
  CollisionSystem.checkCircleCircleCollision tA cA tB cB = true <->
  strictly_below
    (distance64
       (TransformComponent.x tA + ColliderComponent.offsetX cA)
       (TransformComponent.y tA + ColliderComponent.offsetY cA)
       (TransformComponent.x tB + ColliderComponent.offsetX cB)
       (TransformComponent.y tB + ColliderComponent.offsetY cB))
    (ColliderComponent.radius cA + ColliderComponent.radius cB).
Proof.
  unfold CollisionSystem.checkCircleCircleCollision, distance64.
  cbv zeta. apply lt_exact.
Qed.

Lemma rect_rect_spec tA cA tB cB :
  CollisionSystem.checkRectRectCollision tA cA tB cB = true <->
  (let a := ColliderComponent.getBounds cA tA in
   let b := ColliderComponent.getBounds cB tB in
   (strictly_below (bx a) (bx b + bwidth b) /\
    strictly_below (bx b) (bx a + bwidth a)) /\
   (strictly_below (by_ a) (by_ b + bheight b) /\
    strictly_below (by_ b) (by_ a + bheight a))).
Proof.
  unfold CollisionSystem.checkRectRectCollision, Js.gt. cbv zeta.
  rewrite !andb_true_iff. rewrite <- !ltb_exact. unfold Js.lt. tauto.
Qed.

Lemma circle_rect_spec tC cC tR cR :
  CollisionSystem.checkCircleRectCollision tC cC tR cR = true <->
  (let cx := (TransformComponent.x tC + ColliderComponent.offsetX cC)%float in
   let cy := (TransformComponent.y tC + ColliderComponent.offsetY cC)%float in
   let b := ColliderComponent.getBounds cR tR in
   strictly_below
     (distance64 cx cy
        (clamp64 (bx b) (bx b + bwidth b) cx)
        (clamp64 (by_ b) (by_ b + bheight b) cy))
     (ColliderComponent.radius cC)).
Proof.
  unfold CollisionSystem.checkCircleRectCollision, distance64, clamp64.
  cbv zeta. apply lt_exact.
Qed.

(** C4, as amended: every narrow-phase test is a strict comparison of the
    values the code computes in double precision.  Circle against circle
    collides exactly when the distance between the offset centers, as
    computed, is a number strictly below the sum of the radii, as computed;
    rectangle against rectangle exactly when the computed bounds overlap
    strictly on both axes; circle against rectangle exactly when the
    computed distance from the center to the center clamped onto the bounds
    is strictly below the radius.  Shapes whose computed values exactly
    touch (distance equal to the bound, or an edge of one rectangle on the
    opposite edge of the other) do not collide. *)
Theorem narrow_phase_is_strict :
  (forall tA cA tB cB,
      let x1 := (TransformComponent.x tA + ColliderComponent.offsetX cA)%float in
      let y1 := (TransformComponent.y tA + ColliderComponent.offsetY cA)%float in
      let x2 := (TransformComponent.x tB + ColliderComponent.offsetX cB)%float in
      let y2 := (TransformComponent.y tB + ColliderComponent.offsetY cB)%float in
      let rsum := (ColliderComponent.radius cA + ColliderComponent.radius cB)%float in
      (CollisionSystem.checkCircleCircleCollision tA cA tB cB = true <->
       strictly_below (distance64 x1 y1 x2 y2) rsum) /\
      (exact (distance64 x1 y1 x2 y2) = exact rsum ->
       CollisionSystem.checkCircleCircleCollision tA cA tB cB = false))
  /\
  (forall tA cA tB cB,
      let a := ColliderComponent.getBounds cA tA in
      let b := ColliderComponent.getBounds cB tB in
      (CollisionSystem.checkRectRectCollision tA cA tB cB = true <->
       (strictly_below (bx a) (bx b + bwidth b) /\
        strictly_below (bx b) (bx a + bwidth a)) /\
       (strictly_below (by_ a) (by_ b + bheight b) /\
        strictly_below (by_ b) (by_ a + bheight a))) /\
      (exact (bx a + bwidth a) = exact (bx b) \/
       exact (bx b + bwidth b) = exact (bx a) \/
       exact (by_ a + bheight a) = exact (by_ b) \/
       exact (by_ b + bheight b) = exact (by_ a) ->
       CollisionSystem.checkRectRectCollision tA cA tB cB = false))
  /\
  (forall tC cC tR cR,
      let cx := (TransformComponent.x tC + ColliderComponent.offsetX cC)%float in
      let cy := (TransformComponent.y tC + ColliderComponent.offsetY cC)%float in
      let b := ColliderComponent.getBounds cR tR in
      let px := clamp64 (bx b) (bx b + bwidth b) cx in
      let py := clamp64 (by_ b) (by_ b + bheight b) cy in
      (CollisionSystem.checkCircleRectCollision tC cC tR cR = true <->
       strictly_below (distance64 cx cy px py) (ColliderComponent.radius cC)) /\
      (exact (distance64 cx cy px py) = exact (ColliderComponent.radius cC) ->
       CollisionSystem.checkCircleRectCollision tC cC tR cR = false)).
Proof.
  split; [|split].
  - intros tA cA tB cB x1 y1 x2 y2 rsum.
    split; [apply circle_circle_spec|].
    intros Heq. unfold CollisionSystem.checkCircleCircleCollision. cbv zeta.
    now apply lt_same_value.
  - intros tA cA tB cB a b.
    split; [apply rect_rect_spec|].
    intros Htouch. unfold CollisionSystem.checkRectRectCollision, Js.gt, Js.lt.
    cbv zeta. fold a b.
    destruct Htouch as [H|[H|[H|H]]];
      symmetry in H; apply lt_same_value in H; unfold Js.lt in H; rewrite H;
      now rewrite ?andb_false_r.
  - intros tC cC tR cR cx cy b px py.
    split; [apply circle_rect_spec|].
    intros Heq. unfold CollisionSystem.checkCircleRectCollision. cbv zeta.
    now apply lt_same_value.
Qed.

Lemma narrow_phase_is_strict_witness :
  CollisionSystem.checkRectRectCollision
    (TransformComponent.mk 0 0 0 1 1) (Scenario.rect 50 50)
    (TransformComponent.mk 50 0 0 1 1) (Scenario.rect 50 50) = false.
Proof.
  apply (proj2 (proj1 (proj2 narrow_phase_is_strict) _ _ _ _)).
  left. reflexivity.
Defined.

(** C4, as the specification words it, fails: the comparison is made on
    rounded values, so it is not the comparison of the exact distance with
    the exact sum of the radii.  A circle of radius 1 at (0, 0) and a circle
    of radius 134217728 at (134217728, 16384) overlap (the squared distance
    is one less than the squared sum of the radii), but the root rounds up to
    the sum and the test answers no. *)
Lemma exact_overlap_can_be_missed :
  circles_overlap_exactly
    (TransformComponent.mk 0 0 0 1 1) (Scenario.circle 1)
    (TransformComponent.mk 134217728 16384 0 1 1) (Scenario.circle 134217728)
  = Some true /\
  CollisionSystem.checkCircleCircleCollision
    (TransformComponent.mk 0 0 0 1 1) (Scenario.circle 1)
    (TransformComponent.mk 134217728 16384 0 1 1) (Scenario.circle 134217728)
  = false.
Proof. split; vm_compute; reflexivity. Qed.

(** ** The quad-tree parameters *)

(** C10: [useQuadTree], [maxObjectsPerNode] and [maxLevels] have no effect.
    Two collision systems that agree on the previous pairs and on the
    listeners, run on the same heap and world, raise together or leave the
    same pair set and make the same listener calls, whatever their three
    parameters; and [update] hands each system's parameters on unchanged. *)
Theorem quadtree_parameters_have_no_effect :
  forall deltaTime h world pairs listeners q1 n1 l1 q2 n2 l2,
    let observe :=
      option_map (fun r : CollisionSystem.t * list Delivery =>
                    (CollisionSystem.collisionPairs (fst r),
                     CollisionSystem.collisionListeners (fst r), snd r)) in
    let params :=
      option_map (fun r : CollisionSystem.t * list Delivery =>
                    (CollisionSystem.useQuadTree (fst r),
                     CollisionSystem.maxObjectsPerNode (fst r),
                     CollisionSystem.maxLevels (fst r))) in
    let r1 := CollisionSystem.update deltaTime h world
                (CollisionSystem.mk pairs listeners q1 n1 l1) in
    let r2 := CollisionSystem.update deltaTime h world
                (CollisionSystem.mk pairs listeners q2 n2 l2) in
    observe r1 = observe r2 /\
    (r1 <> None -> params r1 = Some (q1, n1, l1) /\ params r2 = Some (q2, n2, l2)).
Proof.
  intros deltaTime h world pairs listeners q1 n1 l1 q2 n2 l2 observe params r1 r2.
  subst observe params r1 r2. unfold CollisionSystem.update.
  destruct world as [w|]; simpl.
  - destruct (q1 && _), (q2 && _);
      destruct (CollisionSystem.bruteForceCollisionDetection _ _ _);
      simpl; (split; [reflexivity | intros H; try congruence; split; reflexivity]).
  - split; [reflexivity | intros _; split; reflexivity].
Qed.

Lemma quadtree_parameters_have_no_effect_witness :
  option_map (fun r : CollisionSystem.t * list Delivery =>
                (CollisionSystem.useQuadTree (fst r),
                 CollisionSystem.maxObjectsPerNode (fst r),
                 CollisionSystem.maxLevels (fst r)))
             (CollisionSystem.update 16 (Scenario.heapOf Scenario.overlapping)
                (Some (Scenario.flushedWorld Scenario.overlapping))
                (CollisionSystem.mk [] [0%nat] true 1 5)) = Some (true, 1, 5).
Proof.
  refine (proj1 (proj2 (quadtree_parameters_have_no_effect
                          16 _ _ [] [0%nat] true 1 5 false 10 5) _)).
  vm_compute. discriminate.
Defined.

(** ** Rotation and scale *)

Lemma Heap_get_Forall2 (P : Component.t -> Component.t -> Prop) h h' r :
  Forall2 P h h' ->
  match Heap.get h r, Heap.get h' r with
  | Some c, Some c' => P c c'
  | None, None => True
  | _, _ => False
  end.
Proof.
  unfold Heap.get. intros HF. revert r.
  induction HF as [|c c' h h' Hc HF IH]; intros [|r]; simpl; auto.
  apply IH.
Qed.

Lemma getCollider_agree h h' e :
  differ_only_in_rotation_and_scale h h' ->
  Entity.getCollider h e = Entity.getCollider h' e.
Proof.
  intros HF. unfold Entity.getCollider.
  destruct (Entity.getComponent e ColliderComponent.TYPE) as [r|]; [|reflexivity].
  pose proof (Heap_get_Forall2 same_placement h h' r HF) as H.
  destruct (Heap.get h r) as [[o p]|], (Heap.get h' r) as [[o' p']|];
    try contradiction; [|reflexivity].
  destruct H as [_ H]. simpl in H.
  destruct p, p'; try congruence; try discriminate; reflexivity.
Qed.

Lemma getTransform_agree h h' e :
  differ_only_in_rotation_and_scale h h' ->
  match Entity.getTransform h e, Entity.getTransform h' e with
  | Some tr, Some tr' =>
      TransformComponent.x tr = TransformComponent.x tr' /\
      TransformComponent.y tr = TransformComponent.y tr'
  | None, None => True
  | _, _ => False
  end.
Proof.
  intros HF. unfold Entity.getTransform.
  destruct (Entity.getComponent e TransformComponent.TYPE) as [r|]; [|exact I].
  pose proof (Heap_get_Forall2 same_placement h h' r HF) as H.
  destruct (Heap.get h r) as [[o p]|], (Heap.get h' r) as [[o' p']|];
    try contradiction; [|exact I].
  destruct H as [_ H]. simpl in H.
  destruct p, p'; try discriminate; try exact I; exact H.
Qed.

Lemma checkCollision_agree h h' a b :
  differ_only_in_rotation_and_scale h h' ->
  CollisionSystem.checkCollision h a b = CollisionSystem.checkCollision h' a b.
Proof.
  intros HF. unfold CollisionSystem.checkCollision.
  rewrite <- (getCollider_agree h h' a HF), <- (getCollider_agree h h' b HF).
  pose proof (getTransform_agree h h' a HF) as Ha.
  pose proof (getTransform_agree h h' b HF) as Hb.
  destruct (Entity.getTransform h a) as [ta|], (Entity.getTransform h' a) as [ta'|];
    try contradiction; [|reflexivity].
  destruct (Entity.getCollider h a) as [ca|]; [|reflexivity].
  destruct (Entity.getTransform h b) as [tb|], (Entity.getTransform h' b) as [tb'|];
    try contradiction; [|reflexivity].
  destruct (Entity.getCollider h b) as [cb|]; [|reflexivity].
  destruct Ha as [Hax Hay], Hb as [Hbx Hby].
  unfold CollisionSystem.checkCircleCircleCollision,
    CollisionSystem.checkRectRectCollision,
    CollisionSystem.checkCircleRectCollision,
    ColliderComponent.getBounds.
  now rewrite Hax, Hay, Hbx, Hby.
Qed.

Lemma bruteForceInner_agree h h' a rest :
  differ_only_in_rotation_and_scale h h' ->
  forall cA pairs,
    CollisionSystem.bruteForceInner h a cA rest pairs =
    CollisionSystem.bruteForceInner h' a cA rest pairs.
Proof.
  intros HF cA. induction rest as [|b rest IH]; intros pairs; simpl; [reflexivity|].
  rewrite <- (getCollider_agree h h' b HF), <- (checkCollision_agree h h' a b HF).
  destruct cA as [ca|]; [|reflexivity].
  destruct (Entity.getCollider h b) as [cb|]; [|reflexivity].
  apply IH.
Qed.

Lemma bruteForce_agree h h' entities :
  differ_only_in_rotation_and_scale h h' ->
  forall pairs,
    CollisionSystem.bruteForceCollisionDetection h entities pairs =
    CollisionSystem.bruteForceCollisionDetection h' entities pairs.
Proof.
  intros HF. induction entities as [|a rest IH]; intros pairs; simpl; [reflexivity|].
  rewrite <- (getCollider_agree h h' a HF), <- (bruteForceInner_agree h h' a rest HF).
  destruct (CollisionSystem.bruteForceInner _ _ _ _ _); [apply IH | reflexivity].
Qed.

(** C9: collision results do not depend on rotation or scale.  On two
    heaps that differ only in the rotation, scaleX and scaleY of transforms,
    the check of every pair of entities gives the same verdict, and a whole
    [update] leaves the same pair set and makes the same listener calls. *)
Theorem collision_ignores_rotation_and_scale :
  forall h h',
    differ_only_in_rotation_and_scale h h' ->
    (forall entityA entityB,
        CollisionSystem.checkCollision h entityA entityB =
        CollisionSystem.checkCollision h' entityA entityB) /\
    (forall deltaTime world cs,
        CollisionSystem.update deltaTime h world cs =
        CollisionSystem.update deltaTime h' world cs).
Proof.
  intros h h' HF. split.
  - intros a b. now apply checkCollision_agree.
  - intros deltaTime world cs. unfold CollisionSystem.update.
    destruct world as [w|]; [|reflexivity].
    now rewrite !(bruteForce_agree h h' _ HF).
Qed.

Lemma collision_ignores_rotation_and_scale_witness :
  CollisionSystem.update 16 (Scenario.heapOf Scenario.overlapping)
    (Some (Scenario.flushedWorld Scenario.overlapping)) CollisionSystem.default =
  CollisionSystem.update 16 (Scenario.turnAll 3 2 5 (Scenario.heapOf Scenario.overlapping))
    (Some (Scenario.flushedWorld Scenario.overlapping)) CollisionSystem.default.
Proof.
  apply (collision_ignores_rotation_and_scale
           (Scenario.heapOf Scenario.overlapping)
           (Scenario.turnAll 3 2 5 (Scenario.heapOf Scenario.overlapping))).
  vm_compute. repeat constructor.
Defined.

(** ** The world's tick *)

Lemma applyCalls_frame calls w :
  World.entities (fold_left World.applyCall calls w) = World.entities w /\
  World.systems (fold_left World.applyCall calls w) = World.systems w /\
  World.entityListeners (fold_left World.applyCall calls w) = World.entityListeners w.
Proof.
  revert w. induction calls as [|c calls IH]; intros w; simpl; [auto|].
  destruct (IH (World.applyCall w c)) as [He [Hs Hl]].
  rewrite He, Hs, Hl. now destruct c.
Qed.

Lemma runSystems_spec deltaTime ss :
  forall h w,
    let '(ss', h', w', effs) := World.runSystems deltaTime ss h w in
    World.entities w' = World.entities w /\
    World.entityListeners w' = World.entityListeners w /\
    effs = map (fun s => SystemUpdate (System.kind s) (System.priority s) deltaTime
                           (if System.world s then Some (World.entities w) else None))
               (List.filter System.isActive ss) /\
    map System.priority ss' = map System.priority ss /\
    map System.kind ss' = map System.kind ss /\
    w' = fold_left World.applyCall
                   (requestsOf deltaTime ss h (World.entities w)) w.
Proof.
  induction ss as [|s ss IH]; intros h w; simpl; [auto 6|].
  destruct (System.isActive s) eqn:Hact.
  - destruct (System.step s deltaTime
                (if System.world s then Some (World.entities w) else None) h
                (System.cur s)) as [[h1 calls] st] eqn:Hstep.
    specialize (IH h1 (fold_left World.applyCall calls w)).
    destruct (World.runSystems deltaTime ss h1 (fold_left World.applyCall calls w))
      as [[[ss' h2] w2] effs].
    destruct (applyCalls_frame calls w) as [He [_ Hl]].
    rewrite He, Hl in IH.
    destruct IH as (IH1 & IH2 & IH3 & IH4 & IH5 & IH6).
    simpl. rewrite IH3, IH4, IH5, fold_left_app. auto 7.
  - specialize (IH h w).
    destruct (World.runSystems deltaTime ss h w) as [[[ss' h2] w2] effs].
    destruct IH as (IH1 & IH2 & IH3 & IH4 & IH5 & IH6).
    simpl. rewrite IH4, IH5. auto 7.
Qed.

Lemma flushAdditions_spec ls toAdd :
  forall ents,
    World.flushAdditions ls toAdd ents =
    (fold_left (fun m e => JsMap.set (Entity.getId e) e m) toAdd ents,
     flat_map (fun e => World.notify ls e true) toAdd).
Proof.
  induction toAdd as [|e toAdd IH]; intros ents; simpl; [reflexivity|].
  now rewrite IH.
Qed.

Lemma flat_map_agree (A B : Type) (f g : A -> list B) l :
  (forall a, In a l -> f a = g a) -> flat_map f l = flat_map g l.
Proof.
  induction l as [|a l IH]; intros H; simpl; [reflexivity|].
  rewrite (H a (or_introl eq_refl)), IH; [reflexivity|].
  intros b Hb. apply H. now right.
Qed.

Lemma flushRemovals_spec ls toRemove :
  NoDup toRemove ->
  forall ents,
    World.flushRemovals ls toRemove ents =
    (fold_left (fun m entityId => JsMap.delete entityId m) toRemove ents,
     flat_map (fun entityId =>
                 match JsMap.get entityId ents with
                 | Some e => World.notify ls e false
                 | None => []
                 end) toRemove).
Proof.
  induction toRemove as [|k toRemove IH]; intros Hnd ents; simpl; [reflexivity|].
  inversion Hnd as [|? ? Hnotin Hnd']; subst.
  assert (Hflat : forall m,
             flat_map (fun entityId =>
                         match JsMap.get entityId (JsMap.delete k m) with
                         | Some e => World.notify ls e false
                         | None => []
                         end) toRemove =
             flat_map (fun entityId =>
                         match JsMap.get entityId m with
                         | Some e => World.notify ls e false
                         | None => []
                         end) toRemove).
  { intros m. apply flat_map_agree. intros k' Hin.
    rewrite JsMap_get_delete_other; [reflexivity|]. intros ->. contradiction. }
  destruct (JsMap.get k ents) as [e|] eqn:Hget.
  - rewrite (IH Hnd'). now rewrite Hflat.
  - rewrite (IH Hnd'). now rewrite (JsMap_delete_absent _ _ Hget).
Qed.

Lemma flushRemovals_nil ls ents : World.flushRemovals ls [] ents = (ents, []).
Proof. reflexivity. Qed.

(** [World.update] without the two emptiness tests, which change nothing. *)
Lemma update_unfold deltaTime h w :
  World.update deltaTime h w =
  let '(ents1, effs1) := World.flushAdditions (World.entityListeners w)
                           (World.entitiesToAdd w) (World.entities w) in
  let '(ents2, effs2) := World.flushRemovals (World.entityListeners w)
                           (World.entitiesToRemove w) ents1 in
  let '(ss, h3, w3, effs3) :=
    World.runSystems deltaTime (World.systems w) h
      (World.mk ents2 (World.systems w) [] [] (World.entityListeners w)) in
  (World.mk (World.entities w3) ss (World.entitiesToAdd w3)
            (World.entitiesToRemove w3) (World.entityListeners w3),
   h3, effs1 ++ effs2 ++ effs3).
Proof.
  unfold World.update. rewrite !flushAdditions_spec.
  destruct (World.entitiesToAdd w) as [|e toAdd];
    destruct (World.entitiesToRemove w) as [|k toRemove];
    cbn [List.length JsSet.size Nat.ltb Nat.leb fold_left flat_map];
    rewrite ?flushRemovals_nil;
    try destruct (World.flushRemovals _ _ _); reflexivity.
Qed.

Lemma run_order_app effs effs' :
  run_order (effs ++ effs') = run_order effs ++ run_order effs'.
Proof.
  induction effs as [|[] effs IH]; simpl; rewrite ?IH; reflexivity.
Qed.

Lemma run_order_notify ls e added : run_order (World.notify ls e added) = [].
Proof. unfold World.notify. induction ls; simpl; auto. Qed.

Lemma run_order_flat_notify (A : Type) (f : A -> list Effect) l :
  (forall a, run_order (f a) = []) -> run_order (flat_map f l) = [].
Proof.
  intros Hf. induction l as [|a l IH]; simpl; [reflexivity|].
  now rewrite run_order_app, Hf, IH.
Qed.

Lemma run_order_updates deltaTime (obs : System.t -> option (JsMap.t Entity.t)) ss :
  run_order (map (fun s => SystemUpdate (System.kind s) (System.priority s)
                                         deltaTime (obs s)) ss) =
  map (fun s => (System.kind s, System.priority s)) ss.
Proof. induction ss as [|s ss IH]; simpl; [reflexivity | now rewrite IH]. Qed.

Lemma applyCalls_buffers calls w :
  World.entitiesToAdd (fold_left World.applyCall calls w) =
    World.entitiesToAdd w
    ++ flat_map (fun c => match c with CallAddEntity e => [e] | _ => [] end) calls /\
  World.entitiesToRemove (fold_left World.applyCall calls w) =
    fold_left (fun s c => match c with CallRemoveEntity k => JsSet.add k s | _ => s end)
              calls (World.entitiesToRemove w).
Proof.
  revert w. induction calls as [|c calls IH]; intros w; simpl.
  - now rewrite app_nil_r.
  - destruct (IH (World.applyCall w c)) as [Ha Hr]. rewrite Ha, Hr.
    destruct c; simpl; [now rewrite <- app_assoc | auto].
Qed.

(** C2: one [World.update] first flushes the buffered additions into the
    registry in call order, calling every listener once with each added
    entity and [true]; then flushes the buffered removals, skipping ids that
    are not registered, calling every listener once with each removed entity
    and [false]; and only then runs the active systems.  Every system that
    runs reads the registry as the flush left it, whatever the systems before
    it requested; the requests of the tick are left in the buffers, and the
    registry at the end of the tick is still the flushed one. *)
Theorem update_flushes_then_runs_systems :
  forall deltaTime h w,
    NoDup (World.entitiesToRemove w) ->
    let ls := World.entityListeners w in
    let added := fold_left (fun m e => JsMap.set (Entity.getId e) e m)
                           (World.entitiesToAdd w) (World.entities w) in
    let population := fold_left (fun m k => JsMap.delete k m)
                                (World.entitiesToRemove w) added in
    let requests := requestsOf deltaTime (World.systems w) h population in
    let w' := fst (fst (World.update deltaTime h w)) in
    snd (World.update deltaTime h w) =
      flat_map (fun e => map (fun listener => EntityNotified listener e true) ls)
               (World.entitiesToAdd w)
      ++ flat_map (fun k => match JsMap.get k added with
                            | Some e => map (fun listener => EntityNotified listener e false) ls
                            | None => []
                            end) (World.entitiesToRemove w)
      ++ map (fun s => SystemUpdate (System.kind s) (System.priority s) deltaTime
                         (if System.world s then Some population else None))
             (List.filter System.isActive (World.systems w)) /\
    World.entities w' = population /\
    World.entitiesToAdd w' =
      flat_map (fun c => match c with CallAddEntity e => [e] | _ => [] end) requests /\
    World.entitiesToRemove w' =
      fold_left (fun s c => match c with CallRemoveEntity k => JsSet.add k s | _ => s end)
                requests [].
Proof.
  intros deltaTime h w Hnd ls added population requests w'.
  subst w'. rewrite update_unfold, flushAdditions_spec.
  rewrite (flushRemovals_spec _ _ Hnd). fold ls added population.
  pose proof (runSystems_spec deltaTime (World.systems w) h
                (World.mk population (World.systems w) [] [] ls)) as Hrun.
  destruct (World.runSystems deltaTime (World.systems w) h
              (World.mk population (World.systems w) [] [] ls))
    as [[[ss h3] w3] effs3].
  destruct Hrun as (He & _ & Heffs & _ & _ & Hw3). simpl in He, Heffs, Hw3.
  fold requests in Hw3.
  destruct (applyCalls_buffers requests
              (World.mk population (World.systems w) [] [] ls)) as [Ha Hr].
  rewrite <- Hw3 in Ha, Hr. simpl in Ha, Hr.
  simpl. rewrite Heffs. unfold World.notify. auto.
Qed.

Lemma update_flushes_then_runs_systems_witness :
  snd (World.update 16 (Scenario.heapOf Scenario.overlapping) Scenario.busyWorld)
  = [EntityNotified 7%nat Scenario.entityA true;
     EntityNotified 8%nat Scenario.entityA true;
     EntityNotified 7%nat Scenario.entityB true;
     EntityNotified 8%nat Scenario.entityB true;
     EntityNotified 7%nat Scenario.entityA false;
     EntityNotified 8%nat Scenario.entityA false;
     SystemUpdate "Early" 10 16 (Some [(Scenario.uuidB, Scenario.entityB)]);
     SystemUpdate "Late" 30 16 (Some [(Scenario.uuidB, Scenario.entityB)])] /\
  JsMap.keys (World.entities
                (fst (fst (World.update 16 (Scenario.heapOf Scenario.overlapping)
                                        Scenario.busyWorld))))
  = [Scenario.uuidB].
Proof.
  assert (Hnd : NoDup (World.entitiesToRemove Scenario.busyWorld)).
  { vm_compute. repeat constructor; simpl; intuition discriminate. }
  destruct (update_flushes_then_runs_systems 16
              (Scenario.heapOf Scenario.overlapping) Scenario.busyWorld Hnd)
    as (Heffs & Hents & _).
  rewrite Heffs, Hents. split; vm_compute; reflexivity.
Defined.

(** ** Removal requests *)

Lemma flushAdditions_get_other toAdd :
  forall ents k,
    (forall e, In e toAdd -> Entity.getId e <> k) ->
    JsMap.get k (fold_left (fun m e => JsMap.set (Entity.getId e) e m) toAdd ents)
    = JsMap.get k ents.
Proof.
  induction toAdd as [|e toAdd IH]; intros ents k Hk; simpl; [reflexivity|].
  rewrite IH by (intros e' He'; apply Hk; now right).
  apply JsMap_get_set_other. apply Hk. now left.
Qed.

Lemma flushRemovals_unknown_last ls toRemove :
  forall ents k,
    JsMap.get k ents = None ->
    World.flushRemovals ls (toRemove ++ [k]) ents = World.flushRemovals ls toRemove ents.
Proof.
  induction toRemove as [|k' toRemove IH]; intros ents k Hk; simpl.
  - now rewrite Hk.
  - destruct (JsMap.get k' ents) as [e|] eqn:Hk'.
    + rewrite IH; [reflexivity|].
      rewrite JsMap_get_delete_other; [exact Hk | congruence].
    + now apply IH.
Qed.

Lemma flushRemovals_unknown_add ls toRemove ents k :
  JsMap.get k ents = None ->
  World.flushRemovals ls (JsSet.add k toRemove) ents = World.flushRemovals ls toRemove ents.
Proof.
  intros Hk. unfold JsSet.add. destruct (JsSet.has k toRemove); [reflexivity|].
  now apply flushRemovals_unknown_last.
Qed.

(** C8: [removeEntity] is idempotent and tolerant.  Asking twice for the
    removal of an id leaves the world exactly as asking once, hence the same
    next tick with the same notifications.  An id that is not registered when
    the removals are flushed is skipped: no notification, registry untouched;
    so a request for an id that is neither registered nor waiting to be added
    changes nothing in the next tick.  All the functions involved are total:
    nothing raises. *)
Theorem removeEntity_is_idempotent_and_tolerant :
  (forall w entityId,
      World.removeEntity entityId (World.removeEntity entityId w) =
      World.removeEntity entityId w) /\
  (forall deltaTime h w entityId,
      World.update deltaTime h (World.removeEntity entityId (World.removeEntity entityId w)) =
      World.update deltaTime h (World.removeEntity entityId w)) /\
  (forall ls entityId rest ents,
      JsMap.get entityId ents = None ->
      World.flushRemovals ls (entityId :: rest) ents = World.flushRemovals ls rest ents /\
      World.flushRemovals ls [entityId] ents = (ents, [])) /\
  (forall deltaTime h w entityId,
      World.getEntity w entityId = None ->
      (forall e, In e (World.entitiesToAdd w) -> Entity.getId e <> entityId) ->
      World.update deltaTime h (World.removeEntity entityId w) =
      World.update deltaTime h w).
Proof.
  assert (Hidem : forall w entityId,
             World.removeEntity entityId (World.removeEntity entityId w) =
             World.removeEntity entityId w).
  { intros w entityId. unfold World.removeEntity. simpl.
    now rewrite JsSet_add_idempotent. }
  split; [exact Hidem|]. split; [|split].
  - intros deltaTime h w entityId. now rewrite Hidem.
  - intros ls entityId rest ents Hk. simpl. now rewrite Hk.
  - intros deltaTime h w entityId Hk Hfresh.
    rewrite !update_unfold, !flushAdditions_spec. simpl.
    rewrite flushRemovals_unknown_add; [reflexivity|].
    rewrite flushAdditions_get_other by exact Hfresh. exact Hk.
Qed.

Lemma removeEntity_is_idempotent_and_tolerant_witness :
  World.update 16 (Scenario.heapOf Scenario.overlapping)
               (World.removeEntity "no-such-id" (snd (fst Scenario.overlapping))) =
  World.update 16 (Scenario.heapOf Scenario.overlapping)
               (snd (fst Scenario.overlapping)).
Proof.
  apply (proj2 (proj2 (proj2 removeEntity_is_idempotent_and_tolerant))).
  - reflexivity.
  - intros e He. vm_compute in He.
    destruct He as [<-|[<-|[]]]; vm_compute; discriminate.
Defined.

(** ** The system list *)

Lemma findIndex_spec (A : Type) (p : A -> bool) l :
  match Js.findIndex p l with
  | Some i => exists a rest,
      skipn i l = a :: rest /\ p a = true /\
      Forall (fun x => p x = false) (firstn i l)
  | None => Forall (fun x => p x = false) l
  end.
Proof.
  induction l as [|x l IH]; simpl; [constructor|].
  destruct (p x) eqn:Hpx.
  - exists x, l. simpl. auto.
  - destruct (Js.findIndex p l) as [i|].
    + destruct IH as (a & rest & Hskip & Hpa & Hall).
      exists a, rest. simpl. auto.
    + now constructor.
Qed.

Lemma sorted_app_inv l1 l2 :
  StronglySorted Z.le (l1 ++ l2) ->
  StronglySorted Z.le l1 /\ StronglySorted Z.le l2 /\
  (forall a b, In a l1 -> In b l2 -> a <= b).
Proof.
  induction l1 as [|x l1 IH]; simpl; intros Hs.
  - repeat split; [constructor | exact Hs | tauto].
  - inversion Hs as [|? ? Hs' Hall]; subst.
    destruct (IH Hs') as (H1 & H2 & H12).
    rewrite Forall_app in Hall. destruct Hall as [Hall1 Hall2].
    repeat split; [now constructor | exact H2 |].
    intros a b [<-|Ha] Hb; [|now apply H12].
    rewrite Forall_forall in Hall2. now apply Hall2.
Qed.

Lemma sorted_app l1 l2 :
  StronglySorted Z.le l1 -> StronglySorted Z.le l2 ->
  (forall a b, In a l1 -> In b l2 -> a <= b) ->
  StronglySorted Z.le (l1 ++ l2).
Proof.
  induction l1 as [|x l1 IH]; simpl; intros H1 H2 H12; [exact H2|].
  inversion H1 as [|? ? H1' Hall]; subst.
  constructor.
  - apply IH; auto.
  - rewrite Forall_app. split; [exact Hall|].
    rewrite Forall_forall. intros b Hb. apply H12; auto.
Qed.

Lemma sorted_insert l1 x l2 :
  StronglySorted Z.le (l1 ++ l2) ->
  Forall (fun a => a <= x) l1 -> Forall (fun b => x <= b) l2 ->
  StronglySorted Z.le (l1 ++ x :: l2).
Proof.
  intros Hs H1 H2. destruct (sorted_app_inv _ _ Hs) as (Hs1 & Hs2 & H12).
  rewrite Forall_forall in H1, H2.
  apply sorted_app; [exact Hs1 | constructor; [exact Hs2 | now apply Forall_forall] |].
  intros a b Ha [<-|Hb]; [now apply H1 | now apply H12].
Qed.

Lemma sorted_remove l1 x l2 :
  StronglySorted Z.le (l1 ++ x :: l2) -> StronglySorted Z.le (l1 ++ l2).
Proof.
  intros Hs. destruct (sorted_app_inv _ _ Hs) as (Hs1 & Hs2 & H12).
  inversion Hs2; subst.
  apply sorted_app; [assumption | assumption |].
  intros a b Ha Hb. apply H12; [exact Ha | now right].
Qed.

Lemma addSystem_position s w :
  sorted_by_priority (World.systems w) ->
  exists before after,
    World.systems w = before ++ after /\
    World.systems (fst (World.addSystem s w)) = before ++ System.setWorld true s :: after /\
    Forall (fun s' => System.priority s' <= System.priority s) before /\
    Forall (fun s' => System.priority s < System.priority s') after.
Proof.
  intros Hsorted. unfold World.addSystem, Js.splice_insert. simpl.
  pose proof (findIndex_spec _ (fun s' => System.priority s <? System.getPriority s')
                             (World.systems w)) as Hfind.
  set (index := match Js.findIndex _ (World.systems w) with
                | Some i => i
                | None => List.length (World.systems w)
                end).
  exists (firstn index (World.systems w)), (skipn index (World.systems w)).
  split; [now rewrite firstn_skipn|]. split; [reflexivity|].
  assert (Hle : forall l, Forall (fun x => (System.priority s <? System.getPriority x) = false) l ->
                          Forall (fun s' => System.priority s' <= System.priority s) l).
  { intros l. apply Forall_impl. intros a Ha. apply Z.ltb_ge in Ha. exact Ha. }
  subst index. destruct (Js.findIndex _ (World.systems w)) as [i|].
  - destruct Hfind as (a & rest & Hskip & Hpa & Hall).
    split; [now apply Hle|].
    rewrite Hskip. apply Z.ltb_lt in Hpa. unfold System.getPriority in Hpa.
    unfold sorted_by_priority in Hsorted.
    rewrite <- (firstn_skipn i (World.systems w)), Hskip, map_app in Hsorted.
    apply sorted_app_inv in Hsorted. destruct Hsorted as (_ & Hs2 & _).
    simpl in Hs2. inversion Hs2 as [|? ? _ Hrest]; subst.
    constructor; [exact Hpa|].
    rewrite Forall_map in Hrest. revert Hrest. apply Forall_impl. intros b Hb. lia.
  - rewrite firstn_all, skipn_all. split; [now apply Hle | constructor].
Qed.

(** C3: the system list is sorted by priority, ties in insertion order, and
    systems run in that order.  [addSystem] puts the newcomer after every
    system of lower or equal priority and before every system of strictly
    greater priority, and leaves a sorted list; the new world, [removeSystem],
    [update], [clear] and the entity requests all keep the list sorted;
    [update] runs exactly the active systems, in list order.  After adding
    priorities 50, 5, 20 the order is 5, 20, 50, and a second system of
    priority 20 runs after the first. *)
Theorem systems_stay_sorted_by_priority :
  sorted_by_priority (World.systems World.new) /\
  (forall s w,
      sorted_by_priority (World.systems w) ->
      sorted_by_priority (World.systems (fst (World.addSystem s w))) /\
      exists before after,
        World.systems w = before ++ after /\
        World.systems (fst (World.addSystem s w))
          = before ++ System.setWorld true s :: after /\
        Forall (fun s' => System.priority s' <= System.priority s) before /\
        Forall (fun s' => System.priority s < System.priority s') after) /\
  (forall w,
      sorted_by_priority (World.systems w) ->
      (forall systemType,
          sorted_by_priority (World.systems (fst (World.removeSystem systemType w)))) /\
      (forall deltaTime h,
          sorted_by_priority (World.systems (fst (fst (World.update deltaTime h w))))) /\
      sorted_by_priority (World.systems (fst (World.clear w))) /\
      (forall e, sorted_by_priority (World.systems (World.addEntity e w))) /\
      (forall k, sorted_by_priority (World.systems (World.removeEntity k w)))) /\
  (forall deltaTime h w,
      run_order (snd (World.update deltaTime h w)) =
      map (fun s => (System.kind s, System.priority s))
          (List.filter System.isActive (World.systems w))) /\
  (let add kind priority w := fst (World.addSystem (Scenario.spawner kind priority) w) in
   let w3 := add "C" 20 (add "B" 5 (add "A" 50 World.new)) in
   map (fun s => (System.kind s, System.priority s)) (World.systems w3)
     = [("B", 5); ("C", 20); ("A", 50)] /\
   map (fun s => (System.kind s, System.priority s)) (World.systems (add "D" 20 w3))
     = [("B", 5); ("C", 20); ("D", 20); ("A", 50)] /\
   run_order (snd (World.update 16 [] (add "D" 20 w3)))
     = [("B", 5); ("C", 20); ("D", 20); ("A", 50)]).
Proof.
  split; [constructor|]. split; [|split; [|split]].
  - intros s w Hsorted.
    destruct (addSystem_position s w Hsorted) as (before & after & Hw & Hw' & Hb & Ha).
    split; [|now exists before, after].
    unfold sorted_by_priority in *. rewrite Hw'. rewrite Hw in Hsorted.
    rewrite map_app in *. simpl. apply sorted_insert; [exact Hsorted | |].
    + rewrite Forall_map. exact Hb.
    + rewrite Forall_map. revert Ha. apply Forall_impl. intros a Ha. lia.
  - intros w Hsorted. repeat split.
    + intros systemType. unfold World.removeSystem.
      destruct (Js.findIndex _ (World.systems w)) as [i|] eqn:Hfind; [|exact Hsorted].
      destruct (nth_error (World.systems w) i) as [x|] eqn:Hnth; [|exact Hsorted].
      simpl. unfold Js.splice_remove, sorted_by_priority in *.
      apply nth_error_split in Hnth. destruct Hnth as (l1 & l2 & Hw & Hlen).
      rewrite Hw in Hsorted |- *. subst i.
      rewrite firstn_app, skipn_app, firstn_all, Nat.sub_diag.
      rewrite (skipn_all2 l1) by lia.
      replace (S (List.length l1) - List.length l1)%nat with 1%nat by lia.
      simpl. rewrite app_nil_r. rewrite map_app in *. simpl in Hsorted.
      now apply sorted_remove in Hsorted.
    + intros deltaTime h. rewrite update_unfold, flushAdditions_spec.
      destruct (World.flushRemovals _ _ _) as [ents2 effs2].
      match goal with
      | |- context [World.runSystems ?d ?ss ?hh ?ww] =>
          pose proof (runSystems_spec d ss hh ww) as Hrun;
          destruct (World.runSystems d ss hh ww) as [[[ss' h3] w3] effs3]
      end.
      destruct Hrun as (_ & _ & _ & Hprio & _). simpl.
      unfold sorted_by_priority. now rewrite Hprio.
    + constructor.
    + intros e. exact Hsorted.
    + intros k. exact Hsorted.
  - intros deltaTime h w. rewrite update_unfold, flushAdditions_spec.
    destruct (World.flushRemovals _ _ _) as [ents2 effs2] eqn:Hrem.
    match goal with
    | |- context [World.runSystems ?d ?ss ?hh ?ww] =>
        pose proof (runSystems_spec d ss hh ww) as Hrun;
        destruct (World.runSystems d ss hh ww) as [[[ss' h3] w3] effs3]
    end.
    destruct Hrun as (_ & _ & Heffs & _). simpl.
    rewrite !run_order_app, Heffs, run_order_updates.
    rewrite run_order_flat_notify by (intros; apply run_order_notify).
    assert (Hnone : run_order effs2 = []).
    { clear -Hrem. revert ents2 effs2 Hrem.
      generalize (fold_left (fun m e => JsMap.set (Entity.getId e) e m)
                            (World.entitiesToAdd w) (World.entities w)).
      induction (World.entitiesToRemove w) as [|k ks IH]; intros ents ents2 effs2 Hrem;
        simpl in Hrem.
      - now injection Hrem as <- <-.
      - destruct (JsMap.get k ents) as [e|].
        + destruct (World.flushRemovals _ ks _) as [ents' effs'] eqn:Hrest.
          injection Hrem as <- <-.
          rewrite run_order_app, run_order_notify. simpl. eapply IH. exact Hrest.
        + eapply IH. exact Hrem. }
    now rewrite Hnone.
  - vm_compute. auto.
Qed.

Lemma systems_stay_sorted_by_priority_witness :
  sorted_by_priority
    (World.systems (fst (World.addSystem (Scenario.spawner "Late" 30)
                           (fst (World.addSystem (Scenario.spawner "Early" 10)
                                                 World.new))))).
Proof.
  apply (proj1 (proj2 systems_stay_sorted_by_priority)).
  apply (proj1 (proj2 systems_stay_sorted_by_priority)).
  exact (proj1 systems_stay_sorted_by_priority).
Defined.

(** ** Attaching and detaching components *)

Lemma Heap_get_set_same h r c c0 :
  Heap.get h r = Some c0 -> Heap.get (Heap.set h r c) r = Some c.
Proof.
  unfold Heap.get. revert r. induction h as [|x h IH]; intros [|r]; simpl;
    try discriminate; auto.
Qed.

Lemma Heap_get_set_other h r r' c :
  r <> r' -> Heap.get (Heap.set h r c) r' = Heap.get h r'.
Proof.
  unfold Heap.get. revert r r'.
  induction h as [|x h IH]; intros [|r] [|r'] Hne; simpl; auto; congruence.
Qed.

(** C6, where the code departs from it: [addComponent] over a component of
    the same type-identifier replaces it silently ([getComponent] gives the
    new one, [hasComponent] stays true, no second entry appears) and sets the
    new component's owner, but it leaves the replaced component object
    untouched: its owner back-reference still names the entity. *)
Theorem addComponent_keeps_replaced_owner :
  forall h e old new cOld cNew,
    Heap.get h new = Some cNew ->
    Heap.get h old = Some cOld ->
    old <> new ->
    Entity.getComponent e (Component.getType cNew) = Some old ->
    Component.getOwner cOld = Some (Entity.id e) ->
    let h' := fst (fst (Entity.addComponent h e new)) in
    let e' := snd (fst (Entity.addComponent h e new)) in
    Entity.getComponent e' (Component.getType cNew) = Some new /\
    Entity.hasComponent e' (Component.getType cNew) = true /\
    JsMap.keys (Entity.components e') = JsMap.keys (Entity.components e) /\
    option_map Component.getOwner (Heap.get h' new) = Some (Some (Entity.id e)) /\
    option_map Component.getOwner (Heap.get h' old) = Some (Some (Entity.id e)).
Proof.
  intros h e old new cOld cNew Hnew Hold Hne Hget Howner h' e'.
  subst h' e'. unfold Entity.addComponent. rewrite Hnew. simpl.
  unfold Entity.getComponent, Entity.hasComponent in *. simpl.
  repeat split.
  - apply JsMap_get_set_same.
  - apply JsMap_has_get. eexists. apply JsMap_get_set_same.
  - rewrite JsMap_keys_set.
    assert (Hhas : JsMap.has (Component.getType cNew) (Entity.components e) = true)
      by (apply JsMap_has_get; eauto).
    now rewrite Hhas.
  - now rewrite (Heap_get_set_same _ _ _ _ Hnew).
  - rewrite Heap_get_set_other by congruence. rewrite Hold. simpl. now rewrite Howner.
Qed.

Lemma addComponent_keeps_replaced_owner_witness :
  let '(h, e, t1, t2) := Scenario.twoTransforms in
  option_map Component.getOwner
             (Heap.get (fst (fst (Entity.addComponent h e t2))) t1)
  = Some (Some (Entity.id e)).
Proof.
  refine (proj2 (proj2 (proj2 (proj2
            (addComponent_keeps_replaced_owner
               (fst (fst (fst Scenario.twoTransforms)))
               (snd (fst (fst Scenario.twoTransforms)))
               0%nat 1%nat
               (Component.mk (Some Scenario.uuidA)
                  (Component.PTransform (TransformComponent.mk 1 2 0 1 1)))
               (Component.mk None
                  (Component.PTransform (TransformComponent.mk 3 4 0 1 1)))
               _ _ _ _ _))))); try reflexivity.
  discriminate.
Defined.

(** C7, where the code departs from it: neither hook is ever called.
    [addComponent] calls [getType] and [setOwner] on the component and
    nothing else, [removeComponent] calls [setOwner] at most; no [init] and no
    [destroy] reaches any component, whereas [World.addSystem] and
    [World.removeSystem] do run the hooks of a system. *)
Theorem component_hooks_are_never_invoked :
  (forall h e component r,
      ~ In (CallInit r) (snd (Entity.addComponent h e component))) /\
  (forall h e componentType r,
      ~ In (CallDestroy r) (snd (Entity.removeComponent h e componentType))) /\
  (let '(h, e, t1, t2) := Scenario.twoTransforms in
   snd (Entity.addComponent h e t2) = [CallGetType t2; CallSetOwner t2 (Some (Entity.id e))] /\
   snd (Entity.removeComponent h e TransformComponent.TYPE) = [CallSetOwner t1 None]) /\
  (forall s w,
      snd (World.addSystem s w) = [SystemInit (System.kind s) (System.priority s)]).
Proof.
  split; [|split; [|split]].
  - intros h e component r. unfold Entity.addComponent.
    destruct (Heap.get h component); simpl; intuition discriminate.
  - intros h e componentType r. unfold Entity.removeComponent.
    destruct (JsMap.has componentType (Entity.components e)); simpl; [|tauto].
    destruct (JsMap.get componentType (Entity.components e)) as [c|]; simpl; [|tauto].
    destruct (Heap.get h c); simpl; intuition discriminate.
  - vm_compute. auto.
  - reflexivity.
Qed.

(** ** Pair ids *)

Lemma split_colon_free s : colon_free s = true -> Js.split ":"%char s = [s].
Proof.
  induction s as [|c s IH]; simpl; [reflexivity|].
  destruct (Ascii.eqb c ":"%char); simpl; [discriminate|].
  intros H. now rewrite (IH H).
Qed.

Lemma split_append_colon a t :
  colon_free a = true ->
  Js.split ":"%char (String.append a (String ":"%char t)) = a :: Js.split ":"%char t.
Proof.
  induction a as [|c a IH]; simpl; [reflexivity|].
  destruct (Ascii.eqb c ":"%char); simpl; [discriminate|].
  intros H. now rewrite (IH H).
Qed.

Lemma split_append a b :
  colon_free a = true ->
  Js.split ":"%char (String.append a (String.append ":" b)) = a :: Js.split ":"%char b.
Proof. apply split_append_colon. Qed.

Lemma split_pair a b :
  colon_free a = true -> colon_free b = true ->
  Js.split ":"%char (String.append a (String.append ":" b)) = [a; b].
Proof.
  intros Ha Hb. now rewrite (split_append a b Ha), (split_colon_free b Hb).
Qed.

Lemma pair_injective a b a' b' :
  colon_free a = true -> colon_free b = true ->
  colon_free a' = true -> colon_free b' = true ->
  String.append a (String.append ":" b) = String.append a' (String.append ":" b') ->
  a = a' /\ b = b'.
Proof.
  intros Ha Hb Ha' Hb' Heq.
  apply (f_equal (Js.split ":"%char)) in Heq.
  rewrite !split_pair in Heq by assumption.
  now injection Heq.
Qed.

Lemma ltb_irrefl a : String.ltb a a = false.
Proof.
  unfold String.ltb. pose proof (String.compare_antisym a a) as H.
  destruct (String.compare a a); simpl in H; congruence.
Qed.

Lemma ltb_asym a b : String.ltb a b = true -> String.ltb b a = false.
Proof.
  unfold String.ltb. rewrite (String.compare_antisym a b).
  destruct (String.compare b a); simpl; congruence.
Qed.

Lemma ltb_total a b : a <> b -> String.ltb a b = false -> String.ltb b a = true.
Proof.
  unfold String.ltb. intros Hne. rewrite (String.compare_antisym a b).
  destruct (String.compare b a) eqn:Hc; simpl; try congruence.
  apply String.compare_eq_iff in Hc. congruence.
Qed.

Lemma getCollisionPairId_canonical a b :
  colon_free (Entity.id a) = true -> colon_free (Entity.id b) = true ->
  Entity.id a <> Entity.id b ->
  canonical_pair (CollisionSystem.getCollisionPairId a b).
Proof.
  intros Ha Hb Hne. unfold CollisionSystem.getCollisionPairId, Entity.getId.
  destruct (String.ltb (Entity.id a) (Entity.id b)) eqn:Hlt.
  - exists (Entity.id a), (Entity.id b). auto.
  - exists (Entity.id b), (Entity.id a). repeat split; auto.
    now apply ltb_total.
Qed.

(** ** The pairwise detection *)

Lemma bruteForce_step h a b cA cB cur pairId :
  Entity.getCollider h a = Some cA -> Entity.getCollider h b = Some cB ->
  let pairs :=
    if negb (ColliderComponent.canCollideWith cA (ColliderComponent.getCollisionLayer cB))
       || negb (ColliderComponent.canCollideWith cB (ColliderComponent.getCollisionLayer cA))
    then cur
    else if CollisionSystem.checkCollision h a b
         then JsMap.set (CollisionSystem.getCollisionPairId a b) true cur
         else cur in
  (JsMap.has pairId pairs = true <->
   JsMap.has pairId cur = true \/ pair_passes h a b pairId) /\
  (NoDup (JsMap.keys cur) -> NoDup (JsMap.keys pairs)).
Proof.
  intros HcA HcB pairs. subst pairs. unfold ColliderComponent.getCollisionLayer.
  assert (Hinv : pair_passes h a b pairId ->
                 ColliderComponent.canCollideWith cA (ColliderComponent.collisionLayer cB) = true /\
                 ColliderComponent.canCollideWith cB (ColliderComponent.collisionLayer cA) = true /\
                 CollisionSystem.checkCollision h a b = true /\
                 pairId = CollisionSystem.getCollisionPairId a b).
  { intros (cA' & cB' & HA & HB & H1 & H2 & H3 & H4).
    rewrite HcA in HA. rewrite HcB in HB. injection HA as <-. injection HB as <-. auto. }
  destruct (ColliderComponent.canCollideWith cA (ColliderComponent.collisionLayer cB)) eqn:H1;
    destruct (ColliderComponent.canCollideWith cB (ColliderComponent.collisionLayer cA)) eqn:H2;
    simpl;
    try (split; [split; [now left | intros [H|H]; [exact H | apply Hinv in H; intuition congruence]]
                | auto]).
  destruct (CollisionSystem.checkCollision h a b) eqn:H3.
  - split; [|apply JsMap_NoDup_set].
    rewrite JsMap_has_set, orb_true_iff, String.eqb_eq. split.
    + intros [->|H]; [right | now left]. exists cA, cB. auto 6.
    + intros [H|H]; [now right | left]. apply Hinv in H. tauto.
  - split; [|auto].
    split; [now left | intros [H|H]; [exact H | apply Hinv in H; intuition congruence]].
Qed.

Lemma bruteForceInner_spec h a cA rest :
  Entity.getCollider h a = Some cA ->
  (forall b, In b rest -> Entity.getCollider h b <> None) ->
  forall cur,
  exists out,
    CollisionSystem.bruteForceInner h a (Some cA) rest cur = Some out /\
    (forall pairId,
        JsMap.has pairId out = true <->
        JsMap.has pairId cur = true \/ exists b, In b rest /\ pair_passes h a b pairId) /\
    (NoDup (JsMap.keys cur) -> NoDup (JsMap.keys out)).
Proof.
  intros HcA. induction rest as [|b rest IH]; intros Hrest cur.
  - exists cur. simpl. split; [reflexivity|]. split; [|auto].
    intros pairId. split; [now left | intros [H|(b & [] & _)]; exact H].
  - simpl. destruct (Entity.getCollider h b) as [cB|] eqn:HcB.
    2:{ exfalso. apply (Hrest b); [now left | exact HcB]. }
    match goal with
    | |- context [CollisionSystem.bruteForceInner h a (Some cA) rest ?p] =>
        destruct (IH (fun b' Hb' => Hrest b' (or_intror Hb')) p) as (out & Hout & Hhas & Hnd)
    end.
    exists out. split; [exact Hout|]. split.
    + intros pairId. rewrite Hhas.
      destruct (bruteForce_step h a b cA cB cur pairId HcA HcB) as [Hstep _].
      cbv zeta in Hstep. rewrite Hstep. split.
      * intros [[H|H]|(b' & Hb' & H)]; [now left | right; exists b; split; [now left | exact H] |].
        right. exists b'. split; [now right | exact H].
      * intros [H|(b' & [<-|Hb'] & H)]; [now left; left | now left; right |].
        right. now exists b'.
    + intros Hcur. apply Hnd.
      destruct (bruteForce_step h a b cA cB cur EmptyString HcA HcB) as [_ Hstep].
      now apply Hstep.
Qed.

Lemma ordered_pair_cons (A : Type) (a x y : A) l :
  ordered_pair x y (a :: l) <-> (x = a /\ In y l) \/ ordered_pair x y l.
Proof.
  unfold ordered_pair. split.
  - intros (l1 & l2 & l3 & Heq). destruct l1 as [|a' l1]; simpl in Heq.
    + injection Heq as <- ->. left. split; [reflexivity|].
      apply in_or_app. right. now left.
    + injection Heq as <- ->. right. now exists l1, l2, l3.
  - intros [[-> Hy]|(l1 & l2 & l3 & ->)].
    + apply in_split in Hy. destruct Hy as (l2 & l3 & ->). now exists [], l2, l3.
    + now exists (a :: l1), l2, l3.
Qed.

Lemma bruteForce_spec h entities :
  (forall e, In e entities -> Entity.getCollider h e <> None) ->
  forall cur,
  exists out,
    CollisionSystem.bruteForceCollisionDetection h entities cur = Some out /\
    (forall pairId,
        JsMap.has pairId out = true <->
        JsMap.has pairId cur = true \/
        exists a b, ordered_pair a b entities /\ pair_passes h a b pairId) /\
    (NoDup (JsMap.keys cur) -> NoDup (JsMap.keys out)).
Proof.
  induction entities as [|a rest IH]; intros Hall cur.
  - exists cur. simpl. split; [reflexivity|]. split; [|auto].
    intros pairId. split; [now left|].
    intros [H|(a & b & (l1 & l2 & l3 & Heq) & _)]; [exact H|].
    destruct l1; discriminate.
  - simpl. destruct (Entity.getCollider h a) as [cA|] eqn:HcA.
    2:{ exfalso. apply (Hall a); [now left | exact HcA]. }
    destruct (bruteForceInner_spec h a cA rest HcA
                (fun b Hb => Hall b (or_intror Hb)) cur)
      as (mid & Hmid & Hhas1 & Hnd1).
    rewrite Hmid.
    destruct (IH (fun b Hb => Hall b (or_intror Hb)) mid) as (out & Hout & Hhas2 & Hnd2).
    exists out. split; [exact Hout|]. split; [|auto].
    intros pairId. rewrite Hhas2, Hhas1. split.
    + intros [[H|(b & Hb & H)]|(x & y & Hxy & H)].
      * now left.
      * right. exists a, b. split; [|exact H]. apply ordered_pair_cons. now left.
      * right. exists x, y. split; [|exact H]. apply ordered_pair_cons. now right.
    + intros [H|(x & y & Hxy & H)]; [now left; left|].
      apply ordered_pair_cons in Hxy. destruct Hxy as [[-> Hy]|Hxy].
      * left. right. now exists y.
      * right. now exists x, y.
Qed.

(** C5: a pair is shape-tested, and can be recorded, only when the
    layer/mask test passes both ways.  [canCollideWith] holds exactly when
    the bitwise AND of mask and layer is not zero; the detection over
    entities that all carry a collider records a pair id exactly for the
    pairs (first before second in the list) whose two ANDs are both nonzero
    and whose shapes collide.  Two overlapping rectangles with layer 1, mask 2
    and layer 4, mask 8 leave no pair and cause no event, and so do two whose
    masks match in one direction only. *)
Theorem layer_mask_gate_is_symmetric :
  (forall c layer,
      ColliderComponent.canCollideWith c layer = true <->
      Js.bitand (ColliderComponent.collisionMask c) layer <> 0) /\
  (forall h entities,
      (forall e, In e entities -> Entity.getCollider h e <> None) ->
      exists current,
        CollisionSystem.bruteForceCollisionDetection h entities [] = Some current /\
        forall pairId,
          JsMap.has pairId current = true <->
          exists a b cA cB,
            ordered_pair a b entities /\
            Entity.getCollider h a = Some cA /\ Entity.getCollider h b = Some cB /\
            Js.bitand (ColliderComponent.collisionMask cA)
                      (ColliderComponent.collisionLayer cB) <> 0 /\
            Js.bitand (ColliderComponent.collisionMask cB)
                      (ColliderComponent.collisionLayer cA) <> 0 /\
            CollisionSystem.checkCollision h a b = true /\
            pairId = CollisionSystem.getCollisionPairId a b) /\
  (let run cA cB :=
     option_map (fun r => (CollisionSystem.collisionPairs (snd (fst r)), snd r))
                (Scenario.tick 16 (Scenario.setup 100 100 cA 120 120 cB)) in
   run (Scenario.rectOn 50 50 1 2) (Scenario.rectOn 50 50 4 8) = Some ([], []) /\
   run (Scenario.rectOn 50 50 1 4) (Scenario.rectOn 50 50 4 8) = Some ([], []) /\
   run (Scenario.rectOn 50 50 1 4) (Scenario.rectOn 50 50 4 1)
     = Some ([(String.append Scenario.uuidA (String.append ":" Scenario.uuidB), true)],
             [ENTER])).
Proof.
  assert (Hcan : forall c layer,
             ColliderComponent.canCollideWith c layer = true <->
             Js.bitand (ColliderComponent.collisionMask c) layer <> 0).
  { intros c layer. unfold ColliderComponent.canCollideWith.
    rewrite negb_true_iff, Z.eqb_neq. tauto. }
  split; [exact Hcan|]. split.
  - intros h entities Hall.
    destruct (bruteForce_spec h entities Hall []) as (out & Hout & Hhas & _).
    exists out. split; [exact Hout|].
    intros pairId. rewrite Hhas. split.
    + intros [H|(a & b & Hab & cA & cB & HA & HB & H1 & H2 & H3 & H4)]; [discriminate|].
      exists a, b, cA, cB. rewrite <- !Hcan. auto 8.
    + intros (a & b & cA & cB & Hab & HA & HB & H1 & H2 & H3 & H4).
      right. exists a, b. split; [exact Hab|]. exists cA, cB. rewrite !Hcan. auto 8.
  - vm_compute. auto.
Qed.

Lemma layer_mask_gate_is_symmetric_witness :
  exists current,
    CollisionSystem.bruteForceCollisionDetection
      (Scenario.heapOf Scenario.overlapping)
      (collidable (Scenario.flushedWorld Scenario.overlapping)) [] = Some current /\
    JsMap.has (String.append Scenario.uuidA (String.append ":" Scenario.uuidB)) current
    = true.
Proof.
  destruct (proj1 (proj2 layer_mask_gate_is_symmetric)
              (Scenario.heapOf Scenario.overlapping)
              (collidable (Scenario.flushedWorld Scenario.overlapping)))
    as (current & Hcur & Hhas).
  - intros e He. vm_compute in He.
    destruct He as [<-|[<-|[]]]; vm_compute; discriminate.
  - exists current. split; [exact Hcur|]. vm_compute in Hcur.
    injection Hcur as <-. reflexivity.
Defined.

(** ** Events of a tick *)

Lemma flat_map_flat_map (A B C : Type) (f : A -> list B) (g : B -> list C) l :
  flat_map g (flat_map f l) = flat_map (fun a => flat_map g (f a)) l.
Proof.
  induction l as [|a l IH]; simpl; [reflexivity|].
  now rewrite flat_map_app, IH.
Qed.

Lemma flat_map_map (A B C : Type) (f : A -> B) (g : B -> list C) l :
  flat_map g (map f l) = flat_map (fun a => g (f a)) l.
Proof. induction l as [|a l IH]; simpl; [reflexivity | now rewrite IH]. Qed.

Lemma dispatchFor_events w ls type pairId :
  CollisionSystem.dispatchFor (Some w) ls type pairId =
  flat_map (CollisionSystem.dispatchCollisionEvent ls) (eventsFor w type pairId).
Proof.
  unfold CollisionSystem.dispatchFor, eventsFor.
  destruct (CollisionSystem.getEntitiesFromPairId (Some w) pairId) as [[a|] [b|]];
    simpl; now rewrite ?app_nil_r.
Qed.

Lemma processCollisionEvents_events w ls previous current :
  CollisionSystem.processCollisionEvents (Some w) ls previous current =
  flat_map (CollisionSystem.dispatchCollisionEvent ls) (collisionEvents w previous current).
Proof.
  unfold CollisionSystem.processCollisionEvents, collisionEvents, JsMap.keys.
  rewrite flat_map_app, !flat_map_flat_map, !flat_map_map. f_equal.
  - apply flat_map_agree. intros [k v] _. simpl.
    destruct (negb (JsMap.has k previous)); apply dispatchFor_events.
  - apply flat_map_agree. intros [k v] _. simpl.
    destruct (negb (JsMap.has k current)); [apply dispatchFor_events | reflexivity].
Qed.

Lemma filter_all (A : Type) (p : A -> bool) l :
  (forall a, In a l -> p a = true) -> List.filter p l = l.
Proof.
  induction l as [|a l IH]; intros H; simpl; [reflexivity|].
  rewrite (H a (or_introl eq_refl)), IH; [reflexivity|].
  intros b Hb. apply H. now right.
Qed.

Lemma filter_none (A : Type) (p : A -> bool) l :
  (forall a, In a l -> p a = false) -> List.filter p l = [].
Proof.
  induction l as [|a l IH]; intros H; simpl; [reflexivity|].
  rewrite (H a (or_introl eq_refl)). apply IH.
  intros b Hb. apply H. now right.
Qed.

(** Over duplicate-free keys [ks], when every event built for a key is
    about that key, the events about [pairId] are those built for it. *)
Lemma events_about_flat_map (g : string -> list CollisionEvent) ks pairId :
  NoDup ks ->
  (forall k ev, In k ks -> In ev (g k) -> event_pair ev = k) ->
  (In pairId ks -> events_about pairId (flat_map g ks) = g pairId) /\
  (~ In pairId ks -> events_about pairId (flat_map g ks) = []).
Proof.
  unfold events_about.
  induction ks as [|k ks IH]; intros Hnd Hg; simpl; [tauto|].
  inversion Hnd as [|? ? Hnotin Hnd']; subst.
  destruct (IH Hnd' (fun k' ev Hk' => Hg k' ev (or_intror Hk'))) as [IHin IHout].
  rewrite filter_app. split.
  - intros [->|Hin].
    + rewrite IHout by exact Hnotin. rewrite app_nil_r. apply filter_all.
      intros ev Hev. apply String.eqb_eq. apply Hg; [now left | exact Hev].
    + rewrite IHin by exact Hin.
      rewrite filter_none; [reflexivity|].
      intros ev Hev. apply String.eqb_neq.
      rewrite (Hg k ev (or_introl eq_refl) Hev). intros ->. contradiction.
  - intros Hout. rewrite IHout by tauto.
    rewrite filter_none; [reflexivity|].
    intros ev Hev. apply String.eqb_neq.
    rewrite (Hg k ev (or_introl eq_refl) Hev). intros ->. apply Hout. now left.
Qed.

Lemma getEntitiesFromPairId_pair w a b :
  colon_free a = true -> colon_free b = true ->
  CollisionSystem.getEntitiesFromPairId
    (Some w) (String.append a (String.append ":" b))
  = (World.getEntity w a, World.getEntity w b).
Proof.
  intros Ha Hb. unfold CollisionSystem.getEntitiesFromPairId.
  now rewrite (split_pair a b Ha Hb).
Qed.

Lemma eventsFor_about w type pairId ev :
  registry_wf (World.entities w) -> canonical_pair pairId ->
  In ev (eventsFor w type pairId) -> event_pair ev = pairId.
Proof.
  intros [_ Hids] (a & b & Ha & Hb & Hlt & ->). unfold eventsFor.
  rewrite (getEntitiesFromPairId_pair w a b Ha Hb). unfold World.getEntity.
  destruct (JsMap.get a (World.entities w)) as [ea|] eqn:Hea; [|intros []].
  destruct (JsMap.get b (World.entities w)) as [eb|] eqn:Heb; [|intros []].
  intros [<-|[]]. unfold event_pair, CollisionSystem.getCollisionPairId, Entity.getId.
  simpl. apply JsMap_get_In in Hea, Heb.
  destruct (Hids a ea Hea) as [<- _]. destruct (Hids b eb Heb) as [<- _].
  now rewrite Hlt.
Qed.

Lemma values_In (V : Type) (m : JsMap.t V) v :
  In v (JsMap.values m) -> exists k, In (k, v) m.
Proof.
  unfold JsMap.values. rewrite in_map_iff.
  intros ([k v'] & Heq & Hin). simpl in Heq. subst. now exists k.
Qed.

Lemma registry_keys_ids ents :
  registry_wf ents -> JsMap.keys ents = map Entity.id (JsMap.values ents).
Proof.
  intros [_ Hids]. unfold JsMap.keys, JsMap.values. rewrite map_map.
  apply map_ext_in. intros [k e] Hin. simpl. now destruct (Hids k e Hin).
Qed.

Lemma registry_found ents e :
  registry_wf ents -> In e (JsMap.values ents) ->
  JsMap.get (Entity.id e) ents = Some e /\ colon_free (Entity.id e) = true.
Proof.
  intros [Hnd Hids] Hin. apply values_In in Hin. destruct Hin as [k Hin].
  destruct (Hids k e Hin) as [-> Hcf]. split; [|exact Hcf].
  now apply JsMap_In_get_NoDup.
Qed.

Lemma NoDup_map_filter (A B : Type) (f : A -> B) (p : A -> bool) l :
  NoDup (map f l) -> NoDup (map f (List.filter p l)).
Proof.
  induction l as [|a l IH]; simpl; intros Hnd; [constructor|].
  inversion Hnd as [|? ? Hnotin Hnd']; subst.
  destruct (p a); simpl; [|now apply IH].
  constructor; [|now apply IH].
  intros Hin. apply Hnotin. rewrite in_map_iff in *.
  destruct Hin as (x & Hx & Hin). exists x. split; [exact Hx|].
  now apply filter_In in Hin.
Qed.

Lemma ordered_pair_distinct (A B : Type) (f : A -> B) (a b : A) l :
  NoDup (map f l) -> ordered_pair a b l -> f a <> f b.
Proof.
  intros Hnd (l1 & l2 & l3 & ->) Heq.
  rewrite map_app in Hnd. apply NoDup_app_remove_l in Hnd. simpl in Hnd.
  inversion Hnd as [|? ? Hnotin _]; subst. apply Hnotin.
  rewrite map_app. apply in_or_app. right. simpl. left. now symmetry.
Qed.

Lemma ordered_pair_In (A : Type) (a b : A) l :
  ordered_pair a b l -> In a l /\ In b l.
Proof.
  intros (l1 & l2 & l3 & ->). split.
  - apply in_or_app. right. now left.
  - apply in_or_app. right. right. apply in_or_app. right. now left.
Qed.

Lemma typed_collider h e :
  components_typed h e ->
  Entity.hasComponent e ColliderComponent.TYPE = true ->
  Entity.getCollider h e <> None.
Proof.
  intros Htyped Hhas. unfold Entity.hasComponent in Hhas.
  apply JsMap_has_get in Hhas. destruct Hhas as [r Hr].
  unfold Entity.getCollider, Entity.getComponent. rewrite Hr.
  apply JsMap_get_In in Hr. destruct (Htyped _ r Hr) as (c & Hc & Hty).
  rewrite Hc. destruct c as [o [tr|c|k]]; [| discriminate |].
  - discriminate Hty.
  - destruct k; discriminate Hty.
Qed.

Lemma collidable_colliders h w :
  (forall k e, In (k, e) (World.entities w) -> components_typed h e) ->
  forall e, In e (collidable w) -> Entity.getCollider h e <> None.
Proof.
  intros Htyped e He. unfold collidable in He. apply filter_In in He.
  destruct He as [Hin Hf]. apply values_In in Hin. destruct Hin as [k Hin].
  apply andb_true_iff in Hf. destruct Hf as [Hf _].
  unfold CollisionSystem.filter in Hf. apply andb_true_iff in Hf.
  apply (typed_collider h e (Htyped k e Hin)). tauto.
Qed.

Lemma current_pairs_found h w (current : JsMap.t bool) :
  registry_wf (World.entities w) ->
  (forall pairId,
      JsMap.has pairId current = true <->
      JsMap.has pairId ([] : JsMap.t bool) = true \/
      exists a b, ordered_pair a b (collidable w) /\ pair_passes h a b pairId) ->
  forall pairId,
    In pairId (JsMap.keys current) ->
    canonical_pair pairId /\
    exists a b, CollisionSystem.getEntitiesFromPairId (Some w) pairId = (Some a, Some b).
Proof.
  intros Hwf Hhas pairId Hin. apply JsMap_has_keys in Hin. apply Hhas in Hin.
  destruct Hin as [Hin|(a & b & Hab & cA & cB & _ & _ & _ & _ & _ & ->)];
    [discriminate|].
  assert (Hne : Entity.id a <> Entity.id b).
  { apply (ordered_pair_distinct _ _ Entity.id a b (collidable w)); [|exact Hab].
    unfold collidable. apply NoDup_map_filter. unfold World.getEntities.
    rewrite <- (registry_keys_ids _ Hwf). apply Hwf. }
  destruct (ordered_pair_In _ a b _ Hab) as [Ha Hb].
  unfold collidable in Ha, Hb. apply filter_In in Ha, Hb.
  destruct Ha as [Ha _], Hb as [Hb _].
  destruct (registry_found _ a Hwf Ha) as [Hgeta Hcfa].
  destruct (registry_found _ b Hwf Hb) as [Hgetb Hcfb].
  split; [now apply getCollisionPairId_canonical|].
  unfold CollisionSystem.getCollisionPairId, Entity.getId.
  destruct (String.ltb (Entity.id a) (Entity.id b)).
  - exists a, b. rewrite getEntitiesFromPairId_pair by assumption.
    unfold World.getEntity. now rewrite Hgeta, Hgetb.
  - exists b, a. rewrite getEntitiesFromPairId_pair by assumption.
    unfold World.getEntity. now rewrite Hgeta, Hgetb.
Qed.

(** C1: the events of a tick are the diff of the current pair set against
    the previous one.  In a world whose registry and heap are as the ECS
    builds them, [update] returns; it leaves as [collisionPairs] the set the
    detection found this tick, again well formed; every event it dispatches
    goes once to each listener; and about each pair id it dispatches exactly
    one ENTER when the id is current and was not previous, exactly one STAY
    when it is both, exactly one EXIT when it was previous, is not current and
    both entities are still registered, and nothing otherwise.  The four ticks
    of the moved rectangle give none, ENTER, STAY, EXIT. *)
Theorem collision_events_follow_the_pair_diff :
  (forall deltaTime h w cs,
      registry_wf (World.entities w) ->
      (forall k e, In (k, e) (World.entities w) -> components_typed h e) ->
      pairs_wf (CollisionSystem.collisionPairs cs) ->
      exists current events,
        CollisionSystem.bruteForceCollisionDetection h (collidable w) [] = Some current /\
        CollisionSystem.update deltaTime h (Some w) cs =
          Some (CollisionSystem.mk current (CollisionSystem.collisionListeners cs)
                  (CollisionSystem.useQuadTree cs) (CollisionSystem.maxObjectsPerNode cs)
                  (CollisionSystem.maxLevels cs),
                flat_map (CollisionSystem.dispatchCollisionEvent
                            (CollisionSystem.collisionListeners cs)) events) /\
        pairs_wf current /\
        forall pairId,
          let was := JsMap.has pairId (CollisionSystem.collisionPairs cs) in
          let isNow := JsMap.has pairId current in
          let found := CollisionSystem.getEntitiesFromPairId (Some w) pairId in
          (isNow = true -> was = false ->
           exists a b, found = (Some a, Some b) /\
                       events_about pairId events = [mkEvent ENTER a b]) /\
          (isNow = true -> was = true ->
           exists a b, found = (Some a, Some b) /\
                       events_about pairId events = [mkEvent STAY a b]) /\
          (isNow = false -> was = true ->
           events_about pairId events =
           match found with
           | (Some a, Some b) => [mkEvent EXIT a b]
           | _ => []
           end) /\
          (isNow = false -> was = false -> events_about pairId events = [])) /\
  Scenario.fourTicks = Some [[]; [ENTER]; [STAY]; [EXIT]].
Proof.
  split; [|vm_compute; reflexivity].
  intros deltaTime h w cs Hwf Htyped [Hprev_nd Hprev_canon].
  destruct (bruteForce_spec h (collidable w) (collidable_colliders h w Htyped) [])
    as (current & Hdetect & Hhas & Hnd).
  pose proof (current_pairs_found h w current Hwf Hhas) as Hcur.
  exists current, (collisionEvents w (CollisionSystem.collisionPairs cs) current).
  split; [exact Hdetect|]. split; [|split].
  - unfold CollisionSystem.update. fold (collidable w).
    destruct (CollisionSystem.useQuadTree cs && _);
      rewrite Hdetect, processCollisionEvents_events; reflexivity.
  - split; [apply Hnd; constructor | intros pairId Hin; now apply Hcur].
  - intros pairId was isNow found.
    set (previous := CollisionSystem.collisionPairs cs) in *.
    set (gcur := fun k => if negb (JsMap.has k previous)
                          then eventsFor w ENTER k else eventsFor w STAY k).
    set (gprev := fun k => if negb (JsMap.has k current)
                           then eventsFor w EXIT k else []).
    assert (Hgcur : forall k ev, In k (JsMap.keys current) -> In ev (gcur k) ->
                                 event_pair ev = k).
    { intros k ev Hk Hev. destruct (Hcur k Hk) as [Hcanon _]. subst gcur. simpl in Hev.
      destruct (negb (JsMap.has k previous));
        [now apply (eventsFor_about w ENTER k ev Hwf Hcanon)
        | now apply (eventsFor_about w STAY k ev Hwf Hcanon)]. }
    assert (Hgprev : forall k ev, In k (JsMap.keys previous) -> In ev (gprev k) ->
                                  event_pair ev = k).
    { intros k ev Hk Hev. subst gprev. simpl in Hev.
      destruct (negb (JsMap.has k current)); [|destruct Hev].
      now apply (eventsFor_about w EXIT k ev Hwf (Hprev_canon k Hk)). }
    destruct (events_about_flat_map gcur (JsMap.keys current) pairId
                (Hnd (NoDup_nil _)) Hgcur) as [Hcur_in Hcur_out].
    destruct (events_about_flat_map gprev (JsMap.keys previous) pairId
                Hprev_nd Hgprev) as [Hprev_in Hprev_out].
    assert (Hsplit : events_about pairId (collisionEvents w previous current) =
                     events_about pairId (flat_map gcur (JsMap.keys current))
                     ++ events_about pairId (flat_map gprev (JsMap.keys previous))).
    { unfold events_about, collisionEvents. now rewrite filter_app. }
    rewrite Hsplit. subst was isNow.
    assert (Hprev_part_cur :
              JsMap.has pairId current = true ->
              events_about pairId (flat_map gprev (JsMap.keys previous)) = []).
    { intros His. destruct (JsMap.has pairId previous) eqn:Hwas.
      - rewrite Hprev_in by now apply JsMap_has_keys.
        subst gprev. simpl. now rewrite His.
      - apply Hprev_out. rewrite <- JsMap_has_keys. congruence. }
    assert (Hcur_part_out :
              JsMap.has pairId current = false ->
              events_about pairId (flat_map gcur (JsMap.keys current)) = []).
    { intros His. apply Hcur_out. rewrite <- JsMap_has_keys. congruence. }
    repeat split.
    + intros His Hwas. rewrite (Hprev_part_cur His), app_nil_r.
      rewrite Hcur_in by now apply JsMap_has_keys.
      destruct (Hcur pairId (proj1 (JsMap_has_keys pairId current) His))
        as [_ (a & b & Hfound)].
      exists a, b. split; [exact Hfound|].
      subst gcur. simpl. rewrite Hwas. simpl. unfold eventsFor. now rewrite Hfound.
    + intros His Hwas. rewrite (Hprev_part_cur His), app_nil_r.
      rewrite Hcur_in by now apply JsMap_has_keys.
      destruct (Hcur pairId (proj1 (JsMap_has_keys pairId current) His))
        as [_ (a & b & Hfound)].
      exists a, b. split; [exact Hfound|].
      subst gcur. simpl. rewrite Hwas. simpl. unfold eventsFor. now rewrite Hfound.
    + intros His Hwas. rewrite (Hcur_part_out His). simpl.
      rewrite Hprev_in by now apply JsMap_has_keys.
      subst gprev found. simpl. rewrite His. reflexivity.
    + intros His Hwas. rewrite (Hcur_part_out His). simpl.
      apply Hprev_out. rewrite <- JsMap_has_keys. congruence.
Qed.

Lemma collision_events_follow_the_pair_diff_witness :
  exists current events,
    CollisionSystem.update 16 (Scenario.heapOf Scenario.overlapping)
      (Some (Scenario.flushedWorld Scenario.overlapping)) (snd Scenario.overlapping)
    = Some (CollisionSystem.mk current [0%nat] true 10 5,
            flat_map (CollisionSystem.dispatchCollisionEvent [0%nat]) events) /\
    exists a b,
      events_about (String.append Scenario.uuidA (String.append ":" Scenario.uuidB)) events
      = [mkEvent ENTER a b].
Proof.
  destruct (proj1 collision_events_follow_the_pair_diff 16
              (Scenario.heapOf Scenario.overlapping)
              (Scenario.flushedWorld Scenario.overlapping)
              (snd Scenario.overlapping))
    as (current & events & Hdetect & Hupdate & _ & Hdiff).
  - split.
    + vm_compute. repeat constructor; simpl; intuition discriminate.
    + intros k e Hin. vm_compute in Hin.
      destruct Hin as [H|[H|[]]]; injection H as <- <-; split; reflexivity.
  - intros k e Hin. vm_compute in Hin.
    destruct Hin as [H|[H|[]]]; injection H as <- <-;
      intros k' r Hin'; vm_compute in Hin';
      destruct Hin' as [H'|[H'|[]]]; injection H' as <- <-;
      eexists; split; reflexivity.
  - split; [constructor | intros pairId []].
  - exists current, events. split; [exact Hupdate|].
    destruct (Hdiff (String.append Scenario.uuidA (String.append ":" Scenario.uuidB)))
      as [Henter _].
    destruct Henter as (a & b & _ & Habout).
    + vm_compute in Hdetect. injection Hdetect as <-. reflexivity.
    + reflexivity.
    + now exists a, b.
Defined.

(** ** The invariants are kept *)

Lemma JsMap_In_set (V : Type) (k k0 : string) (v v0 : V) (m : JsMap.t V) :
  In (k, v) (JsMap.set k0 v0 m) -> (k, v) = (k0, v0) \/ In (k, v) m.
Proof.
  induction m as [|[k' v'] m IH]; simpl; [intuition congruence|].
  destruct (String.eqb k0 k'); simpl; intuition congruence.
Qed.

Lemma JsMap_In_delete (V : Type) (k k0 : string) (v : V) (m : JsMap.t V) :
  In (k, v) (JsMap.delete k0 m) -> In (k, v) m.
Proof.
  induction m as [|[k' v'] m IH]; simpl; [tauto|].
  destruct (String.eqb k0 k'); simpl; intuition.
Qed.

(** A tick leaves a well-formed registry well formed, as long as the
    entities handed to [addEntity] carry colon-free ids. *)
Lemma update_keeps_registry_wf deltaTime h w :
  registry_wf (World.entities w) ->
  (forall e, In e (World.entitiesToAdd w) -> colon_free (Entity.id e) = true) ->
  registry_wf (World.entities (fst (fst (World.update deltaTime h w)))).
Proof.
  intros Hwf Hadd. rewrite update_unfold, flushAdditions_spec.
  assert (Hadded : registry_wf (fold_left (fun m e => JsMap.set (Entity.getId e) e m)
                                          (World.entitiesToAdd w) (World.entities w))).
  { revert Hwf Hadd. generalize (World.entities w).
    induction (World.entitiesToAdd w) as [|e toAdd IH]; intros ents Hwf Hadd; simpl;
      [exact Hwf|].
    apply IH; [|intros e' He'; apply Hadd; now right].
    destruct Hwf as [Hnd Hids]. split; [now apply JsMap_NoDup_set|].
    intros k e' Hin. apply JsMap_In_set in Hin. destruct Hin as [Heq|Hin]; [|now apply Hids].
    injection Heq as -> ->. split; [reflexivity | apply Hadd; now left]. }
  revert Hadded.
  generalize (fold_left (fun m e => JsMap.set (Entity.getId e) e m)
                        (World.entitiesToAdd w) (World.entities w)).
  intros ents1 Hwf1.
  assert (Hremoved : registry_wf (fst (World.flushRemovals (World.entityListeners w)
                                         (World.entitiesToRemove w) ents1))).
  { revert ents1 Hwf1.
    induction (World.entitiesToRemove w) as [|k ks IH]; intros ents Hwf1; simpl;
      [exact Hwf1|].
    destruct (JsMap.get k ents) as [e|]; [|now apply IH].
    specialize (IH (JsMap.delete k ents)).
    destruct (World.flushRemovals (World.entityListeners w) ks (JsMap.delete k ents))
      as [ents' effs']. simpl in *. apply IH.
    destruct Hwf1 as [Hnd Hids]. split; [now apply JsMap_NoDup_delete|].
    intros k' e' Hin. apply Hids. exact (JsMap_In_delete _ _ _ _ _ Hin). }
  destruct (World.flushRemovals _ _ ents1) as [ents2 effs2]. simpl in Hremoved.
  match goal with
  | |- context [World.runSystems ?d ?ss ?hh ?ww] =>
      pose proof (runSystems_spec d ss hh ww) as Hrun;
      destruct (World.runSystems d ss hh ww) as [[[ss' h3] w3] effs3]
  end.
  destruct Hrun as (He & _). simpl in *. now rewrite He.
Qed.

(** [addComponent] keeps the component map typed, on the heap it leaves. *)
Lemma addComponent_keeps_typed h e component :
  components_typed h e ->
  components_typed (fst (fst (Entity.addComponent h e component)))
                   (snd (fst (Entity.addComponent h e component))).
Proof.
  intros Htyped. unfold Entity.addComponent.
  destruct (Heap.get h component) as [c|] eqn:Hc; simpl; [|exact Htyped].
  intros k r Hin. simpl in Hin. apply JsMap_In_set in Hin.
  assert (Hset : forall r', (exists c', Heap.get h r' = Some c' /\ Component.getType c' = k) ->
                            exists c', Heap.get (Heap.set h component
                                                   (Component.setOwner (Some (Entity.id e)) c)) r'
                                       = Some c' /\ Component.getType c' = k).
  { intros r' (c' & Hc' & Hty). destruct (Nat.eq_dec component r') as [<-|Hne].
    - rewrite (Heap_get_set_same h component _ c Hc). eexists. split; [reflexivity|].
      rewrite Hc in Hc'. injection Hc' as <-. exact Hty.
    - rewrite (Heap_get_set_other h component r' _ Hne). now exists c'. }
  apply Hset. destruct Hin as [Heq|Hin]; [|now apply Htyped].
  injection Heq as -> ->. now exists c.
Qed.

(** [removeEntity] keeps the removal buffer free of duplicates. *)
Lemma removeEntity_keeps_NoDup entityId w :
  NoDup (World.entitiesToRemove w) ->
  NoDup (World.entitiesToRemove (World.removeEntity entityId w)).
Proof. intros Hnd. simpl. now apply JsSet_NoDup_add. Qed.

(** [removeComponent], unlike the overwrite in [addComponent], resets the
    owner of the component it detaches. *)
Lemma removeComponent_clears_owner h e componentType component c :
  Entity.getComponent e componentType = Some component ->
  Heap.get h component = Some c ->
  option_map Component.getOwner
             (Heap.get (fst (fst (Entity.removeComponent h e componentType))) component)
  = Some None.
Proof.
  intros Hget Hc. unfold Entity.removeComponent, Entity.getComponent in *.
  assert (Hhas : JsMap.has componentType (Entity.components e) = true)
    by (apply JsMap_has_get; eauto).
  rewrite Hhas, Hget, Hc. simpl.
  now rewrite (Heap_get_set_same h component _ c Hc).
Qed.

(** The mixed case of [tests/CollisionSystem.test.ts]: a circle of radius
    25 centered at (100,100) and a 50 by 50 rectangle whose bounds start at
    (130,100).  The closest point of the bounds is 30 away, so the code
    reports no collision, where the test expects an ENTER event. *)
Example mixed_test_reports_no_collision :
  option_map snd (Scenario.tick 16 (Scenario.setup 100 100 (Scenario.circle 25)
                                                   130 100 (Scenario.rect 50 50)))
  = Some [].
Proof. vm_compute. reflexivity. Qed.

(** ** More on entities: components and tags *)

Lemma JsMap_delete_set_fresh (V : Type) (k : string) (v : V) (m : JsMap.t V) :
  JsMap.get k m = None -> JsMap.delete k (JsMap.set k v m) = m.
Proof.
  induction m as [|[k' v'] m IH]; simpl.
  - now rewrite String.eqb_refl.
  - destruct (String.eqb_spec k k') as [->|Hne]; [discriminate|].
    intros Hget. simpl. destruct (String.eqb_spec k k'); [congruence|].
    now rewrite IH.
Qed.

Lemma JsSet_has_delete_other k k' s :
  k <> k' -> JsSet.has k' (JsSet.delete k s) = JsSet.has k' s.
Proof.
  intros Hne. unfold JsSet.has. induction s as [|x s IH]; simpl; [reflexivity|].
  destruct (String.eqb_spec k x) as [->|Hx]; simpl.
  - destruct (String.eqb_spec k' x); [congruence | reflexivity].
  - now rewrite IH.
Qed.

Lemma JsSet_delete_incl k s a : In a (JsSet.delete k s) -> In a s.
Proof.
  induction s as [|x s IH]; simpl; [tauto|].
  destruct (String.eqb k x); simpl; [tauto|].
  intros [H|H]; [now left | right; now apply IH].
Qed.

Lemma JsSet_NoDup_delete k s : NoDup s -> NoDup (JsSet.delete k s).
Proof.
  induction s as [|x s IH]; simpl; intros Hnd; [constructor|].
  inversion Hnd as [|? ? Hnotin Hnd']; subst.
  destruct (String.eqb k x); [exact Hnd'|].
  constructor; [|now apply IH].
  intros Hin. apply Hnotin. exact (JsSet_delete_incl k s x Hin).
Qed.

Lemma JsSet_has_delete_same k s : NoDup s -> JsSet.has k (JsSet.delete k s) = false.
Proof.
  induction s as [|x s IH]; simpl; intros Hnd; [reflexivity|].
  inversion Hnd as [|? ? Hnotin Hnd']; subst.
  destruct (String.eqb_spec k x) as [->|Hne].
  - apply not_true_is_false. intros Hh. apply JsSet_has_In in Hh. contradiction.
  - unfold JsSet.has in *. simpl.
    destruct (String.eqb_spec k x); [congruence|]. now apply IH.
Qed.

Lemma JsSet_delete_absent k s : JsSet.has k s = false -> JsSet.delete k s = s.
Proof.
  unfold JsSet.has. induction s as [|x s IH]; simpl; [reflexivity|].
  destruct (String.eqb k x); simpl; [discriminate|].
  intros H. now rewrite IH.
Qed.

Lemma JsSet_delete_add_fresh k s :
  JsSet.has k s = false -> JsSet.delete k (s ++ [k]) = s.
Proof.
  unfold JsSet.has. induction s as [|x s IH]; simpl.
  - now rewrite String.eqb_refl.
  - destruct (String.eqb k x); simpl; [discriminate|].
    intros H. now rewrite IH.
Qed.

(** X1: attaching a component touches the slot of its type-identifier and
    that component object only. *)
Theorem addComponent_touches_one_slot :
  forall h e component c,
    Heap.get h component = Some c ->
    let h' := fst (fst (Entity.addComponent h e component)) in
    let e' := snd (fst (Entity.addComponent h e component)) in
    Entity.getComponent e' (Component.getType c) = Some component /\
    (forall ty, ty <> Component.getType c ->
                Entity.getComponent e' ty = Entity.getComponent e ty) /\
    (NoDup (JsMap.keys (Entity.components e)) ->
     NoDup (JsMap.keys (Entity.components e'))) /\
    Entity.id e' = Entity.id e /\ Entity.tags e' = Entity.tags e /\
    Entity.active e' = Entity.active e /\
    Heap.get h' component = Some (Component.setOwner (Some (Entity.id e)) c) /\
    (forall r, r <> component -> Heap.get h' r = Heap.get h r).
Proof.
  intros h e component c Hc h' e'. subst h' e'.
  unfold Entity.addComponent. rewrite Hc. simpl.
  unfold Entity.getComponent. simpl. repeat split.
  - apply JsMap_get_set_same.
  - intros ty Hty. apply JsMap_get_set_other. congruence.
  - apply JsMap_NoDup_set.
  - exact (Heap_get_set_same h component _ c Hc).
  - intros r Hr. apply Heap_get_set_other. congruence.
Qed.

Lemma addComponent_touches_one_slot_witness :
  Entity.getComponent
    (snd (fst (Entity.addComponent (fst (fst (fst Scenario.twoTransforms)))
                                   (snd (fst (fst Scenario.twoTransforms))) 1%nat)))
    TransformComponent.TYPE = Some 1%nat.
Proof.
  refine (proj1 (addComponent_touches_one_slot
                   (fst (fst (fst Scenario.twoTransforms)))
                   (snd (fst (fst Scenario.twoTransforms))) 1%nat
                   (Component.mk None
                      (Component.PTransform (TransformComponent.mk 3 4 0 1 1))) _)).
  reflexivity.
Defined.

(** X2: detaching.  [removeComponent] of a type that is not attached
    changes nothing and calls nothing; of an attached one, it empties that
    slot only and resets the owner of the detached object only. *)
Theorem removeComponent_detaches_one_slot :
  (forall h e ty,
      Entity.hasComponent e ty = false ->
      Entity.removeComponent h e ty = (h, e, [])) /\
  (forall h e ty component c,
      NoDup (JsMap.keys (Entity.components e)) ->
      Entity.getComponent e ty = Some component ->
      Heap.get h component = Some c ->
      let h' := fst (fst (Entity.removeComponent h e ty)) in
      let e' := snd (fst (Entity.removeComponent h e ty)) in
      Entity.hasComponent e' ty = false /\
      Entity.getComponent e' ty = None /\
      (forall ty', ty' <> ty -> Entity.getComponent e' ty' = Entity.getComponent e ty') /\
      Heap.get h' component = Some (Component.setOwner None c) /\
      (forall r, r <> component -> Heap.get h' r = Heap.get h r) /\
      snd (Entity.removeComponent h e ty) = [CallSetOwner component None]).
Proof.
  split.
  - intros h e ty Hhas. unfold Entity.removeComponent, Entity.hasComponent in *.
    now rewrite Hhas.
  - intros h e ty component c Hnd Hget Hc h' e'. subst h' e'.
    unfold Entity.removeComponent, Entity.getComponent, Entity.hasComponent in *.
    assert (Hhas : JsMap.has ty (Entity.components e) = true)
      by (apply JsMap_has_get; eauto).
    rewrite Hhas, Hget, Hc. simpl. repeat split.
    + apply JsMap_has_false_get. now apply JsMap_get_delete_same.
    + now apply JsMap_get_delete_same.
    + intros ty' Hty'. apply JsMap_get_delete_other. congruence.
    + exact (Heap_get_set_same h component _ c Hc).
    + intros r Hr. apply Heap_get_set_other. congruence.
Qed.

Lemma removeComponent_detaches_one_slot_witness :
  Entity.hasComponent
    (snd (fst (Entity.removeComponent (fst (fst (fst Scenario.twoTransforms)))
                                      (snd (fst (fst Scenario.twoTransforms)))
                                      TransformComponent.TYPE)))
    TransformComponent.TYPE = false.
Proof.
  refine (proj1 (proj2 removeComponent_detaches_one_slot
                   (fst (fst (fst Scenario.twoTransforms)))
                   (snd (fst (fst Scenario.twoTransforms)))
                   TransformComponent.TYPE 0%nat
                   (Component.mk (Some Scenario.uuidA)
                      (Component.PTransform (TransformComponent.mk 1 2 0 1 1)))
                   _ _ _)).
  - vm_compute. repeat constructor. simpl. tauto.
  - reflexivity.
  - reflexivity.
Defined.

(** X3: attaching a component of a type the entity does not carry and
    detaching that type again gives the entity back unchanged; the component
    ends without owner and no other object is touched. *)
Theorem addComponent_removeComponent_round_trip :
  forall h e component c,
    Heap.get h component = Some c ->
    Entity.hasComponent e (Component.getType c) = false ->
    let h1 := fst (fst (Entity.addComponent h e component)) in
    let e1 := snd (fst (Entity.addComponent h e component)) in
    let h2 := fst (fst (Entity.removeComponent h1 e1 (Component.getType c))) in
    let e2 := snd (fst (Entity.removeComponent h1 e1 (Component.getType c))) in
    e2 = e /\
    Heap.get h2 component = Some (Component.setOwner None c) /\
    (forall r, r <> component -> Heap.get h2 r = Heap.get h r).
Proof.
  intros h e component c Hc Hhas h1 e1 h2 e2. subst h1 e1 h2 e2.
  unfold Entity.hasComponent in Hhas. apply JsMap_has_false_get in Hhas.
  unfold Entity.addComponent. rewrite Hc. simpl.
  unfold Entity.removeComponent. simpl.
  rewrite JsMap_has_set, String.eqb_refl, JsMap_get_set_same. simpl.
  rewrite (Heap_get_set_same h component _ c Hc). simpl.
  rewrite (JsMap_delete_set_fresh _ _ _ _ Hhas). repeat split.
  - now destruct e.
  - rewrite (Heap_get_set_same _ component _ _ (Heap_get_set_same h component _ c Hc)).
    reflexivity.
  - intros r Hr. rewrite !Heap_get_set_other by congruence. reflexivity.
Qed.

Lemma addComponent_removeComponent_round_trip_witness :
  snd (fst (Entity.removeComponent
              (fst (fst (Entity.addComponent
                           [Component.mk None (Component.POther Health)]
                           (Entity.new Scenario.uuidA) 0%nat)))
              (snd (fst (Entity.addComponent
                           [Component.mk None (Component.POther Health)]
                           (Entity.new Scenario.uuidA) 0%nat)))
              "Health"))
  = Entity.new Scenario.uuidA.
Proof.
  refine (proj1 (addComponent_removeComponent_round_trip
                   [Component.mk None (Component.POther Health)]
                   (Entity.new Scenario.uuidA) 0%nat
                   (Component.mk None (Component.POther Health)) _ _));
    reflexivity.
Defined.

(** X4: the tags of an entity behave as a set.  [addTag] is idempotent and
    makes [hasTag] true; [removeTag] makes it false and is a no-op on an
    absent tag; neither changes the answer for another tag, and both keep the
    tag list free of duplicates. *)
Theorem tags_behave_as_a_set :
  (forall tag e, Entity.addTag tag (Entity.addTag tag e) = Entity.addTag tag e) /\
  (forall tag e, Entity.hasTag (Entity.addTag tag e) tag = true) /\
  (forall tag tag' e,
      tag <> tag' ->
      Entity.hasTag (Entity.addTag tag e) tag' = Entity.hasTag e tag' /\
      Entity.hasTag (Entity.removeTag tag e) tag' = Entity.hasTag e tag') /\
  (forall tag e, Entity.hasTag e tag = false -> Entity.removeTag tag e = e) /\
  (forall tag e,
      NoDup (Entity.tags e) ->
      NoDup (Entity.tags (Entity.addTag tag e)) /\
      NoDup (Entity.tags (Entity.removeTag tag e)) /\
      Entity.hasTag (Entity.removeTag tag e) tag = false /\
      (Entity.hasTag e tag = false ->
       Entity.removeTag tag (Entity.addTag tag e) = e)).
Proof.
  split; [|split; [|split; [|split]]].
  - intros tag e. unfold Entity.addTag. simpl. now rewrite JsSet_add_idempotent.
  - intros tag e. unfold Entity.hasTag, Entity.addTag, JsSet.add. simpl.
    destruct (JsSet.has tag (Entity.tags e)) eqn:Hh; [exact Hh|].
    apply JsSet_has_In, in_or_app. right. now left.
  - intros tag tag' e Hne. unfold Entity.hasTag, Entity.addTag, Entity.removeTag. simpl.
    split; [|now apply JsSet_has_delete_other].
    unfold JsSet.add. destruct (JsSet.has tag (Entity.tags e)); [reflexivity|].
    unfold JsSet.has. rewrite existsb_app. simpl.
    destruct (String.eqb_spec tag' tag); [congruence|]. now rewrite !orb_false_r.
  - intros tag e Hh. unfold Entity.removeTag, Entity.hasTag in *.
    rewrite (JsSet_delete_absent _ _ Hh). now destruct e.
  - intros tag e Hnd. unfold Entity.hasTag, Entity.addTag, Entity.removeTag. simpl.
    split; [now apply JsSet_NoDup_add|]. split; [now apply JsSet_NoDup_delete|].
    split; [now apply JsSet_has_delete_same|].
    intros Hh. unfold JsSet.add. rewrite Hh.
    rewrite (JsSet_delete_add_fresh _ _ Hh). now destruct e.
Qed.

Lemma tags_behave_as_a_set_witness :
  Entity.removeTag "enemy" (Entity.addTag "enemy" (Entity.new Scenario.uuidA))
  = Entity.new Scenario.uuidA.
Proof.
  refine (proj2 (proj2 (proj2 (proj2 (proj2 (proj2 (proj2 tags_behave_as_a_set)))
                                       "enemy" (Entity.new Scenario.uuidA) _))) _).
  - constructor.
  - reflexivity.
Defined.

(** ** More on the world: lookups after a tick *)

Lemma flushRemovals_registry ls toRemove :
  forall ents,
    fst (World.flushRemovals ls toRemove ents) =
    fold_left (fun m k => JsMap.delete k m) toRemove ents.
Proof.
  induction toRemove as [|k ks IH]; intros ents; simpl; [reflexivity|].
  destruct (JsMap.get k ents) as [e|] eqn:Hget.
  - specialize (IH (JsMap.delete k ents)).
    destruct (World.flushRemovals ls ks (JsMap.delete k ents)). exact IH.
  - rewrite IH. now rewrite (JsMap_delete_absent _ _ Hget).
Qed.

(** The registry and the log a tick leaves, in terms of the two flushes. *)
Lemma update_registry_and_log deltaTime h w :
  let added := fold_left (fun m e => JsMap.set (Entity.getId e) e m)
                         (World.entitiesToAdd w) (World.entities w) in
  let removed := World.flushRemovals (World.entityListeners w)
                                     (World.entitiesToRemove w) added in
  World.entities (fst (fst (World.update deltaTime h w))) = fst removed /\
  World.entityListeners (fst (fst (World.update deltaTime h w))) = World.entityListeners w /\
  snd (World.update deltaTime h w) =
    flat_map (fun e => World.notify (World.entityListeners w) e true) (World.entitiesToAdd w)
    ++ snd removed
    ++ map (fun s => SystemUpdate (System.kind s) (System.priority s) deltaTime
                       (if System.world s then Some (fst removed) else None))
           (List.filter System.isActive (World.systems w)).
Proof.
  intros added removed. subst removed.
  rewrite update_unfold, flushAdditions_spec. fold added.
  destruct (World.flushRemovals (World.entityListeners w) (World.entitiesToRemove w) added)
    as [ents2 effs2].
  match goal with
  | |- context [World.runSystems ?d ?ss ?hh ?ww] =>
      pose proof (runSystems_spec d ss hh ww) as Hrun;
      destruct (World.runSystems d ss hh ww) as [[[ss' h3] w3] effs3]
  end.
  destruct Hrun as (He & Hl & Heffs & _). simpl in *. now rewrite He, Hl, Heffs.
Qed.

Lemma fold_set_NoDup toAdd :
  forall ents, NoDup (JsMap.keys ents) ->
               NoDup (JsMap.keys (fold_left (fun m e => JsMap.set (Entity.getId e) e m)
                                            toAdd ents)).
Proof.
  induction toAdd as [|e toAdd IH]; intros ents Hnd; simpl; [exact Hnd|].
  apply IH. now apply JsMap_NoDup_set.
Qed.

Lemma fold_delete_NoDup (V : Type) ks :
  forall ents : JsMap.t V,
    NoDup (JsMap.keys ents) ->
    NoDup (JsMap.keys (fold_left (fun m k => JsMap.delete k m) ks ents)).
Proof.
  induction ks as [|k ks IH]; intros ents Hnd; simpl; [exact Hnd|].
  apply IH. now apply JsMap_NoDup_delete.
Qed.

Lemma fold_delete_get_other (V : Type) ks :
  forall (ents : JsMap.t V) k,
    ~ In k ks ->
    JsMap.get k (fold_left (fun m k' => JsMap.delete k' m) ks ents) = JsMap.get k ents.
Proof.
  induction ks as [|k' ks IH]; intros ents k Hk; simpl; [reflexivity|].
  rewrite IH by (intros H; apply Hk; now right).
  apply JsMap_get_delete_other. intros ->. apply Hk. now left.
Qed.

Lemma fold_delete_get_none (V : Type) ks :
  forall (ents : JsMap.t V) k,
    JsMap.get k ents = None ->
    JsMap.get k (fold_left (fun m k' => JsMap.delete k' m) ks ents) = None.
Proof.
  induction ks as [|k' ks IH]; intros ents k Hk; simpl; [exact Hk|].
  apply IH. destruct (String.eqb_spec k' k) as [->|Hne].
  - destruct (JsMap.get k (JsMap.delete k ents)) eqn:Hget; [|reflexivity].
    rewrite (JsMap_delete_absent _ _ Hk) in Hget. congruence.
  - now rewrite JsMap_get_delete_other.
Qed.

Lemma fold_delete_get_removed (V : Type) ks :
  forall (ents : JsMap.t V) k,
    NoDup (JsMap.keys ents) -> In k ks ->
    JsMap.get k (fold_left (fun m k' => JsMap.delete k' m) ks ents) = None.
Proof.
  induction ks as [|k' ks IH]; intros ents k Hnd Hin; simpl; [destruct Hin|].
  destruct (String.eqb_spec k' k) as [->|Hne].
  - apply fold_delete_get_none. now apply JsMap_get_delete_same.
  - destruct Hin as [Heq|Hin]; [congruence|].
    apply IH; [now apply JsMap_NoDup_delete | exact Hin].
Qed.

Lemma fold_set_get_last toAdd :
  forall ents e,
    In e toAdd ->
    (forall e', In e' toAdd -> Entity.id e' = Entity.id e -> e' = e) ->
    JsMap.get (Entity.id e)
              (fold_left (fun m e' => JsMap.set (Entity.getId e') e' m) toAdd ents)
    = Some e.
Proof.
  induction toAdd as [|x toAdd IH]; intros ents e Hin Huniq; [destruct Hin|].
  simpl.
  destruct (existsb (fun e' => String.eqb (Entity.id e') (Entity.id e)) toAdd) eqn:Hex.
  - apply existsb_exists in Hex. destruct Hex as (e' & He' & Hid).
    apply String.eqb_eq in Hid.
    assert (e' = e) by (apply Huniq; [now right | exact Hid]). subst e'.
    apply IH; [exact He'|]. intros e'' He''. apply Huniq. now right.
  - assert (Hfresh : forall e', In e' toAdd -> Entity.getId e' <> Entity.id e).
    { intros e' He' Hid.
      assert (Htrue : existsb (fun e' => String.eqb (Entity.id e') (Entity.id e)) toAdd
                      = true).
      { apply existsb_exists. exists e'. split; [exact He' | now apply String.eqb_eq]. }
      congruence. }
    rewrite flushAdditions_get_other by exact Hfresh.
    destruct Hin as [->|Hin].
    + apply JsMap_get_set_same.
    + exfalso. exact (Hfresh e Hin eq_refl).
Qed.

(** X5: an entity handed to [addEntity] is registered by the next tick.
    When no other pending entity carries its id and its removal was not
    requested, [getEntity] finds it under its id after the tick, it is in the
    listing, and the registry still holds every id once. *)
Theorem added_entity_is_registered_once :
  forall deltaTime h w e,
    NoDup (JsMap.keys (World.entities w)) ->
    In e (World.entitiesToAdd w) ->
    (forall e', In e' (World.entitiesToAdd w) -> Entity.id e' = Entity.id e -> e' = e) ->
    ~ In (Entity.id e) (World.entitiesToRemove w) ->
    let w' := fst (fst (World.update deltaTime h w)) in
    World.getEntity w' (Entity.id e) = Some e /\
    In e (World.getEntities w') /\
    NoDup (JsMap.keys (World.entities w')).
Proof.
  intros deltaTime h w e Hnd Hin Huniq Hkeep w'. subst w'.
  destruct (update_registry_and_log deltaTime h w) as (Hreg & _).
  cbv zeta in Hreg. rewrite flushRemovals_registry in Hreg.
  unfold World.getEntity, World.getEntities. rewrite Hreg.
  assert (Hget : JsMap.get (Entity.id e)
                           (fold_left (fun m k => JsMap.delete k m) (World.entitiesToRemove w)
                              (fold_left (fun m e' => JsMap.set (Entity.getId e') e' m)
                                         (World.entitiesToAdd w) (World.entities w)))
                 = Some e).
  { rewrite fold_delete_get_other by exact Hkeep. now apply fold_set_get_last. }
  split; [exact Hget|]. split.
  - apply JsMap_get_In in Hget. unfold JsMap.values.
    apply (in_map snd) in Hget. exact Hget.
  - apply fold_delete_NoDup, fold_set_NoDup, Hnd.
Qed.

Lemma added_entity_is_registered_once_witness :
  World.getEntity
    (fst (fst (World.update 16 (Scenario.heapOf Scenario.overlapping)
                            (snd (fst Scenario.overlapping)))))
    Scenario.uuidB
  <> None.
Proof.
  assert (He : exists e, In e (World.entitiesToAdd (snd (fst Scenario.overlapping)))
                         /\ Entity.id e = Scenario.uuidB).
  { eexists. split; [right; left; reflexivity | reflexivity]. }
  destruct He as (e & Hin & Hid). rewrite <- Hid.
  rewrite (proj1 (added_entity_is_registered_once 16
                    (Scenario.heapOf Scenario.overlapping)
                    (snd (fst Scenario.overlapping)) e
                    (NoDup_nil _) Hin
                    ltac:(intros e' He' Hid'; vm_compute in Hin, He';
                          destruct Hin as [<-|[<-|[]]]; destruct He' as [<-|[<-|[]]];
                          first [reflexivity | discriminate Hid | discriminate Hid'])
                    ltac:(vm_compute; tauto))).
  discriminate.
Defined.

(** X6: after a tick no entity is registered under an id whose removal
    was requested, even one that was itself waiting to be added; and an id
    that was neither requested for removal nor added keeps its entry. *)
Theorem removed_entity_is_absent_after_tick :
  forall deltaTime h w entityId,
    NoDup (JsMap.keys (World.entities w)) ->
    let w' := fst (fst (World.update deltaTime h w)) in
    (In entityId (World.entitiesToRemove w) ->
     World.getEntity w' entityId = None /\
     ~ In entityId (JsMap.keys (World.entities w'))) /\
    (~ In entityId (World.entitiesToRemove w) ->
     (forall e, In e (World.entitiesToAdd w) -> Entity.id e <> entityId) ->
     World.getEntity w' entityId = World.getEntity w entityId).
Proof.
  intros deltaTime h w entityId Hnd w'. subst w'.
  destruct (update_registry_and_log deltaTime h w) as (Hreg & _).
  cbv zeta in Hreg. rewrite flushRemovals_registry in Hreg.
  unfold World.getEntity. rewrite Hreg. split.
  - intros Hin.
    assert (Hnone : JsMap.get entityId
                      (fold_left (fun m k => JsMap.delete k m) (World.entitiesToRemove w)
                         (fold_left (fun m e' => JsMap.set (Entity.getId e') e' m)
                                    (World.entitiesToAdd w) (World.entities w))) = None).
    { apply fold_delete_get_removed; [|exact Hin]. now apply fold_set_NoDup. }
    split; [exact Hnone|].
    rewrite <- JsMap_has_keys. apply JsMap_has_false_get in Hnone. congruence.
  - intros Hkeep Hfresh.
    rewrite fold_delete_get_other by exact Hkeep.
    now apply flushAdditions_get_other.
Qed.

Lemma removed_entity_is_absent_after_tick_witness :
  World.getEntity
    (fst (fst (World.update 16 (Scenario.heapOf Scenario.overlapping) Scenario.busyWorld)))
    Scenario.uuidA = None.
Proof.
  refine (proj1 (proj1 (removed_entity_is_absent_after_tick 16
                          (Scenario.heapOf Scenario.overlapping) Scenario.busyWorld
                          Scenario.uuidA (NoDup_nil _)) _)).
  vm_compute. tauto.
Defined.

(** X7: an entity whose removal is requested before the flush that would
    register it is added and removed within that one flush: every listener
    hears first its addition, then its removal, and no system that runs in
    the tick finds it in the registry. *)
Theorem pending_entity_removed_in_same_flush :
  forall deltaTime h w e listener,
    NoDup (JsMap.keys (World.entities w)) ->
    NoDup (World.entitiesToRemove w) ->
    In e (World.entitiesToAdd w) ->
    (forall e', In e' (World.entitiesToAdd w) -> Entity.id e' = Entity.id e -> e' = e) ->
    In (Entity.id e) (World.entitiesToRemove w) ->
    In listener (World.entityListeners w) ->
    (exists before between after,
        snd (World.update deltaTime h w) =
        before ++ EntityNotified listener e true
               :: between ++ EntityNotified listener e false :: after) /\
    (forall kind priority observed,
        In (SystemUpdate kind priority deltaTime (Some observed))
           (snd (World.update deltaTime h w)) ->
        JsMap.get (Entity.id e) observed = None).
Proof.
  intros deltaTime h w e listener Hkeys Hnd Hin Huniq Hrem Hl.
  destruct (update_registry_and_log deltaTime h w) as (_ & _ & Hlog).
  cbv zeta in Hlog. rewrite Hlog. clear Hlog.
  rewrite flushRemovals_registry, (flushRemovals_spec _ _ Hnd).
  cbn [fst snd].
  set (added := fold_left (fun m e' => JsMap.set (Entity.getId e') e' m)
                          (World.entitiesToAdd w) (World.entities w)).
  set (runs := map _ (List.filter System.isActive (World.systems w))).
  assert (Hget : JsMap.get (Entity.id e) added = Some e)
    by now apply fold_set_get_last.
  split.
  - apply in_split in Hin. destruct Hin as (a1 & a2 & Ha).
    apply in_split in Hrem. destruct Hrem as (r1 & r2 & Hr).
    apply in_split in Hl. destruct Hl as (l1 & l2 & Hls).
    set (noteAdd := fun e' => World.notify (World.entityListeners w) e' true).
    set (noteRem := fun k => match JsMap.get k added with
                             | Some e' => World.notify (World.entityListeners w) e' false
                             | None => []
                             end).
    exists (flat_map noteAdd a1 ++ World.notify l1 e true),
           (World.notify l2 e true ++ flat_map noteAdd a2
            ++ flat_map noteRem r1 ++ World.notify l1 e false),
           (World.notify l2 e false ++ flat_map noteRem r2 ++ runs).
    rewrite Ha, Hr, !flat_map_app. simpl.
    subst noteAdd noteRem. cbv beta. rewrite Hget.
    unfold World.notify at 2 5. rewrite Hls, !map_app. simpl.
    fold (World.notify l1 e true) (World.notify l2 e true)
         (World.notify l1 e false) (World.notify l2 e false).
    repeat rewrite <- app_assoc. simpl. repeat rewrite <- app_assoc. reflexivity.
  - intros kind priority observed Hobs.
    apply in_app_or in Hobs. destruct Hobs as [Hobs|Hobs].
    { apply in_flat_map in Hobs. destruct Hobs as (x & _ & Hx).
      unfold World.notify in Hx. apply in_map_iff in Hx.
      destruct Hx as (? & Hx & _). discriminate. }
    apply in_app_or in Hobs. destruct Hobs as [Hobs|Hobs].
    { apply in_flat_map in Hobs. destruct Hobs as (x & _ & Hx).
      destruct (JsMap.get x added); [|destruct Hx].
      unfold World.notify in Hx. apply in_map_iff in Hx.
      destruct Hx as (? & Hx & _). discriminate. }
    subst runs. apply in_map_iff in Hobs. destruct Hobs as (s & Hs & _).
    destruct (System.world s); [|discriminate].
    injection Hs as _ _ <-.
    apply fold_delete_get_removed; [|exact Hrem].
    subst added. now apply fold_set_NoDup.
Qed.

Lemma pending_entity_removed_in_same_flush_witness :
  exists before between after,
    snd (World.update 16 (Scenario.heapOf Scenario.overlapping) Scenario.doomedWorld) =
    before ++ EntityNotified 7%nat Scenario.entityB true
           :: between ++ EntityNotified 7%nat Scenario.entityB false :: after.
Proof.
  apply (pending_entity_removed_in_same_flush 16
           (Scenario.heapOf Scenario.overlapping) Scenario.doomedWorld
           Scenario.entityB 7%nat).
  - constructor.
  - vm_compute. repeat constructor. simpl. tauto.
  - vm_compute. right. left. reflexivity.
  - intros e' He' Hid. vm_compute in He'.
    destruct He' as [<-|[<-|[]]]; [discriminate Hid | reflexivity].
  - vm_compute. left. reflexivity.
  - vm_compute. left. reflexivity.
Defined.

(** ** More on the world: systems, listeners, clear *)

Lemma findIndex_first (A : Type) (p : A -> bool) l1 a l2 :
  Forall (fun x => p x = false) l1 -> p a = true ->
  Js.findIndex p (l1 ++ a :: l2) = Some (List.length l1).
Proof.
  intros Hall Ha. induction Hall as [|x l1 Hx Hall IH]; simpl.
  - now rewrite Ha.
  - now rewrite Hx, IH.
Qed.

Lemma findIndex_none (A : Type) (p : A -> bool) l :
  Forall (fun x => p x = false) l -> Js.findIndex p l = None.
Proof.
  intros Hall. induction Hall as [|x l Hx Hall IH]; simpl; [reflexivity|].
  now rewrite Hx, IH.
Qed.

Lemma find_first (A : Type) (p : A -> bool) l1 a l2 :
  Forall (fun x => p x = false) l1 -> p a = true ->
  find p (l1 ++ a :: l2) = Some a.
Proof.
  intros Hall Ha. induction Hall as [|x l1 Hx Hall IH]; simpl.
  - now rewrite Ha.
  - now rewrite Hx.
Qed.

Lemma splice_remove_middle (A : Type) (l1 : list A) a l2 :
  Js.splice_remove (List.length l1) (l1 ++ a :: l2) = l1 ++ l2.
Proof.
  unfold Js.splice_remove.
  rewrite firstn_app, skipn_app, firstn_all, Nat.sub_diag.
  rewrite (skipn_all2 l1) by lia.
  replace (S (List.length l1) - List.length l1)%nat with 1%nat by lia.
  simpl. now rewrite app_nil_r.
Qed.

Lemma nth_error_middle (A : Type) (l1 : list A) a l2 :
  nth_error (l1 ++ a :: l2) (List.length l1) = Some a.
Proof. induction l1 as [|x l1 IH]; simpl; [reflexivity | exact IH]. Qed.

Lemma removeSystem_first systemType w l1 s l2 :
  World.systems w = l1 ++ s :: l2 ->
  System.instanceOf s systemType = true ->
  Forall (fun s' => System.instanceOf s' systemType = false) l1 ->
  World.removeSystem systemType w =
    (World.mk (World.entities w) (l1 ++ l2) (World.entitiesToAdd w)
              (World.entitiesToRemove w) (World.entityListeners w),
     [SystemDestroy (System.kind s) (System.priority s)]) /\
  World.getSystem w systemType = Some s.
Proof.
  intros Hw Hs Hl1.
  unfold World.removeSystem, World.getSystem. rewrite Hw.
  rewrite (findIndex_first _ _ l1 s l2 Hl1 Hs), nth_error_middle, splice_remove_middle.
  split; [reflexivity|]. exact (find_first _ _ l1 s l2 Hl1 Hs).
Qed.

(** X8: [removeSystem] takes out the first system that is an instance of
    the requested class (of that class or of a class that extends it) and no
    other, running its destroy hook once; [getSystem] answers with that same
    first instance; when the world holds no instance of the class,
    [removeSystem] changes nothing and runs no hook, and [getSystem] finds
    nothing. *)
Theorem removeSystem_removes_first_instance :
  (forall systemType w,
      (forall s, In s (World.systems w) -> System.instanceOf s systemType = false) ->
      World.removeSystem systemType w = (w, []) /\
      World.getSystem w systemType = None) /\
  (forall systemType w l1 s l2,
      World.systems w = l1 ++ s :: l2 ->
      System.instanceOf s systemType = true ->
      (forall s', In s' l1 -> System.instanceOf s' systemType = false) ->
      World.removeSystem systemType w =
        (World.mk (World.entities w) (l1 ++ l2) (World.entitiesToAdd w)
                  (World.entitiesToRemove w) (World.entityListeners w),
         [SystemDestroy (System.kind s) (System.priority s)]) /\
      World.getSystem w systemType = Some s).
Proof.
  split.
  - intros systemType w Hnone. apply Forall_forall in Hnone.
    unfold World.removeSystem, World.getSystem.
    rewrite (findIndex_none _ _ _ Hnone). split; [reflexivity|].
    induction Hnone as [|x l Hx Hall IH]; simpl; [reflexivity|]. now rewrite Hx.
  - intros systemType w l1 s l2 Hw Hs Hl1.
    apply removeSystem_first; [exact Hw | exact Hs | now apply Forall_forall].
Qed.

Lemma removeSystem_removes_first_instance_witness :
  World.removeSystem "Spawner"
    (fst (World.addSystem (Scenario.heir "Homing" "Spawner" 40) Scenario.busyWorld))
  = (Scenario.busyWorld, [SystemDestroy "Homing" 40]).
Proof.
  assert (Hsystems :
            World.systems
              (fst (World.addSystem (Scenario.heir "Homing" "Spawner" 40)
                                    Scenario.busyWorld))
            = World.systems Scenario.busyWorld
              ++ System.setWorld true (Scenario.heir "Homing" "Spawner" 40) :: [])
    by reflexivity.
  destruct (proj2 removeSystem_removes_first_instance "Spawner" _ _ _ _ Hsystems eq_refl)
    as [Hrem _].
  - intros s Hs. vm_compute in Hs.
    destruct Hs as [<-|[<-|[]]]; reflexivity.
  - rewrite Hrem. rewrite app_nil_r. reflexivity.
Defined.

(** X9: adding a system to a world that holds no instance of its class
    and removing that class again gives the world back as it was; between the
    two calls [getSystem] finds the newcomer, attached to the world; the
    hooks run are one init, then one destroy. *)
Theorem addSystem_removeSystem_round_trip :
  forall s w,
    (forall s', In s' (World.systems w) ->
                System.instanceOf s' (System.kind s) = false) ->
    let w1 := fst (World.addSystem s w) in
    World.getSystem w1 (System.kind s) = Some (System.setWorld true s) /\
    fst (World.removeSystem (System.kind s) w1) = w /\
    snd (World.addSystem s w) ++ snd (World.removeSystem (System.kind s) w1) =
      [SystemInit (System.kind s) (System.priority s);
       SystemDestroy (System.kind s) (System.priority s)].
Proof.
  intros s w Hfresh w1. subst w1.
  set (index := match Js.findIndex
                        (fun s' => System.getPriority (System.setWorld true s)
                                   <? System.getPriority s') (World.systems w) with
                | Some i => i
                | None => List.length (World.systems w)
                end).
  assert (Hadd : World.addSystem s w =
                 (World.mk (World.entities w)
                           (firstn index (World.systems w)
                            ++ System.setWorld true s :: skipn index (World.systems w))
                           (World.entitiesToAdd w) (World.entitiesToRemove w)
                           (World.entityListeners w),
                  [SystemInit (System.kind s) (System.priority s)])) by reflexivity.
  rewrite Hadd. cbn [fst snd].
  assert (Hself : System.instanceOf (System.setWorld true s) (System.kind s) = true).
  { unfold System.instanceOf. cbn [System.kind System.setWorld].
    now rewrite String.eqb_refl. }
  destruct (removeSystem_first (System.kind s)
              (World.mk (World.entities w)
                        (firstn index (World.systems w)
                         ++ System.setWorld true s :: skipn index (World.systems w))
                        (World.entitiesToAdd w) (World.entitiesToRemove w)
                        (World.entityListeners w))
              (firstn index (World.systems w)) (System.setWorld true s)
              (skipn index (World.systems w)) eq_refl Hself) as [Hrem Hget].
  { apply Forall_forall. intros s' Hs'. apply Hfresh.
    rewrite <- (firstn_skipn index (World.systems w)). apply in_or_app. now left. }
  rewrite Hrem, Hget. cbn [fst snd World.entities World.entitiesToAdd
                           World.entitiesToRemove World.entityListeners].
  rewrite firstn_skipn. repeat split. now destruct w.
Qed.

Lemma addSystem_removeSystem_round_trip_witness :
  fst (World.removeSystem "Probe"
         (fst (World.addSystem (Scenario.spawner "Probe" 15) Scenario.busyWorld)))
  = Scenario.busyWorld.
Proof.
  refine (proj1 (proj2 (addSystem_removeSystem_round_trip
                          (Scenario.spawner "Probe" 15) Scenario.busyWorld _))).
  intros s Hs. vm_compute in Hs.
  destruct Hs as [<-|[<-|[]]]; reflexivity.
Defined.

Lemma listener_differs (listener : Listener) (ls : list Listener) :
  ~ In listener ls -> Forall (fun x => Nat.eqb listener x = false) ls.
Proof.
  intros Hnot. apply Forall_forall. intros x Hx. apply Nat.eqb_neq.
  intros Heq. subst x. contradiction.
Qed.

(** X10: listeners are unsubscribed by identity, first registration
    first.  For the world's entity listeners and for the collision listeners
    alike: removing a listener that is not registered changes nothing;
    registering a new listener and removing it again gives the object back;
    and removing a listener registered several times drops its first
    registration only. *)
Theorem listeners_unsubscribe_first_registration :
  (forall listener w,
      ~ In listener (World.entityListeners w) ->
      World.removeEntityListener listener w = w /\
      World.removeEntityListener listener (World.addEntityListener listener w) = w) /\
  (forall listener w l1 l2,
      World.entityListeners w = l1 ++ listener :: l2 -> ~ In listener l1 ->
      World.removeEntityListener listener w =
      World.mk (World.entities w) (World.systems w) (World.entitiesToAdd w)
               (World.entitiesToRemove w) (l1 ++ l2)) /\
  (forall listener cs,
      ~ In listener (CollisionSystem.collisionListeners cs) ->
      CollisionSystem.removeCollisionListener listener cs = cs /\
      CollisionSystem.removeCollisionListener listener
        (CollisionSystem.addCollisionListener listener cs) = cs) /\
  (forall listener cs l1 l2,
      CollisionSystem.collisionListeners cs = l1 ++ listener :: l2 -> ~ In listener l1 ->
      CollisionSystem.collisionListeners
        (CollisionSystem.removeCollisionListener listener cs) = l1 ++ l2).
Proof.
  split; [|split; [|split]].
  - intros listener w Hnot. pose proof (listener_differs _ _ Hnot) as Hall. split.
    + unfold World.removeEntityListener, Listener in *. now rewrite (findIndex_none nat _ _ Hall).
    + unfold World.removeEntityListener, World.addEntityListener, Listener in *.
      cbn [World.entityListeners World.entities World.systems World.entitiesToAdd
           World.entitiesToRemove].
      rewrite (findIndex_first nat _ _ listener [] Hall (Nat.eqb_refl listener)).
      rewrite (splice_remove_middle nat), app_nil_r. now destruct w.
  - intros listener w l1 l2 Hw Hnot. pose proof (listener_differs _ _ Hnot) as Hall.
    unfold World.removeEntityListener, Listener in *. rewrite Hw.
    rewrite (findIndex_first nat _ _ listener l2 Hall (Nat.eqb_refl listener)).
    now rewrite (splice_remove_middle nat).
  - intros listener cs Hnot. pose proof (listener_differs _ _ Hnot) as Hall. split.
    + unfold CollisionSystem.removeCollisionListener, Listener in *.
      now rewrite (findIndex_none nat _ _ Hall).
    + unfold CollisionSystem.removeCollisionListener,
        CollisionSystem.addCollisionListener, Listener in *.
      cbn [CollisionSystem.collisionListeners CollisionSystem.collisionPairs
           CollisionSystem.useQuadTree CollisionSystem.maxObjectsPerNode
           CollisionSystem.maxLevels].
      rewrite (findIndex_first nat _ _ listener [] Hall (Nat.eqb_refl listener)).
      rewrite (splice_remove_middle nat), app_nil_r. now destruct cs.
  - intros listener cs l1 l2 Hcs Hnot. pose proof (listener_differs _ _ Hnot) as Hall.
    unfold CollisionSystem.removeCollisionListener, Listener in *. rewrite Hcs.
    rewrite (findIndex_first nat _ _ listener l2 Hall (Nat.eqb_refl listener)).
    simpl. now rewrite (splice_remove_middle nat).
Qed.

Lemma listeners_unsubscribe_first_registration_witness :
  World.removeEntityListener 9%nat (World.addEntityListener 9%nat Scenario.busyWorld)
  = Scenario.busyWorld.
Proof.
  refine (proj2 (proj1 listeners_unsubscribe_first_registration 9%nat
                   Scenario.busyWorld _)).
  vm_compute. intuition discriminate.
Defined.

(** X11: [clear] evicts without notice.  The calls it makes are the
    destroy hooks of the systems, once each, in list order, and nothing
    else: no entity listener is called.  It empties the registry and drops
    what was buffered and the systems, so a tick of the cleared world does
    nothing at all.  The entity listeners stay subscribed: at the next tick
    each of them is called, in registration order, with the next entity
    added. *)
Theorem clear_evicts_without_notice :
  forall w,
    let w' := fst (World.clear w) in
    snd (World.clear w) =
      map (fun s => SystemDestroy (System.kind s) (System.priority s)) (World.systems w) /\
    (forall listener e added, ~ In (EntityNotified listener e added) (snd (World.clear w))) /\
    World.getEntities w' = [] /\
    (forall entityId, World.getEntity w' entityId = None) /\
    World.systems w' = [] /\
    (forall deltaTime h, World.update deltaTime h w' = (w', h, [])) /\
    (forall deltaTime h e,
        snd (World.update deltaTime h (World.addEntity e w')) =
        map (fun listener => EntityNotified listener e true) (World.entityListeners w)).
Proof.
  intros w w'. subst w'. unfold World.clear. cbn [fst snd]. repeat split.
  - intros listener e added Hin. apply in_map_iff in Hin.
    destruct Hin as (s & Hs & _). discriminate.
  - intros deltaTime h e. cbn. unfold World.notify. now rewrite !app_nil_r.
Qed.

(** ** More on the collision system *)

Lemma checkCircleCircle_symmetric tA cA tB cB :
  CollisionSystem.checkCircleCircleCollision tA cA tB cB =
  CollisionSystem.checkCircleCircleCollision tB cB tA cA.
Proof.
  unfold CollisionSystem.checkCircleCircleCollision, ColliderComponent.getOffsetX,
    ColliderComponent.getOffsetY, ColliderComponent.getRadius. cbv zeta.
  rewrite (sub_square_sym (TransformComponent.x tB + ColliderComponent.offsetX cB)
                          (TransformComponent.x tA + ColliderComponent.offsetX cA)).
  rewrite (sub_square_sym (TransformComponent.y tB + ColliderComponent.offsetY cB)
                          (TransformComponent.y tA + ColliderComponent.offsetY cA)).
  now rewrite (add_comm64 (ColliderComponent.radius cA) (ColliderComponent.radius cB)).
Qed.

Lemma checkRectRect_symmetric tA cA tB cB :
  CollisionSystem.checkRectRectCollision tA cA tB cB =
  CollisionSystem.checkRectRectCollision tB cB tA cA.
Proof.
  apply eq_true_iff_eq. rewrite !rect_rect_spec. cbv zeta. tauto.
Qed.

(** X13: the verdict on a pair does not depend on the order of the two
    entities. *)
Theorem checkCollision_is_symmetric :
  forall h entityA entityB,
    CollisionSystem.checkCollision h entityA entityB =
    CollisionSystem.checkCollision h entityB entityA.
Proof.
  intros h a b. unfold CollisionSystem.checkCollision.
  destruct (Entity.getTransform h a) as [ta|], (Entity.getCollider h a) as [ca|],
           (Entity.getTransform h b) as [tb|], (Entity.getCollider h b) as [cb|];
    try reflexivity.
  unfold ColliderComponent.getColliderType.
  destruct (ColliderComponent.type ca), (ColliderComponent.type cb); simpl.
  - apply checkCircleCircle_symmetric.
  - reflexivity.
  - reflexivity.
  - apply checkRectRect_symmetric.
Qed.

Lemma getCollisionPairId_symmetric a b :
  CollisionSystem.getCollisionPairId a b = CollisionSystem.getCollisionPairId b a.
Proof.
  unfold CollisionSystem.getCollisionPairId, Entity.getId.
  destruct (String.ltb (Entity.id a) (Entity.id b)) eqn:Hab.
  - now rewrite (ltb_asym _ _ Hab).
  - destruct (String.ltb (Entity.id b) (Entity.id a)) eqn:Hba; [reflexivity|].
    destruct (string_dec (Entity.id a) (Entity.id b)) as [Heq|Hne].
    + now rewrite Heq.
    + rewrite (ltb_total _ _ Hne Hab) in Hba. discriminate.
Qed.

(** X14: pair ids are canonical.  The id of a pair does not depend on
    the order of the two entities, and, ids being colon-free, two pairs get
    the same pair id only when they join the same two entity ids. *)
Theorem pair_ids_are_canonical :
  (forall a b,
      CollisionSystem.getCollisionPairId a b = CollisionSystem.getCollisionPairId b a) /\
  (forall a b c d,
      colon_free (Entity.id a) = true -> colon_free (Entity.id b) = true ->
      colon_free (Entity.id c) = true -> colon_free (Entity.id d) = true ->
      CollisionSystem.getCollisionPairId a b = CollisionSystem.getCollisionPairId c d ->
      (Entity.id a = Entity.id c /\ Entity.id b = Entity.id d) \/
      (Entity.id a = Entity.id d /\ Entity.id b = Entity.id c)).
Proof.
  split; [exact getCollisionPairId_symmetric|].
  intros a b c d Ha Hb Hc Hd.
  unfold CollisionSystem.getCollisionPairId, Entity.getId.
  destruct (String.ltb (Entity.id a) (Entity.id b)),
           (String.ltb (Entity.id c) (Entity.id d));
    intros Heq; apply pair_injective in Heq; try assumption; tauto.
Qed.

Lemma pair_ids_are_canonical_witness :
  (Entity.id (Entity.new Scenario.uuidA) = Entity.id (Entity.new Scenario.uuidB) /\
   Entity.id (Entity.new Scenario.uuidB) = Entity.id (Entity.new Scenario.uuidA)) \/
  (Entity.id (Entity.new Scenario.uuidA) = Entity.id (Entity.new Scenario.uuidA) /\
   Entity.id (Entity.new Scenario.uuidB) = Entity.id (Entity.new Scenario.uuidB)).
Proof.
  apply (proj2 pair_ids_are_canonical
               (Entity.new Scenario.uuidA) (Entity.new Scenario.uuidB)
               (Entity.new Scenario.uuidB) (Entity.new Scenario.uuidA));
    reflexivity.
Defined.

(** X15: a pair id decodes to its two entities.  In a well-formed
    registry, the lookup of the pair id built from two registered entities of
    different ids finds exactly these two, the one of smaller id first;
    without a world it finds nothing. *)
Theorem pair_id_round_trip :
  (forall pairId, CollisionSystem.getEntitiesFromPairId None pairId = (None, None)) /\
  (forall w a b,
      registry_wf (World.entities w) ->
      In a (World.getEntities w) -> In b (World.getEntities w) ->
      Entity.id a <> Entity.id b ->
      CollisionSystem.getEntitiesFromPairId
        (Some w) (CollisionSystem.getCollisionPairId a b)
      = if String.ltb (Entity.id a) (Entity.id b)
        then (Some a, Some b) else (Some b, Some a)).
Proof.
  split; [reflexivity|].
  intros w a b Hwf Ha Hb Hne.
  destruct (registry_found _ a Hwf Ha) as [Hgeta Hcfa].
  destruct (registry_found _ b Hwf Hb) as [Hgetb Hcfb].
  unfold CollisionSystem.getCollisionPairId, Entity.getId.
  destruct (String.ltb (Entity.id a) (Entity.id b));
    rewrite getEntitiesFromPairId_pair by assumption;
    unfold World.getEntity; now rewrite Hgeta, Hgetb.
Qed.

Lemma found_registered w pairId a b :
  registry_wf (World.entities w) ->
  CollisionSystem.getEntitiesFromPairId (Some w) pairId = (Some a, Some b) ->
  World.getEntity w (Entity.id a) = Some a /\ World.getEntity w (Entity.id b) = Some b.
Proof.
  intros [_ Hids]. unfold CollisionSystem.getEntitiesFromPairId, World.getEntity.
  cbv zeta. intros Heq. injection Heq as HA HB.
  destruct (Js.split ":"%char pairId) as [|idA [|idB rest]]; simpl in HA, HB;
    try discriminate.
  pose proof (JsMap_get_In _ _ _ HA) as HinA. pose proof (JsMap_get_In _ _ _ HB) as HinB.
  destruct (Hids _ _ HinA) as [<- _]. destruct (Hids _ _ HinB) as [<- _]. auto.
Qed.

Lemma pair_id_round_trip_witness :
  CollisionSystem.getEntitiesFromPairId
    (Some (Scenario.flushedWorld Scenario.overlapping))
    (CollisionSystem.getCollisionPairId Scenario.entityB
       (nth 0 (World.entitiesToAdd (snd (fst Scenario.overlapping))) (Entity.new "")))
  = (Some (nth 0 (World.entitiesToAdd (snd (fst Scenario.overlapping))) (Entity.new "")),
     Some Scenario.entityB).
Proof.
  rewrite (proj2 pair_id_round_trip (Scenario.flushedWorld Scenario.overlapping)
             Scenario.entityB
             (nth 0 (World.entitiesToAdd (snd (fst Scenario.overlapping))) (Entity.new ""))).
  - reflexivity.
  - split.
    + vm_compute. repeat constructor; simpl; intuition discriminate.
    + intros k e Hin. vm_compute in Hin.
      destruct Hin as [H|[H|[]]]; injection H as <- <-; split; reflexivity.
  - vm_compute. right. left. reflexivity.
  - vm_compute. left. reflexivity.
  - vm_compute. discriminate.
Defined.

Lemma current_pairs_collidable h w (current : JsMap.t bool) :
  registry_wf (World.entities w) ->
  (forall pairId,
      JsMap.has pairId current = true <->
      JsMap.has pairId ([] : JsMap.t bool) = true \/
      exists a b, ordered_pair a b (collidable w) /\ pair_passes h a b pairId) ->
  forall pairId,
    In pairId (JsMap.keys current) ->
    exists a b,
      CollisionSystem.getEntitiesFromPairId (Some w) pairId = (Some a, Some b) /\
      In a (collidable w) /\ In b (collidable w) /\
      pairId = CollisionSystem.getCollisionPairId a b.
Proof.
  intros Hwf Hhas pairId Hin. apply JsMap_has_keys in Hin. apply Hhas in Hin.
  destruct Hin as [Hin|(a & b & Hab & cA & cB & _ & _ & _ & _ & _ & ->)];
    [discriminate|].
  assert (Hne : Entity.id a <> Entity.id b).
  { apply (ordered_pair_distinct _ _ Entity.id a b (collidable w)); [|exact Hab].
    unfold collidable. apply NoDup_map_filter. unfold World.getEntities.
    rewrite <- (registry_keys_ids _ Hwf). apply Hwf. }
  destruct (ordered_pair_In _ a b _ Hab) as [Ha Hb].
  assert (Ha' : In a (World.getEntities w)) by (apply filter_In in Ha; tauto).
  assert (Hb' : In b (World.getEntities w)) by (apply filter_In in Hb; tauto).
  destruct (registry_found _ a Hwf Ha') as [Hgeta Hcfa].
  destruct (registry_found _ b Hwf Hb') as [Hgetb Hcfb].
  destruct (String.ltb (Entity.id a) (Entity.id b)) eqn:Hlt.
  - exists a, b. repeat split; try assumption.
    unfold CollisionSystem.getCollisionPairId, Entity.getId. rewrite Hlt.
    rewrite getEntitiesFromPairId_pair by assumption.
    unfold World.getEntity. now rewrite Hgeta, Hgetb.
  - exists b, a. repeat split; try assumption; [|apply getCollisionPairId_symmetric].
    unfold CollisionSystem.getCollisionPairId, Entity.getId. rewrite Hlt.
    rewrite getEntitiesFromPairId_pair by assumption.
    unfold World.getEntity. now rewrite Hgeta, Hgetb.
Qed.

Lemma dispatchFor_In w ls type pairId (d : Delivery) :
  In d (CollisionSystem.dispatchFor (Some w) ls type pairId) ->
  exists a b,
    CollisionSystem.getEntitiesFromPairId (Some w) pairId = (Some a, Some b) /\
    snd d = mkEvent type a b /\ In (fst d) ls.
Proof.
  unfold CollisionSystem.dispatchFor.
  destruct (CollisionSystem.getEntitiesFromPairId (Some w) pairId) as [[a|] [b|]];
    try (intros []).
  unfold CollisionSystem.dispatchCollisionEvent. intros Hin.
  apply in_map_iff in Hin. destruct Hin as (l & <- & Hl).
  exists a, b. auto.
Qed.

(** X16: what an event can carry.  In a world as the ECS builds it,
    [update] returns, and every call it makes goes to a registered collision
    listener with an event whose two entities are registered in the world
    under their ids: a pair with a vanished entity never produces an event.
    ENTER and STAY events carry only entities that are active and have both a
    transform and a collider, and every recorded pair id joins two such
    entities. *)
Theorem events_carry_registered_entities :
  forall deltaTime h w cs,
    registry_wf (World.entities w) ->
    (forall k e, In (k, e) (World.entities w) -> components_typed h e) ->
    exists cs' deliveries,
      CollisionSystem.update deltaTime h (Some w) cs = Some (cs', deliveries) /\
      (forall listener ev,
          In (listener, ev) deliveries ->
          In listener (CollisionSystem.collisionListeners cs) /\
          World.getEntity w (Entity.id (entityA ev)) = Some (entityA ev) /\
          World.getEntity w (Entity.id (entityB ev)) = Some (entityB ev) /\
          (ev_type ev <> EXIT ->
           In (entityA ev) (collidable w) /\ In (entityB ev) (collidable w))) /\
      (forall pairId,
          JsMap.has pairId (CollisionSystem.collisionPairs cs') = true ->
          exists a b, In a (collidable w) /\ In b (collidable w) /\
                      pairId = CollisionSystem.getCollisionPairId a b).
Proof.
  intros deltaTime h w cs Hwf Htyped.
  destruct (bruteForce_spec h (collidable w) (collidable_colliders h w Htyped) [])
    as (current & Hdetect & Hhas & Hnd).
  pose proof (current_pairs_collidable h w current Hwf Hhas) as Hcur.
  eexists _, _. split.
  { unfold CollisionSystem.update. fold (collidable w).
    destruct (CollisionSystem.useQuadTree cs && _); rewrite Hdetect; reflexivity. }
  split.
  - intros listener ev Hin. unfold CollisionSystem.processCollisionEvents in Hin.
    apply in_app_or in Hin. destruct Hin as [Hin|Hin];
      apply in_flat_map in Hin; destruct Hin as ([k v] & Hk & Hd); simpl in Hd.
    + assert (Hkey : In k (JsMap.keys current)) by (apply (in_map fst) in Hk; exact Hk).
      destruct (Hcur k Hkey) as (a & b & Hfound & Ha & Hb & _).
      assert (Hev : exists type, snd (listener, ev) = mkEvent type a b /\ In listener
                                   (CollisionSystem.collisionListeners cs)).
      { destruct (negb (JsMap.has k (CollisionSystem.collisionPairs cs)));
          apply dispatchFor_In in Hd; destruct Hd as (a' & b' & Hfound' & Hev & Hl);
          rewrite Hfound in Hfound'; injection Hfound' as <- <-; eauto. }
      destruct Hev as (type & Hev & Hl). simpl in Hev. subst ev. simpl.
      destruct (found_registered w k a b Hwf Hfound) as [HA HB]. auto.
    + destruct (negb (JsMap.has k current)); [|destruct Hd].
      apply dispatchFor_In in Hd. destruct Hd as (a & b & Hfound & Hev & Hl).
      simpl in Hev, Hl. subst ev. simpl.
      destruct (found_registered w k a b Hwf Hfound) as [HA HB].
      repeat split; try assumption; congruence.
  - simpl. intros pairId Hp. apply JsMap_has_keys in Hp.
    destruct (Hcur pairId Hp) as (a & b & _ & Ha & Hb & Hid). now exists a, b.
Qed.

Lemma events_carry_registered_entities_witness :
  exists cs' deliveries,
    CollisionSystem.update 16 (Scenario.heapOf Scenario.overlapping)
      (Some (Scenario.flushedWorld Scenario.overlapping)) (snd Scenario.overlapping)
    = Some (cs', deliveries) /\
    forall pairId,
      JsMap.has pairId (CollisionSystem.collisionPairs cs') = true ->
      exists a b, In a (collidable (Scenario.flushedWorld Scenario.overlapping)) /\
                  In b (collidable (Scenario.flushedWorld Scenario.overlapping)) /\
                  pairId = CollisionSystem.getCollisionPairId a b.
Proof.
  destruct (events_carry_registered_entities 16
              (Scenario.heapOf Scenario.overlapping)
              (Scenario.flushedWorld Scenario.overlapping)
              (snd Scenario.overlapping))
    as (cs' & deliveries & Hupdate & _ & Hpairs).
  - split.
    + vm_compute. repeat constructor; simpl; intuition discriminate.
    + intros k e Hin. vm_compute in Hin.
      destruct Hin as [H|[H|[]]]; injection H as <- <-; split; reflexivity.
  - intros k e Hin. vm_compute in Hin.
    destruct Hin as [H|[H|[]]]; injection H as <- <-;
      intros k' r Hin'; vm_compute in Hin';
      destruct Hin' as [H'|[H'|[]]]; injection H' as <- <-;
      eexists; split; reflexivity.
  - now exists cs', deliveries.
Defined.

Lemma flat_map_length_const (A B : Type) (f : A -> list B) (n : nat) l :
  (forall a, In a l -> List.length (f a) = n) ->
  List.length (flat_map f l) = (List.length l * n)%nat.
Proof.
  induction l as [|a l IH]; intros H; simpl; [reflexivity|].
  rewrite length_app, (H a (or_introl eq_refl)), IH; [reflexivity|].
  intros b Hb. apply H. now right.
Qed.

Lemma flat_map_nil (A B : Type) (l : list A) :
  flat_map (fun _ : A => ([] : list B)) l = [].
Proof. induction l; simpl; auto. Qed.

Lemma processCollisionEvents_same w ls (current : JsMap.t bool) :
  CollisionSystem.processCollisionEvents (Some w) ls current current =
  flat_map (fun entry : string * bool =>
              CollisionSystem.dispatchFor (Some w) ls STAY (fst entry)) current.
Proof.
  assert (Hkey : forall entry, In entry current -> JsMap.has (fst entry) current = true).
  { intros entry Hin. apply JsMap_has_keys. now apply (in_map fst) in Hin. }
  unfold CollisionSystem.processCollisionEvents.
  match goal with
  | |- ?A ++ ?B = _ =>
      assert (HB : B = flat_map (fun _ : string * bool => ([] : list Delivery)) current)
  end.
  { apply flat_map_agree. intros entry Hin. cbv zeta. now rewrite (Hkey entry Hin). }
  rewrite HB, flat_map_nil, app_nil_r.
  apply flat_map_agree. intros entry Hin. cbv zeta. now rewrite (Hkey entry Hin).
Qed.

(** X17: a tick in which nothing moved changes nothing.  After one
    [update], a second [update] over the same heap and world leaves the
    collision system exactly as it was and dispatches STAY events only: one
    per recorded pair and listener, no ENTER, no EXIT. *)
Theorem unchanged_world_gives_only_stay :
  forall deltaTime h w cs,
    registry_wf (World.entities w) ->
    (forall k e, In (k, e) (World.entities w) -> components_typed h e) ->
    exists cs1 deliveries1,
      CollisionSystem.update deltaTime h (Some w) cs = Some (cs1, deliveries1) /\
      forall deltaTime',
      exists deliveries2,
        CollisionSystem.update deltaTime' h (Some w) cs1 = Some (cs1, deliveries2) /\
        Forall (fun d : Delivery => ev_type (snd d) = STAY) deliveries2 /\
        List.length deliveries2 =
          (List.length (CollisionSystem.collisionPairs cs1)
           * List.length (CollisionSystem.collisionListeners cs1))%nat.
Proof.
  intros deltaTime h w cs Hwf Htyped.
  destruct (bruteForce_spec h (collidable w) (collidable_colliders h w Htyped) [])
    as (current & Hdetect & Hhas & Hnd).
  pose proof (current_pairs_collidable h w current Hwf Hhas) as Hcur.
  eexists _, _. split.
  { unfold CollisionSystem.update. fold (collidable w).
    destruct (CollisionSystem.useQuadTree cs && _); rewrite Hdetect; reflexivity. }
  intros deltaTime'.
  exists (flat_map (fun entry : string * bool =>
                      CollisionSystem.dispatchFor (Some w)
                        (CollisionSystem.collisionListeners cs) STAY (fst entry)) current).
  assert (Hkey : forall entry, In entry current -> JsMap.has (fst entry) current = true).
  { intros entry Hin. apply JsMap_has_keys. now apply (in_map fst) in Hin. }
  split; [|split].
  - unfold CollisionSystem.update. fold (collidable w).
    cbn [CollisionSystem.useQuadTree CollisionSystem.maxObjectsPerNode
         CollisionSystem.maxLevels CollisionSystem.collisionPairs
         CollisionSystem.collisionListeners].
    destruct (CollisionSystem.useQuadTree cs && _); rewrite Hdetect;
      now rewrite processCollisionEvents_same.
  - apply Forall_forall. intros d Hd. apply in_flat_map in Hd.
    destruct Hd as (entry & _ & Hd). apply dispatchFor_In in Hd.
    destruct Hd as (a & b & _ & Hev & _). now rewrite Hev.
  - cbn [CollisionSystem.collisionPairs CollisionSystem.collisionListeners].
    apply flat_map_length_const. intros entry Hin.
    destruct (Hcur (fst entry)) as (a & b & Hfound & _).
    { now apply (in_map fst) in Hin. }
    unfold CollisionSystem.dispatchFor. rewrite Hfound.
    unfold CollisionSystem.dispatchCollisionEvent. apply length_map.
Qed.

Lemma unchanged_world_gives_only_stay_witness :
  exists cs1 deliveries1,
    CollisionSystem.update 16 (Scenario.heapOf Scenario.overlapping)
      (Some (Scenario.flushedWorld Scenario.overlapping)) (snd Scenario.overlapping)
    = Some (cs1, deliveries1) /\
    exists deliveries2,
      CollisionSystem.update 16 (Scenario.heapOf Scenario.overlapping)
        (Some (Scenario.flushedWorld Scenario.overlapping)) cs1
      = Some (cs1, deliveries2) /\
      Forall (fun d : Delivery => ev_type (snd d) = STAY) deliveries2.
Proof.
  destruct (unchanged_world_gives_only_stay 16
              (Scenario.heapOf Scenario.overlapping)
              (Scenario.flushedWorld Scenario.overlapping)
              (snd Scenario.overlapping))
    as (cs1 & deliveries1 & Hupdate & Hagain).
  - split.
    + vm_compute. repeat constructor; simpl; intuition discriminate.
    + intros k e Hin. vm_compute in Hin.
      destruct Hin as [H|[H|[]]]; injection H as <- <-; split; reflexivity.
  - intros k e Hin. vm_compute in Hin.
    destruct Hin as [H|[H|[]]]; injection H as <- <-;
      intros k' r Hin'; vm_compute in Hin';
      destruct Hin' as [H'|[H'|[]]]; injection H' as <- <-;
      eexists; split; reflexivity.
  - exists cs1, deliveries1. split; [exact Hupdate|].
    destruct (Hagain 16) as (deliveries2 & H2 & Hstay & _).
    now exists deliveries2.
Defined.

(** ** More on colliders and transforms *)

Lemma toInt32_period n k : Js.toInt32 (n + k * 2 ^ 32) = Js.toInt32 n.
Proof.
  unfold Js.toInt32.
  replace (n + k * 2 ^ 32 + 2 ^ 31) with (n + 2 ^ 31 + k * 2 ^ 32) by ring.
  now rewrite Z.mod_add by lia.
Qed.

(** X18: the layer/mask test sees 32 bits.  A layer and the same layer
    plus a multiple of 2^32 get the same answer from every mask, so a layer
    that is a multiple of 2^32 collides with nothing; a mask of 0 accepts no
    layer; and the default mask accepts exactly the layers whose low 32 bits
    are not all zero. *)
Theorem layer_test_sees_32_bits :
  (forall c layer k,
      ColliderComponent.canCollideWith c (layer + k * 2 ^ 32) =
      ColliderComponent.canCollideWith c layer) /\
  (forall c k, ColliderComponent.canCollideWith c (k * 2 ^ 32) = false) /\
  (forall c layer,
      ColliderComponent.collisionMask c = 0 ->
      ColliderComponent.canCollideWith c layer = false) /\
  (forall layer,
      ColliderComponent.canCollideWith ColliderComponent.default layer =
      negb (layer mod 2 ^ 32 =? 0)).
Proof.
  split; [|split; [|split]].
  - intros c layer k. unfold ColliderComponent.canCollideWith, Js.bitand.
    now rewrite toInt32_period.
  - intros c k. unfold ColliderComponent.canCollideWith, Js.bitand.
    replace (k * 2 ^ 32) with (0 + k * 2 ^ 32) by ring.
    rewrite (toInt32_period 0 k). change (Js.toInt32 0) with 0.
    now rewrite Z.land_0_r.
  - intros c layer Hmask. unfold ColliderComponent.canCollideWith, Js.bitand.
    rewrite Hmask. change (Js.toInt32 0) with 0. now rewrite Z.land_0_l.
  - intros layer. unfold ColliderComponent.canCollideWith, Js.bitand.
    change (Js.toInt32 (ColliderComponent.collisionMask ColliderComponent.default))
      with (-1).
    rewrite Z.land_m1_l. f_equal.
    unfold Js.toInt32.
    destruct (Z.eqb_spec (layer mod 2 ^ 32) 0) as [H0|H0];
      destruct (Z.eqb_spec ((layer + 2 ^ 31) mod 2 ^ 32 - 2 ^ 31) 0) as [H1|H1];
      try reflexivity; exfalso.
    + apply H1. rewrite <- Z.add_mod_idemp_l by lia. rewrite H0.
      now rewrite Z.mod_small by lia.
    + apply H0.
      assert (H2 : (layer + 2 ^ 31) mod 2 ^ 32 = 2 ^ 31) by lia.
      replace layer with (layer + 2 ^ 31 - 2 ^ 31) by ring.
      rewrite Zminus_mod, H2. reflexivity.
Qed.

Lemma layer_test_sees_32_bits_witness :
  ColliderComponent.canCollideWith (Scenario.rectOn 50 50 1 0) 1 = false.
Proof.
  apply (proj1 (proj2 (proj2 layer_test_sees_32_bits))). reflexivity.
Defined.

(** ** Timers *)

Lemma JsMap_set_set (V : Type) (k : string) (v v' : V) (m : JsMap.t V) :
  JsMap.set k v (JsMap.set k v' m) = JsMap.set k v m.
Proof.
  induction m as [|[k0 v0] m IH]; simpl.
  - now rewrite String.eqb_refl.
  - destruct (String.eqb_spec k k0) as [->|Hne]; simpl.
    + now rewrite String.eqb_refl.
    + destruct (String.eqb_spec k k0); [congruence | now rewrite IH].
Qed.

Lemma JsMap_set_same (V : Type) (k : string) (v : V) (m : JsMap.t V) :
  JsMap.get k m = Some v -> JsMap.set k v m = m.
Proof.
  induction m as [|[k0 v0] m IH]; simpl; [discriminate|].
  destruct (String.eqb_spec k k0) as [->|Hne].
  - now intros [= ->].
  - intros H. now rewrite IH.
Qed.

Lemma updateEntry_other deltaTime id time c id' :
  id <> id' ->
  let c' := fst (TimerComponent.updateEntry deltaTime id time c) in
  JsMap.get id' (TimerComponent.timers c') = JsMap.get id' (TimerComponent.timers c) /\
  JsMap.get id' (TimerComponent.callbacks c') = JsMap.get id' (TimerComponent.callbacks c) /\
  JsMap.get id' (TimerComponent.repeating c') = JsMap.get id' (TimerComponent.repeating c) /\
  JsMap.get id' (TimerComponent.durations c') = JsMap.get id' (TimerComponent.durations c).
Proof.
  intros Hne. unfold TimerComponent.updateEntry.
  destruct (time <=? 0); [simpl; auto|].
  destruct (time - deltaTime <=? 0).
  - destruct (JsMap.get id (TimerComponent.repeating c)) as [[|]|]; simpl;
      rewrite ?JsMap_get_set_other, ?JsMap_get_delete_other by exact Hne; auto.
  - simpl. rewrite JsMap_get_set_other by exact Hne. auto.
Qed.

Lemma updateEntry_wf deltaTime id time c :
  timers_wf c -> timers_wf (fst (TimerComponent.updateEntry deltaTime id time c)).
Proof.
  intros (H1 & H2 & H3 & H4). unfold TimerComponent.updateEntry.
  destruct (time <=? 0); [simpl; unfold timers_wf; auto|].
  destruct (time - deltaTime <=? 0).
  - destruct (JsMap.get id (TimerComponent.repeating c)) as [[|]|]; simpl;
      unfold timers_wf; simpl; repeat split;
      first [assumption | apply JsMap_NoDup_set; assumption
             | apply JsMap_NoDup_delete; assumption].
  - unfold timers_wf. simpl. repeat split;
      first [assumption | apply JsMap_NoDup_set; assumption].
Qed.

Lemma updateLoop_app deltaTime l1 l2 :
  forall c,
    TimerComponent.updateLoop deltaTime (l1 ++ l2) c =
    (fst (TimerComponent.updateLoop deltaTime l2
            (fst (TimerComponent.updateLoop deltaTime l1 c))),
     snd (TimerComponent.updateLoop deltaTime l1 c)
     ++ snd (TimerComponent.updateLoop deltaTime l2
               (fst (TimerComponent.updateLoop deltaTime l1 c)))).
Proof.
  induction l1 as [|[id time] l1 IH]; intros c; simpl.
  - now destruct (TimerComponent.updateLoop deltaTime l2 c).
  - destruct (TimerComponent.updateEntry deltaTime id time c) as [c1 called].
    rewrite IH.
    destruct (TimerComponent.updateLoop deltaTime l1 c1) as [c2 calls]. simpl.
    now rewrite app_assoc.
Qed.

Lemma updateLoop_other deltaTime entries id' :
  ~ In id' (map fst entries) ->
  forall c,
    let c' := fst (TimerComponent.updateLoop deltaTime entries c) in
    JsMap.get id' (TimerComponent.timers c') = JsMap.get id' (TimerComponent.timers c) /\
    JsMap.get id' (TimerComponent.callbacks c') = JsMap.get id' (TimerComponent.callbacks c) /\
    JsMap.get id' (TimerComponent.repeating c') = JsMap.get id' (TimerComponent.repeating c) /\
    JsMap.get id' (TimerComponent.durations c') = JsMap.get id' (TimerComponent.durations c).
Proof.
  induction entries as [|[id time] entries IH]; intros Hnot c; simpl; [auto|].
  simpl in Hnot.
  assert (Hne : id <> id') by tauto.
  pose proof (updateEntry_other deltaTime id time c id' Hne) as Hstep.
  destruct (TimerComponent.updateEntry deltaTime id time c) as [c1 called].
  specialize (IH ltac:(tauto) c1).
  destruct (TimerComponent.updateLoop deltaTime entries c1) as [c2 calls].
  simpl in *. destruct Hstep as (S1 & S2 & S3 & S4), IH as (I1 & I2 & I3 & I4).
  rewrite I1, I2, I3, I4. auto.
Qed.

Lemma updateLoop_wf deltaTime entries :
  forall c, timers_wf c -> timers_wf (fst (TimerComponent.updateLoop deltaTime entries c)).
Proof.
  induction entries as [|[id time] entries IH]; intros c Hwf; simpl; [exact Hwf|].
  pose proof (updateEntry_wf deltaTime id time c Hwf) as Hstep.
  destruct (TimerComponent.updateEntry deltaTime id time c) as [c1 called].
  specialize (IH c1 Hstep).
  now destruct (TimerComponent.updateLoop deltaTime entries c1).
Qed.

(** The state in which the loop of [update] reaches the entry of [id], and
    what the loop leaves for [id]: what the step on that entry leaves. *)
Lemma update_at deltaTime c id time :
  timers_wf c ->
  JsMap.get id (TimerComponent.timers c) = Some time ->
  exists c1,
    timers_wf c1 /\
    JsMap.get id (TimerComponent.timers c1) = Some time /\
    JsMap.get id (TimerComponent.callbacks c1) = JsMap.get id (TimerComponent.callbacks c) /\
    JsMap.get id (TimerComponent.repeating c1) = JsMap.get id (TimerComponent.repeating c) /\
    JsMap.get id (TimerComponent.durations c1) = JsMap.get id (TimerComponent.durations c) /\
    let c2 := fst (TimerComponent.updateEntry deltaTime id time c1) in
    let c' := fst (TimerComponent.update deltaTime c) in
    JsMap.get id (TimerComponent.timers c') = JsMap.get id (TimerComponent.timers c2) /\
    JsMap.get id (TimerComponent.callbacks c') = JsMap.get id (TimerComponent.callbacks c2) /\
    JsMap.get id (TimerComponent.repeating c') = JsMap.get id (TimerComponent.repeating c2) /\
    JsMap.get id (TimerComponent.durations c') = JsMap.get id (TimerComponent.durations c2).
Proof.
  intros Hwf Hget. pose proof Hwf as (Hnd & _).
  pose proof (JsMap_get_In _ _ _ Hget) as Hin.
  apply in_split in Hin. destruct Hin as (l1 & l2 & Hsplit).
  unfold JsMap.keys in Hnd. rewrite Hsplit, map_app in Hnd. simpl in Hnd.
  assert (Hl1 : ~ In id (map fst l1)).
  { intros H. apply NoDup_remove_2 in Hnd. apply Hnd. apply in_or_app. now left. }
  assert (Hl2 : ~ In id (map fst l2)).
  { intros H. apply NoDup_remove_2 in Hnd. apply Hnd. apply in_or_app. now right. }
  exists (fst (TimerComponent.updateLoop deltaTime l1 c)).
  destruct (updateLoop_other deltaTime l1 id Hl1 c) as (A1 & A2 & A3 & A4).
  cbv zeta in A1, A2, A3, A4.
  split; [now apply updateLoop_wf|]. rewrite A1, A2, A3, A4.
  repeat (split; [now auto|]).
  unfold TimerComponent.update. rewrite Hsplit, updateLoop_app. cbn [fst].
  change ((id, time) :: l2) with ([(id, time)] ++ l2). rewrite updateLoop_app. cbn [fst].
  assert (Hone : fst (TimerComponent.updateLoop deltaTime [(id, time)]
                        (fst (TimerComponent.updateLoop deltaTime l1 c))) =
                 fst (TimerComponent.updateEntry deltaTime id time
                        (fst (TimerComponent.updateLoop deltaTime l1 c)))).
  { simpl. now destruct (TimerComponent.updateEntry _ _ _ _). }
  rewrite Hone.
  exact (updateLoop_other deltaTime l2 id Hl2 _).
Qed.

Lemma update_wf deltaTime c :
  timers_wf c -> timers_wf (fst (TimerComponent.update deltaTime c)).
Proof. apply updateLoop_wf. Qed.



Lemma twoTimers_wf : timers_wf twoTimers.
Proof.
  unfold timers_wf. vm_compute.
  repeat split; repeat constructor; simpl; intuition discriminate.
Qed.


(** X22: [update] calls exactly the callbacks of the timers that are due,
    each once, in the order of the map: a timer is due when it is running
    (its time is positive) and the elapsed time reaches it. *)
Theorem update_calls_due_timers_once :
  forall deltaTime c,
    NoDup (JsMap.keys (TimerComponent.timers c)) ->
    snd (TimerComponent.update deltaTime c) =
    flat_map (fun entry : string * Z =>
                if (0 <? snd entry) && (snd entry <=? deltaTime)
                then match JsMap.get (fst entry) (TimerComponent.callbacks c) with
                     | Some callback => [callback]
                     | None => []
                     end
                else [])
             (TimerComponent.timers c).
Proof.
  intros deltaTime c Hnd. unfold TimerComponent.update.
  assert (Hgen : forall entries c1,
             NoDup (map fst entries) ->
             (forall id, In id (map fst entries) ->
                         JsMap.get id (TimerComponent.callbacks c1) =
                         JsMap.get id (TimerComponent.callbacks c)) ->
             snd (TimerComponent.updateLoop deltaTime entries c1) =
             flat_map (fun entry : string * Z =>
                         if (0 <? snd entry) && (snd entry <=? deltaTime)
                         then match JsMap.get (fst entry) (TimerComponent.callbacks c) with
                              | Some callback => [callback]
                              | None => []
                              end
                         else []) entries).
  { induction entries as [|[id time] entries IH]; intros c1 Hnd1 Hcb; [reflexivity|].
    simpl in Hnd1. inversion Hnd1 as [|? ? Hnotin Hnd1']; subst.
    cbn [TimerComponent.updateLoop flat_map fst snd].
    assert (Hstep : forall id', In id' (map fst entries) ->
                                JsMap.get id' (TimerComponent.callbacks
                                                 (fst (TimerComponent.updateEntry deltaTime id time c1)))
                                = JsMap.get id' (TimerComponent.callbacks c)).
    { intros id' Hin'.
      destruct (updateEntry_other deltaTime id time c1 id') as (_ & H2 & _).
      - intros ->. contradiction.
      - cbv zeta in H2. rewrite H2. apply Hcb. now right. }
    assert (Hcalled : snd (TimerComponent.updateEntry deltaTime id time c1) =
                      if (0 <? time) && (time <=? deltaTime)
                      then match JsMap.get id (TimerComponent.callbacks c) with
                           | Some callback => [callback]
                           | None => []
                           end
                      else []).
    { unfold TimerComponent.updateEntry. rewrite (Hcb id (or_introl eq_refl)).
      destruct (Z.leb_spec time 0), (Z.ltb_spec 0 time); try lia; [reflexivity|].
      destruct (Z.leb_spec (time - deltaTime) 0), (Z.leb_spec time deltaTime);
        try lia; reflexivity. }
    destruct (TimerComponent.updateEntry deltaTime id time c1) as [c2 called].
    cbn [fst snd] in Hstep, Hcalled.
    specialize (IH c2 Hnd1' Hstep).
    destruct (TimerComponent.updateLoop deltaTime entries c2) as [c3 calls].
    cbn [snd] in IH |- *. now rewrite Hcalled, IH. }
  apply Hgen; [exact Hnd | reflexivity].
Qed.

Lemma update_calls_due_timers_once_witness :
  snd (TimerComponent.update 300 twoTimers) = [1%nat].
Proof.
  rewrite (update_calls_due_timers_once 300 twoTimers (proj1 twoTimers_wf)).
  reflexivity.
Defined.

Lemma update_keeps_nonpositive deltaTime c id time :
  timers_wf c ->
  JsMap.get id (TimerComponent.timers c) = Some time -> time <= 0 ->
  JsMap.get id (TimerComponent.timers (fst (TimerComponent.update deltaTime c))) = Some time.
Proof.
  intros Hwf Hget Hle.
  destruct (update_at deltaTime c id time Hwf Hget)
    as (c1 & _ & G1 & _ & _ & _ & U1 & _).
  cbv zeta in U1. rewrite U1. unfold TimerComponent.updateEntry.
  apply Z.leb_le in Hle. rewrite Hle. exact G1.
Qed.

Lemma timer_updates_keep_nonpositive deltaTimes :
  forall c id time,
    timers_wf c ->
    JsMap.get id (TimerComponent.timers c) = Some time -> time <= 0 ->
    JsMap.get id (TimerComponent.timers (timer_updates deltaTimes c)) = Some time.
Proof.
  unfold timer_updates.
  induction deltaTimes as [|dt dts IH]; intros c id time Hwf Hget Hle; simpl;
    [exact Hget|].
  apply IH; [now apply update_wf | now apply update_keeps_nonpositive | exact Hle].
Qed.

Lemma setTime_wf id time c : timers_wf c -> timers_wf (TimerComponent.setTime id time c).
Proof.
  intros (H1 & H2 & H3 & H4). unfold timers_wf. simpl.
  repeat split; try assumption. now apply JsMap_NoDup_set.
Qed.

(** X23: a paused timer does not advance.  Pausing a running timer and
    resuming it at once gives the component back unchanged; and however many
    updates run while it is paused, its remaining time stays what it was, and
    resuming then gives that time back. *)
Theorem paused_timer_keeps_its_time :
  forall c id time,
    timers_wf c ->
    JsMap.get id (TimerComponent.timers c) = Some time ->
    0 < time ->
    TimerComponent.resumeTimer id (TimerComponent.pauseTimer id c) = c /\
    forall deltaTimes,
      let c' := timer_updates deltaTimes (TimerComponent.pauseTimer id c) in
      TimerComponent.getTimeRemaining c' id = time /\
      JsMap.get id (TimerComponent.timers (TimerComponent.resumeTimer id c')) = Some time.
Proof.
  intros c id time Hwf Hget Hpos.
  assert (Hpause : TimerComponent.pauseTimer id c = TimerComponent.setTime id (- time) c).
  { unfold TimerComponent.pauseTimer. rewrite Hget.
    destruct (Z.ltb_spec 0 time); [reflexivity | lia]. }
  split.
  - rewrite Hpause. unfold TimerComponent.resumeTimer, TimerComponent.setTime. simpl.
    rewrite JsMap_get_set_same.
    destruct (Z.ltb_spec (- time) 0); [|lia].
    rewrite JsMap_set_set, Z.opp_involutive, (JsMap_set_same _ _ _ _ Hget).
    now destruct c.
  - intros deltaTimes c'. subst c'. rewrite Hpause.
    assert (Hkept : JsMap.get id (TimerComponent.timers
                                    (timer_updates deltaTimes
                                       (TimerComponent.setTime id (- time) c)))
                    = Some (- time)).
    { apply timer_updates_keep_nonpositive; [now apply setTime_wf | | lia].
      simpl. apply JsMap_get_set_same. }
    split.
    + unfold TimerComponent.getTimeRemaining. rewrite Hkept. lia.
    + unfold TimerComponent.resumeTimer. rewrite Hkept.
      destruct (Z.ltb_spec (- time) 0); [|lia].
      simpl. rewrite JsMap_get_set_same. f_equal. lia.
Qed.

Lemma paused_timer_keeps_its_time_witness :
  TimerComponent.resumeTimer "blink" (TimerComponent.pauseTimer "blink" twoTimers)
  = twoTimers.
Proof.
  refine (proj1 (paused_timer_keeps_its_time twoTimers "blink" 300 twoTimers_wf _ _));
    [reflexivity | lia].
Defined.

(** X24: a timer added with a duration of zero or less is stuck.  However
    many updates run, it stays in the map with the time it was given, at
    which no update takes it for running, and it is never removed.  Pausing
    or resuming a timer at zero does nothing. *)
Theorem nonpositive_timer_is_stuck :
  forall c id duration callback repeat deltaTimes,
    timers_wf c ->
    duration <= 0 ->
    let c0 := TimerComponent.addTimer id duration callback repeat c in
    JsMap.get id (TimerComponent.timers (timer_updates deltaTimes c0)) = Some duration /\
    TimerComponent.hasTimer (timer_updates deltaTimes c0) id = true /\
    (duration = 0 ->
     TimerComponent.pauseTimer id c0 = c0 /\ TimerComponent.resumeTimer id c0 = c0).
Proof.
  intros c id duration callback repeat deltaTimes (H1 & H2 & H3 & H4) Hle c0.
  assert (Hwf0 : timers_wf c0).
  { subst c0. unfold timers_wf. simpl. repeat split; now apply JsMap_NoDup_set. }
  assert (Hget0 : JsMap.get id (TimerComponent.timers c0) = Some duration).
  { subst c0. simpl. apply JsMap_get_set_same. }
  pose proof (timer_updates_keep_nonpositive deltaTimes c0 id duration Hwf0 Hget0 Hle)
    as Hkept.
  split; [exact Hkept|]. split.
  - unfold TimerComponent.hasTimer. apply JsMap_has_get. eauto.
  - intros ->. unfold TimerComponent.pauseTimer, TimerComponent.resumeTimer.
    rewrite Hget0. simpl. auto.
Qed.

Lemma nonpositive_timer_is_stuck_witness :
  JsMap.get "never"
    (TimerComponent.timers
       (timer_updates [16; 16; 5000]
          (TimerComponent.addTimer "never" 0 3%nat false twoTimers)))
  = Some 0.
Proof.
  refine (proj1 (nonpositive_timer_is_stuck twoTimers "never" 0 3%nat false
                   [16; 16; 5000] twoTimers_wf _)).
  lia.
Defined.

(** ** HealthComponent *)

(** X27: the clone of an invincible component stays invincible.  [clone]
    copies the flag but not the time that is left, so the copy holds the
    flag with no time running: no update ever clears it and [damage] never
    takes anything from it.  Its health is the original's, clamped between
    zero and the maximum. *)
Theorem clone_of_invincible_never_recovers :
  forall c,
    HealthComponent.invincible c = true ->
    let k := HealthComponent.clone c in
    HealthComponent.isInvincible k = true /\
    HealthComponent.currentHealth k
    = clamp64 0 (HealthComponent.maxHealth c) (HealthComponent.currentHealth c) /\
    (forall deltaTimes, health_updates deltaTimes k = k) /\
    (forall amount, HealthComponent.damage amount k = (k, 0%float)).
Proof.
  intros c Hinv k.
  assert (Hk : k = HealthComponent.mk (HealthComponent.maxHealth c)
                     (clamp64 0 (HealthComponent.maxHealth c)
                              (HealthComponent.currentHealth c))
                     true (HealthComponent.invincibilityTime c) 0).
  { subst k. unfold HealthComponent.clone, HealthComponent.setInvincible,
      HealthComponent.setCurrentHealth, HealthComponent.new. rewrite Hinv. reflexivity. }
  rewrite Hk. repeat split.
  intros deltaTimes. unfold health_updates.
  induction deltaTimes as [|dt dts IH]; simpl; [reflexivity | exact IH].
Qed.

Lemma clone_of_invincible_never_recovers_witness :
  HealthComponent.isInvincible
    (health_updates [600%float; 600%float]
       (HealthComponent.clone
          (fst (HealthComponent.damage 10 (HealthComponent.new 100 1000))))) = true.
Proof.
  pose proof (clone_of_invincible_never_recovers
                (fst (HealthComponent.damage 10 (HealthComponent.new 100 1000)))
                eq_refl) as H.
  cbv zeta in H. destruct H as (H1 & _ & H3 & _).
  rewrite (H3 [600%float; 600%float]). exact H1.
Defined.

(** ** ObjectPool *)

Section PoolFacts.
Context {T : Type}.
Variable factory : nat -> T.

Lemma pop_snoc (l : list T) (x : T) : ObjectPool.pop (l ++ [x]) = Some (x, l).
Proof.
  induction l as [|y l IH]; simpl; [reflexivity|]. now rewrite IH.
Qed.

Lemma pop_nonempty (l : list T) :
  l <> [] -> exists x r, l = r ++ [x] /\ ObjectPool.pop l = Some (x, r).
Proof.
  intros Hne. destruct (exists_last Hne) as (r & x & ->).
  exists x, r. split; [reflexivity | apply pop_snoc].
Qed.

Lemma preFillLoop_spec (n : nat) :
  forall p : ObjectPool.t T,
    ObjectPool.pool (fst (ObjectPool.preFillLoop factory n p))
    = ObjectPool.pool p ++ map factory (seq (ObjectPool.created p) n) /\
    ObjectPool.maxSize (fst (ObjectPool.preFillLoop factory n p)) = ObjectPool.maxSize p /\
    ObjectPool.created (fst (ObjectPool.preFillLoop factory n p))
    = (ObjectPool.created p + n)%nat /\
    snd (ObjectPool.preFillLoop factory n p)
    = flat_map (fun k => [PoolFactory; PoolReset (factory k)])
               (seq (ObjectPool.created p) n).
Proof.
  induction n as [|n IH]; intros p.
  - simpl. rewrite app_nil_r, Nat.add_0_r. auto.
  - cbn [ObjectPool.preFillLoop].
    specialize (IH (ObjectPool.mk (ObjectPool.pool p ++ [factory (ObjectPool.created p)])
                                  (ObjectPool.maxSize p) (S (ObjectPool.created p)))).
    destruct (ObjectPool.preFillLoop factory n _) as [p' calls].
    cbn [fst snd ObjectPool.pool ObjectPool.maxSize ObjectPool.created] in IH |- *.
    destruct IH as (I1 & I2 & I3 & I4).
    rewrite I1, I2, I3, I4, <- app_assoc. simpl.
    repeat split; lia.
Qed.

Lemma trimLoop_bound (fuel : nat) :
  forall (l l' : list T) m,
    ObjectPool.trimLoop fuel l m = Some l' -> Z.of_nat (List.length l') <= m.
Proof.
  induction fuel as [|fuel IH]; intros l l' m; simpl.
  - destruct (Z.ltb_spec m (Z.of_nat (List.length l))); [discriminate|].
    intros [= <-]. assumption.
  - destruct (Z.ltb_spec m (Z.of_nat (List.length l))); [apply IH|].
    intros [= <-]. assumption.
Qed.

Lemma trimLoop_keeps_oldest (fuel : nat) :
  forall (l : list T) m,
    0 <= m ->
    (List.length l - Z.to_nat m <= fuel)%nat ->
    ObjectPool.trimLoop fuel l m = Some (firstn (Z.to_nat m) l).
Proof.
  induction fuel as [|fuel IH]; intros l m Hm Hfuel.
  - simpl. destruct (Z.ltb_spec m (Z.of_nat (List.length l))); [lia|].
    now rewrite firstn_all2 by lia.
  - cbn [ObjectPool.trimLoop].
    destruct (Z.ltb_spec m (Z.of_nat (List.length l))) as [Hlong|Hshort].
    + destruct (pop_nonempty l) as (x & r & -> & ->).
      { intros ->. simpl in Hlong. lia. }
      rewrite length_app in Hlong, Hfuel. simpl in Hlong, Hfuel.
      rewrite IH by lia.
      rewrite firstn_app.
      replace (Z.to_nat m - List.length r)%nat with 0%nat by lia.
      simpl. now rewrite app_nil_r.
    + now rewrite firstn_all2 by lia.
Qed.

Lemma trimLoop_negative (fuel : nat) :
  forall (l : list T) m, m < 0 -> ObjectPool.trimLoop fuel l m = None.
Proof.
  induction fuel as [|fuel IH]; intros l m Hm; simpl;
    destruct (Z.ltb_spec m (Z.of_nat (List.length l))); try lia; auto.
Qed.

End PoolFacts.

(** X28: a pool never holds more than its capacity.  From a pool within
    its capacity, [release], [get], [clear], [preFill] and a [setMaxSize]
    that returns all give a pool within its capacity.  [preFill(count)]
    adds [min(count, room)] objects, none when that is negative: it calls
    the factory that many times, resets each new object and activates
    none. *)
Theorem pool_never_exceeds_capacity :
  forall (T : Type) (factory : nat -> T) (p : ObjectPool.t T),
    within_capacity p ->
    (forall obj, within_capacity (fst (ObjectPool.release obj p))) /\
    within_capacity (fst (fst (ObjectPool.get factory p))) /\
    within_capacity (ObjectPool.clear p) /\
    (forall count,
        let room := ObjectPool.maxSize p - ObjectPool.size p in
        let added := Z.max 0 (Z.min count room) in
        within_capacity (fst (ObjectPool.preFill factory count p)) /\
        ObjectPool.size (fst (ObjectPool.preFill factory count p))
        = ObjectPool.size p + added /\
        snd (ObjectPool.preFill factory count p)
        = flat_map (fun k => [PoolFactory; PoolReset (factory k)])
                   (seq (ObjectPool.created p) (Z.to_nat added))) /\
    (forall fuel maxSize p',
        ObjectPool.setMaxSize fuel maxSize p = Some p' -> within_capacity p').
Proof.
  intros T factory [pool maxSize created] Hcap.
  unfold within_capacity, ObjectPool.size in *. simpl in Hcap.
  split; [|split; [|split; [|split]]].
  - intros obj. unfold ObjectPool.release. simpl.
    destruct (Z.leb_spec maxSize (Z.of_nat (List.length pool))); simpl; [lia|].
    rewrite length_app. simpl. lia.
  - unfold ObjectPool.get. simpl.
    destruct pool as [|x pool']; [simpl; lia|].
    destruct (pop_nonempty (x :: pool')) as (y & r & Heq & Hpop); [discriminate|].
    change (0 <? List.length (x :: pool'))%nat with true. cbv iota.
    rewrite Hpop. simpl. rewrite Heq, length_app in Hcap. simpl in Hcap. lia.
  - simpl. lia.
  - intros count. cbv zeta. unfold ObjectPool.preFill, Js.min.
    cbn [ObjectPool.pool ObjectPool.maxSize ObjectPool.created] in *.
    set (n := Z.to_nat (Z.min count (maxSize - Z.of_nat (List.length pool)))).
    replace (Z.to_nat (Z.max 0 (Z.min count (maxSize - Z.of_nat (List.length pool)))))
      with n by (subst n; lia).
    destruct (preFillLoop_spec factory n (ObjectPool.mk pool maxSize created))
      as (I1 & I2 & _ & I4).
    cbn [ObjectPool.pool ObjectPool.maxSize ObjectPool.created] in I1, I2, I4.
    rewrite I1, I2, I4, length_app, length_map, length_seq.
    subst n. repeat split; lia.
  - intros fuel m p'. unfold ObjectPool.setMaxSize. simpl.
    destruct (ObjectPool.trimLoop fuel pool m) as [l|] eqn:Htrim; [|discriminate].
    intros [= <-]. simpl. apply trimLoop_bound in Htrim. lia.
Qed.

Lemma pool_never_exceeds_capacity_witness :
  ObjectPool.size (fst (ObjectPool.preFill (fun k => k) 5 (ObjectPool.new nat 3))) = 3.
Proof.
  assert (Hcap : within_capacity (ObjectPool.new nat 3))
    by (unfold within_capacity, ObjectPool.size; simpl; lia).
  pose proof (pool_never_exceeds_capacity nat (fun k => k) (ObjectPool.new nat 3) Hcap)
    as (_ & _ & _ & H & _).
  exact (proj1 (proj2 (H 5))).
Defined.

(** X29: the object released last is the one handed out next.  When the
    pool has room, [release] resets the object and keeps it, and the next
    [get] activates it and returns it without calling the factory, leaving
    the pool as it was before the release.  When the pool is full,
    [release] drops the object without resetting it.  On an empty pool
    [get] calls the factory once and activates what it made. *)
Theorem released_object_is_reused_first :
  forall (T : Type) (factory : nat -> T) (p : ObjectPool.t T) (obj : T),
    (ObjectPool.size p < ObjectPool.maxSize p ->
     snd (ObjectPool.release obj p) = [PoolReset obj] /\
     ObjectPool.get factory (fst (ObjectPool.release obj p))
     = (p, obj, [PoolActivate obj])) /\
    (ObjectPool.maxSize p <= ObjectPool.size p ->
     ObjectPool.release obj p = (p, [])) /\
    (ObjectPool.size p = 0 ->
     let made := factory (ObjectPool.created p) in
     snd (fst (ObjectPool.get factory p)) = made /\
     snd (ObjectPool.get factory p) = [PoolFactory; PoolActivate made] /\
     ObjectPool.size (fst (fst (ObjectPool.get factory p))) = 0).
Proof.
  intros T factory [pool maxSize created] obj.
  unfold ObjectPool.size, ObjectPool.release, ObjectPool.get. simpl.
  split; [|split].
  - intros Hroom.
    destruct (Z.leb_spec maxSize (Z.of_nat (List.length pool))); [lia|]. simpl.
    split; [reflexivity|].
    rewrite pop_snoc, length_app. simpl.
    destruct (Nat.ltb_spec 0 (List.length pool + 1)); [reflexivity | lia].
  - intros Hfull.
    destruct (Z.leb_spec maxSize (Z.of_nat (List.length pool))); [reflexivity | lia].
  - intros Hempty. destruct pool; [simpl; auto | simpl in Hempty; lia].
Qed.

Lemma released_object_is_reused_first_witness :
  ObjectPool.get (fun k => k) (fst (ObjectPool.release 7%nat (ObjectPool.new nat 3)))
  = (ObjectPool.new nat 3, 7%nat, [PoolActivate 7%nat]).
Proof.
  refine (proj2 (proj1 (released_object_is_reused_first nat (fun k => k)
                          (ObjectPool.new nat 3) 7%nat) _)).
  unfold ObjectPool.size. simpl. lia.
Defined.

(** X30: [setMaxSize] trims from the new end, or never returns.  For a
    capacity of zero or more the loop ends after one round for each object
    above the capacity, and the pool keeps its oldest objects, as many as
    the capacity allows.  For a negative capacity the loop never ends,
    whatever the pool holds: no number of rounds is enough. *)
Theorem setMaxSize_trims_or_never_returns :
  forall (T : Type) (p : ObjectPool.t T) (maxSize : Z),
    (0 <= maxSize ->
     forall fuel,
       (List.length (ObjectPool.pool p) - Z.to_nat maxSize <= fuel)%nat ->
       ObjectPool.setMaxSize fuel maxSize p
       = Some (ObjectPool.mk (firstn (Z.to_nat maxSize) (ObjectPool.pool p)) maxSize
                             (ObjectPool.created p))) /\
    (maxSize < 0 -> forall fuel, ObjectPool.setMaxSize fuel maxSize p = None).
Proof.
  intros T p maxSize. unfold ObjectPool.setMaxSize. split.
  - intros Hm fuel Hfuel. now rewrite trimLoop_keeps_oldest.
  - intros Hm fuel. now rewrite trimLoop_negative.
Qed.

Lemma setMaxSize_trims_or_never_returns_witness :
  ObjectPool.setMaxSize 2 1 (ObjectPool.mk [1%nat; 2%nat; 3%nat] 5 3)
  = Some (ObjectPool.mk [1%nat] 1 3) /\
  ObjectPool.setMaxSize 1000 (-1) (ObjectPool.mk [1%nat; 2%nat; 3%nat] 5 3) = None.
Proof.
  split.
  - refine (proj1 (setMaxSize_trims_or_never_returns nat
                     (ObjectPool.mk [1%nat; 2%nat; 3%nat] 5 3) 1) _ 2%nat _);
      [lia | simpl; lia].
  - refine (proj2 (setMaxSize_trims_or_never_returns nat
                     (ObjectPool.mk [1%nat; 2%nat; 3%nat] 5 3) (-1)) _ 1000%nat).
    lia.
Defined.
